(** * liquidity-datum: the incremental event scanner

    A shallow embedding of the loan-NFT transfer scan of
    [scripts/scanTroves.js] and the properties of the scanner that the
    specification states.  The log fetcher, the timestamp resolver, the
    cursor statements, the resume block and the window loop are the same,
    line for line, in the trove-event scan of that file and in
    [scripts/scanStabilityPool.js], which differ in the decoder and in the
    tables they fill.

    Conventions of the embedding.
    - JavaScript numbers that the code treats as block numbers, indices and
      delays are integers of [Z]; a value that the code inspects with
      [typeof] or [Number.isInteger] is a [jsval].  A number that the code
      reads from a numeral or multiplies is the double that JavaScript
      computes: rounded to 53 bits, and [Infinity] beyond the doubles.
    - Strings are the UTF-8 bytes of the JavaScript string ([string]).  The
      patterns and keywords of the code are ASCII, and case matters to the
      code for ASCII letters only; white space is the one of ECMAScript,
      which takes one to three bytes.
    - The provider is an oracle: what it answers to each request of one run.
    - The store is explicit state: the cursor table is a map keyed by
      [cursor_key], the event table a list of rows in insertion order.
    - Calls to the logger are not part of the model. *)

From Stdlib Require Import ZArith List Bool Ascii String Lia.
From stdpp Require Import base option list gmap strings.

Local Open Scope Z_scope.

(** ** JavaScript values *)

Module Js.

(** The values a field of a provider object can hold.  A number is either an
    integer or not ([NaN], an infinity or a number with a fractional part). *)
Inductive jsval : Type :=
| JUndefined
| JNull
| JBool (b : bool)
| JInt (n : Z)
| JNonInt
| JString (s : string)
| JObject.

(** [Number.isInteger(v)] *)
Definition Number_isInteger (v : jsval) : bool :=
  match v with JInt _ => true | _ => false end.

(** [typeof v === "number"] *)
Definition typeof_number (v : jsval) : bool :=
  match v with JInt _ | JNonInt => true | _ => false end.

(** [typeof v === "string"] *)
Definition typeof_string (v : jsval) : bool :=
  match v with JString _ => true | _ => false end.

(** *** Characters *)

Definition code (c : ascii) : Z := Z.of_N (N_of_ascii c).

(** White space of [parseInt] and of [\s], within ASCII:
    TAB, LF, VT, FF, CR and SPACE. *)
Definition isWhiteSpace (c : ascii) : bool :=
  ((9 <=? code c) && (code c <=? 13)) || (code c =? 32).

(** The no-break space U+00A0, in UTF-8. *)
Definition isWhiteSpace2 (c d : ascii) : bool :=
  (code c =? 194) && (code d =? 160).

(** The white space of three bytes: U+1680, U+2000 to U+200A, U+2028,
    U+2029, U+202F, U+205F, U+3000 and U+FEFF. *)
Definition isWhiteSpace3 (c d e : ascii) : bool :=
  ((code c =? 225) && (code d =? 154) && (code e =? 128))
  || ((code c =? 226) && (code d =? 128)
      && (((128 <=? code e) && (code e <=? 138))
          || (code e =? 168) || (code e =? 169) || (code e =? 175)))
  || ((code c =? 226) && (code d =? 129) && (code e =? 159))
  || ((code c =? 227) && (code d =? 128) && (code e =? 128))
  || ((code c =? 239) && (code d =? 187) && (code e =? 191)).

Definition lowerChar (c : ascii) : ascii :=
  if (65 <=? code c) && (code c <=? 90)
  then ascii_of_N (N_of_ascii c + 32) else c.

(** [s.toLowerCase()] *)
Fixpoint toLowerCase (s : string) : string :=
  match s with
  | EmptyString => EmptyString
  | String c r => String (lowerChar c) (toLowerCase r)
  end.

(** [s.startsWith(p)] *)
Fixpoint startsWith (p s : string) : bool :=
  match p, s with
  | EmptyString, _ => true
  | String a p', String b s' => (code a =? code b) && startsWith p' s'
  | String _ _, EmptyString => false
  end.

(** [s.includes(p)] *)
Fixpoint includes (p s : string) : bool :=
  startsWith p s ||
  match s with
  | EmptyString => false
  | String _ s' => includes p s'
  end.

(** *** Numbers read from text *)

(** A double that holds an integer is written as that integer, and
    [Infinity] and [-Infinity] as [2^1024] and [-2^1024], the first integers
    beyond the finite doubles. *)
Definition Infinity : Z := 2 ^ 1024.

(** The double nearest to the integer [n >= 0], ties to even: [n] itself
    below 2^53, a multiple of a power of two with 53 significant bits above,
    and [Infinity] from 2^1024 - 2^970 on. *)
Definition roundNat (n : Z) : Z :=
  if n <? 2 ^ 53 then n
  else
    let e := Z.log2 n - 52 in
    let q := n / 2 ^ e in
    let r := n mod 2 ^ e in
    let half := 2 ^ (e - 1) in
    let q' := if (half <? r) || ((r =? half) && Z.odd q) then q + 1 else q in
    Z.min (q' * 2 ^ e) Infinity.

(** The number that JavaScript holds for the integer [n]: what the digits
    of a numeral denote, or an exact product, rounded. *)
Definition toNumber (n : Z) : Z := Z.sgn n * roundNat (Z.abs n).

(** [Number.isFinite(d)] for such a number. *)
Definition Number_isFinite (d : Z) : bool :=
  (- Infinity <? d) && (d <? Infinity).

(** *** [Number.parseInt] *)

(** The value of [c] as a digit, in any radix up to 36. *)
Definition digitValue (c : ascii) : option Z :=
  let n := code c in
  if (48 <=? n) && (n <=? 57) then Some (n - 48)
  else if (97 <=? n) && (n <=? 122) then Some (n - 87)
  else if (65 <=? n) && (n <=? 90) then Some (n - 55)
  else None.

Definition radixDigit (radix : Z) (c : ascii) : option Z :=
  match digitValue c with
  | Some d => if d <? radix then Some d else None
  | None => None
  end.

(** The values of the longest prefix of [s] made of digits of the radix. *)
Fixpoint leadingDigits (radix : Z) (s : string) : list Z :=
  match s with
  | EmptyString => []
  | String c r =>
      match radixDigit radix c with
      | Some d => d :: leadingDigits radix r
      | None => []
      end
  end.

Definition digitsValue (radix : Z) (ds : list Z) : Z :=
  fold_left (fun acc d => acc * radix + d) ds 0.

(** [s] without the white space at its head. *)
Fixpoint trimStart (s : string) : string :=
  match s with
  | EmptyString => EmptyString
  | String c r =>
      if isWhiteSpace c then trimStart r
      else
        match r with
        | EmptyString => s
        | String d r2 =>
            if isWhiteSpace2 c d then trimStart r2
            else
              match r2 with
              | EmptyString => s
              | String e r3 => if isWhiteSpace3 c d e then trimStart r3 else s
              end
        end
  end.

(** [Number.parseInt(s, radix)] for a radix of 10 or 16; [None] is [NaN].
    Leading white space is skipped, a sign is read, for radix 16 a prefix
    [0x] or [0X] is removed, and the longest run of digits is the value,
    as the double nearest to it (ties to even), which is what V8 returns
    for numerals of any length. *)
Definition parseInt (s : string) (radix : Z) : option Z :=
  let s1 := trimStart s in
  let '(sign, s2) :=
    match s1 with
    | String c r =>
        if code c =? 45 then (-1, r)
        else if code c =? 43 then (1, r)
        else (1, s1)
    | EmptyString => (1, s1)
    end in
  let s3 :=
    if radix =? 16 then
      match s2 with
      | String a (String b r) =>
          if (code a =? 48) && ((code b =? 120) || (code b =? 88)) then r else s2
      | _ => s2
      end
    else s2 in
  match leadingDigits radix s3 with
  | [] => None
  | ds => Some (toNumber (sign * digitsValue radix ds))
  end.

End Js.

Import Js.

(** ** Raw logs and the stable log index *)

(** A topic is a 32-byte word, as the provider delivers it. *)
Definition topic : Type := Z.

(** The fields of a provider log that the scanner reads.  The block number
    is an integer, as the provider formats it and as the [INTEGER NOT NULL]
    column of the store takes it. *)
Record rawlog : Type := mkLog {
  lg_index : jsval;                     (* lg.index *)
  lg_logIndex : jsval;                  (* lg.logIndex *)
  lg_blockNumber : Z;                   (* lg.blockNumber *)
  lg_transactionHash : option string;   (* lg.transactionHash; None is undefined or null *)
  lg_topics : option (list topic)       (* lg.topics; None is undefined or null *)
}.

(** The test [Number.isInteger(v) && v >= 0], with the integer it accepts. *)
Definition nonNegInteger (v : jsval) : option Z :=
  if Number_isInteger v then
    match v with
    | JInt n => if 0 <=? n then Some n else None
    | _ => None
    end
  else None.

(** [getStableLogIndex(lg)]; [None] is [null].  A number that [parseInt]
    returns is an integer unless it is [NaN] or an infinity. *)
Definition getStableLogIndex (lg : rawlog) : option Z :=
  match nonNegInteger (lg_index lg) with
  | Some i => Some i
  | None =>
      let li := lg_logIndex lg in
      match (if typeof_number li then nonNegInteger li else None) with
      | Some n => Some n
      | None =>
          match li with
          | JString str =>
              let n := if startsWith "0x" str then parseInt str 16
                       else parseInt str 10 in
              match n with
              | Some n =>
                  if Number_isFinite n && (0 <=? n) then Some n else None
              | None => None
              end
          | _ => None
          end
      end
  end.

(** ** Provider errors and their classification *)

(** A rejection of a provider call; the fetcher reads its [message] only. *)
Record jserror : Type := mkError { message : string }.

(** A match of [/retry in\s+(\d+)\s*s/i] that starts at the head of [s]:
    the digits of the capture group.  Each quantifier is greedy and what may
    follow it cannot start with a character the quantifier accepts, so the
    greedy choice is the only one that can match. *)
Definition matchRetryIn (s : string) : option (list Z) :=
  if startsWith "retry in" (toLowerCase s) then
    let r := String.substring 8 (String.length s - 8) s in
    let r1 := trimStart r in
    if (String.length r1 <? String.length r)%nat then
      match leadingDigits 10 r1 with
      | [] => None
      | ds =>
          let r2 := String.substring (List.length ds)
                      (String.length r1 - List.length ds) r1 in
          match trimStart r2 with
          | String e _ => if code (lowerChar e) =? 115 then Some ds else None
          | EmptyString => None
          end
      end
    else None
  else None.

(** [msg.match(/retry in\s+(\d+)\s*s/i)]: the leftmost match. *)
Fixpoint searchRetryIn (s : string) : option (list Z) :=
  match matchRetryIn s with
  | Some ds => Some ds
  | None =>
      match s with
      | EmptyString => None
      | String _ r => searchRetryIn r
      end
  end.

(** [parseRetryAfterMs(err)]; [None] is [null].  [Number(m[1])] is the
    double that holds the digits and [sec * 1000] the product rounded, which
    is [Infinity] for seconds from about 1.8e305 on. *)
Definition parseRetryAfterMs (err : jserror) : option Z :=
  let msg := message err in
  match searchRetryIn msg with
  | None => None
  | Some m1 =>
      let sec := toNumber (digitsValue 10 m1) in
      if Number_isFinite sec && (0 <? sec) then Some (toNumber (sec * 1000))
      else None
  end.

(** [isRateLimitError(err)] *)
Definition isRateLimitError (err : jserror) : bool :=
  let msg := toLowerCase (message err) in
  includes "rate limit" msg || includes "too many requests" msg
  || includes "-32090" msg.

(** ** The provider *)

(** How a promise settles. *)
Inductive settled (A : Type) : Type :=
| Resolved (a : A)
| Rejected (e : jserror).
Arguments Resolved {A} a.
Arguments Rejected {A} e.

Record block : Type := mkBlock { blk_timestamp : jsval }.

(** The event source during one run of one scan target: the head block, the
    answer to the [k]-th [getLogs] request for a block range, and the answer
    to [getBlock] for a block number ([None] is [null]). *)
Record provider : Type := mkProvider {
  getBlockNumber : settled Z;
  getLogs : Z -> Z -> Z -> settled (list rawlog);
  getBlock : Z -> settled (option block)
}.

(** What a run does to the outside, in order. *)
Inductive io : Type :=
| IoGetBlockNumber
| IoGetLogs (fromBlock toBlock attempt : Z)
| IoSleep (ms : Z)
| IoGetBlock (bn : Z)
| IoTransaction (inserts : nat).

(** ** The log fetcher *)

(** [{ ok: true, logs }] or [{ ok: false, error }]. *)
Inductive fetched : Type :=
| FetchOk (logs : list rawlog)
| FetchFailed (error : jserror).

Definition exhausted : jserror := mkError "exhausted retries".

(** The loop of [getLogsWithRetry].  [remaining] is [maxAttempts - attempt],
    so that [attempt < maxAttempts] holds exactly when [remaining] is not
    zero. *)
Fixpoint retryLoop (p : provider) (fromBlock toBlock maxAttempts : Z)
    (remaining : nat) (attempt backoffMs : Z) : fetched * list io :=
  match remaining with
  | O => (FetchFailed exhausted, [])
  | S remaining' =>
      let attempt := attempt + 1 in
      match getLogs p fromBlock toBlock attempt with
      | Resolved logs => (FetchOk logs, [IoGetLogs fromBlock toBlock attempt])
      | Rejected err =>
          let retryAfter := parseRetryAfterMs err in
          let shouldRetry :=
            isRateLimitError err || bool_decide (retryAfter <> None) in
          if negb shouldRetry || (maxAttempts <=? attempt)
          then (FetchFailed err, [IoGetLogs fromBlock toBlock attempt])
          else
            let '(res, tr) :=
              retryLoop p fromBlock toBlock maxAttempts remaining' attempt
                (Z.min (backoffMs * 2) 10000) in
            (res, IoGetLogs fromBlock toBlock attempt
                  :: IoSleep (default backoffMs retryAfter) :: tr)
      end
  end.

(** [getLogsWithRetry(provider, filter, { maxAttempts = 6 } = {})] *)
Definition getLogsWithRetry (p : provider) (fromBlock toBlock : Z)
    (options : option Z) : fetched * list io :=
  let maxAttempts := default 6 options in
  retryLoop p fromBlock toBlock maxAttempts (Z.to_nat maxAttempts) 0 750.

(** ** The timestamp resolver *)

(** The first loop of [resolveBlockTimestamps]: the block numbers of the
    batch, each once, in order of first appearance. *)
Fixpoint uniqueBlocks (logs : list rawlog) (seen : gset Z) : list Z :=
  match logs with
  | [] => []
  | lg :: rest =>
      let bn := lg_blockNumber lg in
      if negb (Number_isInteger (JInt bn)) then uniqueBlocks rest seen
      else if bool_decide (bn ∈ seen) then uniqueBlocks rest seen
      else bn :: uniqueBlocks rest ({[bn]} ∪ seen)
  end.

(** What one lookup adds to the map. *)
Definition recordTimestamp (bn : Z) (blk : option block) (map : gmap Z Z)
    : gmap Z Z :=
  match blk with
  | Some b =>
      match blk_timestamp b with
      | JInt ts => <[bn := ts]> map
      | _ => map
      end
  | None => map
  end.

(** [Promise.all] over the lookups: the map when every lookup resolves, the
    rejection of a lookup otherwise (here of the first in the list; which
    one JavaScript reports depends on the order in which they settle). *)
Fixpoint awaitLookups (p : provider) (bns : list Z) (map : gmap Z Z)
    : settled (gmap Z Z) :=
  match bns with
  | [] => Resolved map
  | bn :: rest =>
      match getBlock p bn with
      | Rejected e => Rejected e
      | Resolved blk => awaitLookups p rest (recordTimestamp bn blk map)
      end
  end.

(** [resolveBlockTimestamps(provider, logs)].  Every lookup is started
    before any is awaited. *)
Definition resolveBlockTimestamps (p : provider) (logs : list rawlog)
    : settled (gmap Z Z) * list io :=
  let blocks := uniqueBlocks logs ∅ in
  (awaitLookups p blocks ∅, map IoGetBlock blocks).

(** ** The event decoder of the transfer scan *)

(** An address is the 20-byte number that [addressFromTopic] cuts out of a
    topic; a token id is the number [tokenIdFromTopic] prints in decimal. *)
Definition addressFromTopic (t : topic) : Z := t mod 2 ^ 160.

Definition tokenIdFromTopic (t : topic) : Z := t.

Definition BURN_ADDRS : list Z := [0; 0xdead].

Definition isBurn (addrLower : Z) : bool := bool_decide (addrLower ∈ BURN_ADDRS).

Record transferEvent : Type := mkEvent {
  ev_blockNumber : Z;
  ev_blockTimestamp : option Z;
  ev_txHash : string;
  ev_logIndex : Z;
  ev_fromLower : Z;
  ev_toLower : Z;
  ev_tokenId : Z;
  ev_isBurned : bool
}.

(** The body of the decoding loop for one log; [None] is [continue]. *)
Definition decodeTransfer (blockTsMap : gmap Z Z) (lg : rawlog)
    : option transferEvent :=
  match lg_topics lg with
  | None => None
  | Some topics =>
      if (Z.of_nat (length topics) <? 4) then None else
      match getStableLogIndex lg with
      | None => None
      | Some li =>
          match lg_transactionHash lg with
          | None | Some EmptyString => None
          | Some txHash =>
              let from := addressFromTopic (nth 1 topics 0) in
              let to := addressFromTopic (nth 2 topics 0) in
              let tokenId := tokenIdFromTopic (nth 3 topics 0) in
              let burned := isBurn to in
              Some {| ev_blockNumber := lg_blockNumber lg;
                      ev_blockTimestamp := blockTsMap !! lg_blockNumber lg;
                      ev_txHash := txHash;
                      ev_logIndex := li;
                      ev_fromLower := from;
                      ev_toLower := to;
                      ev_tokenId := tokenId;
                      ev_isBurned := burned |}
          end
      end
  end.

(** The decoding loop: the events of the logs it keeps, in order. *)
Fixpoint decodeTransfers (blockTsMap : gmap Z Z) (logs : list rawlog)
    : list transferEvent :=
  match logs with
  | [] => []
  | lg :: rest =>
      match decodeTransfer blockTsMap lg with
      | Some e => e :: decodeTransfers blockTsMap rest
      | None => decodeTransfers blockTsMap rest
      end
  end.

(** ** The store *)

Record cursorRow : Type := mkCursor {
  start_block : Z;
  last_scanned_block : Z;
  updated_at : Z
}.

Record transferRow : Type := mkRow {
  id : Z;
  contract_key : string;
  block_number : Z;
  block_timestamp : option Z;
  tx_hash : string;
  log_index : Z;
  from_addr : Z;
  to_addr : Z;
  token_id : Z;
  is_burned : Z;
  created_at : Z
}.

(** The tables the transfer scan touches.  [scan_cursors] has
    [cursor_key] as primary key; [loan_nft_transfers] is unique on
    [(contract_key, tx_hash, log_index)] and numbers its rows from
    [transfers_seq], the last row id given out. *)
Record database : Type := mkDb {
  scan_cursors : gmap string cursorRow;
  loan_nft_transfers : list transferRow;
  transfers_seq : Z
}.

Definition rowKey (r : transferRow) : string * string * Z :=
  (contract_key r, tx_hash r, log_index r).

Definition maxRowId (rows : list transferRow) : Z :=
  fold_right (fun r m => Z.max (id r) m) 0 rows.

(** [INSERT INTO scan_cursors ... VALUES (?, ?, 0)
     ON CONFLICT(cursor_key) DO NOTHING] *)
Definition ensureCursor (now : Z) (cursorKey : string) (startBlock : Z)
    (db : database) : database :=
  match scan_cursors db !! cursorKey with
  | Some _ => db
  | None =>
      mkDb (<[cursorKey := mkCursor startBlock 0 now]> (scan_cursors db))
           (loan_nft_transfers db) (transfers_seq db)
  end.

(** [UPDATE scan_cursors SET last_scanned_block = ?, updated_at = ...
     WHERE cursor_key = ?] *)
Definition updateCursor (now : Z) (cursorKey : string) (lastBlock : Z)
    (db : database) : database :=
  match scan_cursors db !! cursorKey with
  | Some c =>
      mkDb (<[cursorKey := mkCursor (start_block c) lastBlock now]> (scan_cursors db))
           (loan_nft_transfers db) (transfers_seq db)
  | None => db
  end.

(** [insertTransfer.run(contract.key, e.blockNumber, ...)]:
    [INSERT INTO loan_nft_transfers ... ON CONFLICT(contract_key, tx_hash,
    log_index) DO NOTHING].  The [AUTOINCREMENT] row id is taken before the
    conflict is found, so an insert that is ignored uses one up. *)
Definition insertTransfer (now : Z) (key : string) (e : transferEvent)
    (db : database) : database :=
  let rows := loan_nft_transfers db in
  let rowid := Z.max (transfers_seq db) (maxRowId rows) + 1 in
  if bool_decide ((key, ev_txHash e, ev_logIndex e) ∈ map rowKey rows)
  then mkDb (scan_cursors db) rows rowid
  else
    mkDb (scan_cursors db)
         (rows ++ [ {| id := rowid;
                       contract_key := key;
                       block_number := ev_blockNumber e;
                       block_timestamp := ev_blockTimestamp e;
                       tx_hash := ev_txHash e;
                       log_index := ev_logIndex e;
                       from_addr := ev_fromLower e;
                       to_addr := ev_toLower e;
                       token_id := ev_tokenId e;
                       is_burned := if ev_isBurned e then 1 else 0;
                       created_at := now |} ])
         rowid.

(** The body of the transaction: one insert per event, in order. *)
Fixpoint insertAll (now : Z) (key : string) (items : list transferEvent)
    (db : database) : database :=
  match items with
  | [] => db
  | e :: rest => insertAll now key rest (insertTransfer now key e db)
  end.

(** ** Computations over the store *)

(** How a computation ends: it returns, it throws, or the loop it runs is
    still going when the fuel is spent. *)
Inductive outcome (A : Type) : Type :=
| Returned (a : A)
| Thrown (e : jserror)
| Diverges.
Arguments Returned {A} a.
Arguments Thrown {A} e.
Arguments Diverges {A}.

(** A computation reads and writes the store and appends to the trace. *)
Definition M (A : Type) : Type := database -> outcome A * database * list io.

Definition ret {A} (a : A) : M A := fun db => (Returned a, db, []).

Definition bind {A B} (m : M A) (f : A -> M B) : M B :=
  fun db =>
    match m db with
    | (Returned a, db1, t1) =>
        let '(o, db2, t2) := f a db1 in (o, db2, t1 ++ t2)
    | (Thrown e, db1, t1) => (Thrown e, db1, t1)
    | (Diverges, db1, t1) => (Diverges, db1, t1)
    end.

Notation "'let*' x := m 'in' k" := (bind m (fun x => k))
  (at level 10, x name, m at level 100, k at level 200).
Notation "'do' m 'then' k" := (bind m (fun _ => k))
  (at level 10, m at level 100, k at level 200).

Definition throw {A} (e : jserror) : M A := fun db => (Thrown e, db, []).
Definition diverge {A} : M A := fun db => (Diverges, db, []).
Definition emit (tr : list io) : M unit := fun db => (Returned tt, db, tr).
Definition modify (f : database -> database) : M unit :=
  fun db => (Returned tt, f db, []).
Definition getDb : M database := fun db => (Returned db, db, []).

(** [await] of a promise whose effects are [tr]. *)
Definition await {A} (r : settled A) (tr : list io) : M A :=
  fun db =>
    match r with
    | Resolved a => (Returned a, db, tr)
    | Rejected e => (Thrown e, db, tr)
    end.

Definition sleep (ms : Z) : M unit := emit [IoSleep ms].

(** [db.transaction(fn)(items)] for the insert loop of the scan. *)
Definition transaction (now : Z) (key : string) (items : list transferEvent)
    : M unit :=
  fun db => (Returned tt, insertAll now key items db,
             [IoTransaction (length items)]).

(** ** The transfer scan *)

Record config : Type := mkConfig {
  FLR_SCAN_BLOCKS : Z;
  FLR_PAUSE_MS : Z;
  OVERLAP_BLOCKS : Z
}.

Definition readNullError : jserror :=
  mkError "Cannot read properties of undefined".

Section Scan.

Variable cfg : config.
Variable now : Z.
Variable p : provider.
Variable key : string.

(** What the loop of [scanLoanNftTransfers] does with the logs of one
    window, from the timestamp lookups to the pause. *)
Definition commitWindow (logs : list rawlog) : M unit :=
  let* blockTsMap :=
    (let '(r, tr) := resolveBlockTimestamps p logs in await r tr) in
  let events := decodeTransfers blockTsMap logs in
  do (if bool_decide (events <> []) then transaction now key events else ret tt)
  then
  if 0 <? FLR_PAUSE_MS cfg then sleep (FLR_PAUSE_MS cfg) else ret tt.

(** [await getLogsWithRetry(provider, { fromBlock: b, toBlock, ... })]: the
    fetcher never throws and leaves the store alone. *)
Definition callFetcher (b toBlock : Z) : M fetched :=
  fun db =>
    let '(r, tr) := getLogsWithRetry p b toBlock None in (Returned r, db, tr).

(** [for (let b = fromBlock; b <= latestBlock; b += FLR_SCAN_BLOCKS + 1)]
    with the running [lastGoodBlock]; the loop returns [lastGoodBlock]. *)
Fixpoint windowLoop (fuel : nat) (latestBlock b lastGoodBlock : Z) : M Z :=
  match fuel with
  | O => diverge
  | S fuel' =>
      if b <=? latestBlock then
        let toBlock := Z.min (b + FLR_SCAN_BLOCKS cfg) latestBlock in
        let* res := callFetcher b toBlock in
        match res with
        | FetchFailed _ => ret lastGoodBlock
        | FetchOk logs =>
            do commitWindow logs then
            windowLoop fuel' latestBlock (b + (FLR_SCAN_BLOCKS cfg + 1)) toBlock
        end
      else ret lastGoodBlock
  end.

(** Line 182: where the scan resumes. *)
Definition resumeBlock (startBlock lastScanned : Z) : Z :=
  if 0 <? lastScanned
  then Z.max startBlock (lastScanned - OVERLAP_BLOCKS cfg)
  else startBlock.

Definition cursorKeyOf : string := ("loan_nft:" ++ key ++ ":transfer")%string.

(** [scanLoanNftTransfers(db, provider, contract)] *)
Definition scanLoanNftTransfers (fuel : nat) (default_start_block : Z) : M unit :=
  let cursorKey := cursorKeyOf in
  do modify (ensureCursor now cursorKey default_start_block) then
  let* db := getDb in
  match scan_cursors db !! cursorKey with
  | None => throw readNullError
  | Some cursor =>
      let startBlock := start_block cursor in
      let lastScanned := last_scanned_block cursor in
      let* latestBlock := await (getBlockNumber p) [IoGetBlockNumber] in
      let fromBlock := resumeBlock startBlock lastScanned in
      if latestBlock <? fromBlock then ret tt else
      let* lastGoodBlock := windowLoop fuel latestBlock fromBlock (fromBlock - 1) in
      if fromBlock <=? lastGoodBlock
      then modify (updateCursor now cursorKey lastGoodBlock)
      else ret tt
  end.

End Scan.

(** ** What a run amounts to, window by window *)

(** A window [(from_block, to_block)]. *)
Definition window : Type := (Z * Z)%type.

Section Windows.

Variable cfg : config.
Variable now : Z.
Variable p : provider.
Variable key : string.

(** The body of the window loop over a given list of windows. *)
Fixpoint runWindows (ws : list window) (lastGoodBlock : Z) : M Z :=
  match ws with
  | [] => ret lastGoodBlock
  | w :: rest =>
      let* res := callFetcher p (fst w) (snd w) in
      match res with
      | FetchFailed _ => ret lastGoodBlock
      | FetchOk logs =>
          do commitWindow cfg now p key logs then
          runWindows rest (snd w)
      end
  end.

(** The fetch of the window succeeds. *)
Definition fetchOk (w : window) : Prop :=
  exists logs, fst (getLogsWithRetry p (fst w) (snd w) None) = FetchOk logs.

(** The fetch of the window fails. *)
Definition fetchFails (w : window) : Prop :=
  exists err, fst (getLogsWithRetry p (fst w) (snd w) None) = FetchFailed err.

(** The logs of the window, when its fetch succeeds. *)
Definition logsOf (w : window) : list rawlog :=
  match fst (getLogsWithRetry p (fst w) (snd w) None) with
  | FetchOk logs => logs
  | FetchFailed _ => []
  end.

(** The timestamps of a batch, when every lookup resolves. *)
Definition timestampsOf (logs : list rawlog) : gmap Z Z :=
  match fst (resolveBlockTimestamps p logs) with
  | Resolved m => m
  | Rejected _ => ∅
  end.

(** Every lookup of the batch resolves. *)
Definition lookupsResolve (logs : list rawlog) : Prop :=
  forall bn, bn ∈ uniqueBlocks logs ∅ -> exists blk, getBlock p bn = Resolved blk.

(** The window goes through: its fetch succeeds and the lookups for its
    logs resolve. *)
Definition windowOk (w : window) : Prop :=
  fetchOk w /\ lookupsResolve (logsOf w).

Definition eventsOf (w : window) : list transferEvent :=
  decodeTransfers (timestampsOf (logsOf w)) (logsOf w).

(** What a window that goes through does to the outside. *)
Definition windowTrace (w : window) : list io :=
  (snd (getLogsWithRetry p (fst w) (snd w) None)
   ++ map IoGetBlock (uniqueBlocks (logsOf w) ∅)
   ++ (if bool_decide (eventsOf w <> []) then [IoTransaction (length (eventsOf w))]
       else [])
   ++ (if 0 <? FLR_PAUSE_MS cfg then [IoSleep (FLR_PAUSE_MS cfg)] else []))%list.

(** The store after the windows have gone through. *)
Definition commitWindows (ws : list window) (db : database) : database :=
  fold_left (fun d w => insertAll now key (eventsOf w) d) ws db.

(** The last block of the last window, or the given block when there is no
    window. *)
Definition lastBlockOf (ws : list window) (b : Z) : Z :=
  fold_left (fun _ w => snd w) ws b.

End Windows.

(** ** Numerals, to state what [parseInt] reads *)

Module Numeral.

(** The character of a digit below 36, lower case. *)
Definition digitChar (d : Z) : ascii :=
  ascii_of_N (Z.to_N (if d <? 10 then 48 + d else 87 + d)).

(** The digits of [n] in the radix, most significant first. *)
Fixpoint digitsOf (fuel : nat) (radix n : Z) : list Z :=
  match fuel with
  | O => []
  | S fuel' =>
      if n <? radix then [n]
      else (digitsOf fuel' radix (n / radix) ++ [n mod radix])%list
  end.

Definition render (ds : list Z) : string :=
  fold_right (fun d s => String (digitChar d) s) EmptyString ds.

(** The decimal numeral of a natural number, as [String(n)] prints it. *)
Definition toDecimal (n : Z) : string := render (digitsOf (S (Z.to_nat n)) 10 n).

(** Its hexadecimal numeral with the prefix [0x]. *)
Definition toHex (n : Z) : string :=
  String "0" (String "x" (render (digitsOf (S (Z.to_nat n)) 16 n))).

End Numeral.

(** ** The window schedule *)

(** The windows from [b] on cover the blocks up to [latestBlock] one after
    the other. *)
Inductive tiling (scanBlocks latestBlock : Z) : Z -> list window -> Prop :=
| tiling_done (b : Z) :
    latestBlock < b -> tiling scanBlocks latestBlock b []
| tiling_step (b : Z) (ws : list window) :
    b <= latestBlock ->
    tiling scanBlocks latestBlock (b + (scanBlocks + 1)) ws ->
    tiling scanBlocks latestBlock b
      ((b, Z.min (b + scanBlocks) latestBlock) :: ws).

(** The header of the window loop with the computation of [toBlock]: the
    windows the loop goes through when no fetch makes it stop.  [None] when
    the loop is still going after [fuel] rounds. *)
Fixpoint scheduleWindows (fuel : nat) (scanBlocks latestBlock b : Z)
    : option (list window) :=
  match fuel with
  | O => None
  | S fuel' =>
      if b <=? latestBlock then
        let toBlock := Z.min (b + scanBlocks) latestBlock in
        match scheduleWindows fuel' scanBlocks latestBlock (b + (scanBlocks + 1)) with
        | Some ws => Some ((b, toBlock) :: ws)
        | None => None
        end
      else Some []
  end.

(** Rounds that are enough for the loop from [b] to end when the window size
    is not negative. *)
Definition enoughFuel (latestBlock b : Z) : nat :=
  S (Z.to_nat (latestBlock - b + 1)).

(** ** Reading a trace *)

(** The block ranges whose logs were requested, in order. *)
Fixpoint requestedWindows (tr : list io) : list window :=
  match tr with
  | [] => []
  | IoGetLogs b t k :: rest =>
      if k =? 1 then (b, t) :: requestedWindows rest else requestedWindows rest
  | _ :: rest => requestedWindows rest
  end.

Definition isGetLogs (e : io) : bool :=
  match e with IoGetLogs _ _ _ => true | _ => false end.

Definition isTransaction (e : io) : bool :=
  match e with IoTransaction _ => true | _ => false end.

(** The delays slept, in order. *)
Fixpoint sleeps (tr : list io) : list Z :=
  match tr with
  | [] => []
  | IoSleep ms :: rest => ms :: sleeps rest
  | _ :: rest => sleeps rest
  end.

(** The stored position of a cursor. *)
Definition lastScanned (db : database) (cursorKey : string) : option Z :=
  last_scanned_block <$> scan_cursors db !! cursorKey.

(** ** The specification's words *)

(** A transfer log is malformed when its topics are missing or fewer than the
    four of a transfer, when it has no usable log index, or when it has no
    transaction hash. *)
Definition malformed (lg : rawlog) : bool :=
  match lg_topics lg with
  | None => true
  | Some topics => (length topics <? 4)%nat
  end
  || bool_decide (getStableLogIndex lg = None)
  || match lg_transactionHash lg with
     | None | Some EmptyString => true
     | Some _ => false
     end.

(** The computed backoff before retry [k + 1]: the base delay doubled [k - 1]
    times, capped. *)
Definition backoffDelay (k : Z) : Z := Z.min (750 * 2 ^ (k - 1)) 10000.

(** What the fetcher does when attempts [1] to [maxAttempts] are each
    rejected with the retryable error [errs k]: a request, then for each
    failure but the last a wait for the hint of the error or else for the
    computed backoff, and the next request. *)
Definition retryWait (errs : Z -> jserror) (k : Z) : Z :=
  default (backoffDelay k) (parseRetryAfterMs (errs k)).

Definition retrySchedule (fromBlock toBlock : Z) (errs : Z -> jserror)
    (first : Z) (rounds : nat) (maxAttempts : Z) : list io :=
  (flat_map (fun k => [IoGetLogs fromBlock toBlock k; IoSleep (retryWait errs k)])
     (seqZ first (Z.of_nat rounds))
   ++ [IoGetLogs fromBlock toBlock maxAttempts])%list.

(** An error the fetcher retries after. *)
Definition retryable (err : jserror) : bool :=
  isRateLimitError err || bool_decide (parseRetryAfterMs err <> None).

(** ** The uniqueness key of an event *)

(** The triple [(scan-target key, tx_hash, log_index)] under which an event
    is stored. *)
Definition eventKey (key : string) (e : transferEvent) : string * string * Z :=
  (key, ev_txHash e, ev_logIndex e).

(** The rows stored under a triple. *)
Definition rowsWithKey (k : string * string * Z) (db : database)
    : list transferRow :=
  filter (fun r => rowKey r = k) (loan_nft_transfers db).

(** The keys of the table are pairwise different. *)
Definition uniqueKeys (db : database) : Prop :=
  NoDup (map rowKey (loan_nft_transfers db)).

(** The three windows of the resume scenario. *)
Definition scenarioWindows : list window :=
  [(995, 1494); (1495, 1994); (1995, 2000)].

(** ** Sequences of runs *)

(** One run of the scan of a target: its settings, its clock, what the
    provider answers during it, and the rounds its loop is given. *)
Record run : Type := mkRun {
  run_cfg : config;
  run_now : Z;
  run_provider : provider;
  run_fuel : nat
}.

Section Runs.

Variable key : string.
Variable default_start_block : Z.

(** The cursor row a run reads after [ensureCursor]. *)
Definition cursorRead (r : run) (db : database) : option cursorRow :=
  scan_cursors (ensureCursor (run_now r) (cursorKeyOf key) default_start_block db)
    !! cursorKeyOf key.

(** The store a run leaves. *)
Definition storeAfter (r : run) (db : database) : database :=
  snd (fst (scanLoanNftTransfers (run_cfg r) (run_now r) (run_provider r) key
              (run_fuel r) default_start_block db)).

Definition storeAfterRuns (rs : list run) (db : database) : database :=
  fold_left (fun d r => storeAfter r d) rs db.

(** A run under which the cursor cannot fall back: the window size and the
    start block are not negative, the head block is not below the position
    read, and the overlap is within the window size or every fetch succeeds. *)
Definition steadyRun (r : run) (db : database) : Prop :=
  0 <= FLR_SCAN_BLOCKS (run_cfg r)
  /\ (forall c, cursorRead r db = Some c ->
        0 <= start_block c
        /\ forall head, getBlockNumber (run_provider r) = Resolved head ->
             last_scanned_block c <= head)
  /\ (OVERLAP_BLOCKS (run_cfg r) <= FLR_SCAN_BLOCKS (run_cfg r)
      \/ forall w, fetchOk (run_provider r) w).

Fixpoint steadyRuns (rs : list run) (db : database) : Prop :=
  match rs with
  | [] => True
  | r :: rest => steadyRun r db /\ steadyRuns rest (storeAfter r db)
  end.

End Runs.

(** ** Concrete providers, logs, stores and runs *)

Module Examples.

(** A transfer log that decodes, with its index in the provider's field. *)
Definition transferLog (bn i : Z) : rawlog :=
  mkLog (JInt i) JUndefined bn (Some "0xaa") (Some [7; 1; 2; 3]).

(** The same log with its index in the secondary field, as text. *)
Definition legacyLog (bn : Z) (li : string) : rawlog :=
  mkLog JUndefined (JString li) bn (Some "0xbb") (Some [7; 1; 0xdead; 9]).

Definition shortTopicsLog : rawlog :=
  mkLog (JInt 4) JUndefined 12 (Some "0xcc") (Some [7; 1; 2]).

Definition noIndexLog : rawlog :=
  mkLog (JInt (-1)) (JString "x1") 12 (Some "0xcc") (Some [7; 1; 2; 3]).

(** Ten logs, two of them malformed. *)
Definition batchOfTen : list rawlog :=
  [ transferLog 10 0; transferLog 10 1; shortTopicsLog; legacyLog 11 "0x1f";
    legacyLog 11 "32"; transferLog 12 0; noIndexLog; transferLog 12 1;
    transferLog 13 0; transferLog 13 5 ].

(** A provider that throttles every request for logs, once with a hint. *)
Definition throttled : provider :=
  mkProvider (Resolved 10)
    (fun _ _ k =>
       Rejected (mkError (if k =? 2 then "Too Many Requests, retry in 2s"
                          else "Rate limit exceeded")))
    (fun _ => Resolved None).

Definition throttledErrors (k : Z) : jserror :=
  mkError (if k =? 2 then "Too Many Requests, retry in 2s"
           else "Rate limit exceeded").

(** A provider that refuses the filter. *)
Definition refusing : provider :=
  mkProvider (Resolved 10)
    (fun _ _ _ => Rejected (mkError "invalid block range"))
    (fun _ => Resolved None).

Definition emptyStore : database := mkDb ∅ [] 0.

Definition transferA : transferEvent := mkEvent 10 (Some 1700) "0xaa" 0 1 2 3 false.

(** The event of the same log, fetched again with no timestamp. *)
Definition transferA' : transferEvent := mkEvent 10 None "0xaa" 0 1 2 3 false.

Definition transferB : transferEvent := mkEvent 10 (Some 1700) "0xaa" 1 2 57005 3 true.

(** A store whose cursor for target [k] stands at block 1000. *)
Definition storeAt1000 : database :=
  mkDb {[ cursorKeyOf "k" := mkCursor 0 1000 7 ]} [] 0.

(** A provider with the given head whose every request succeeds with no log. *)
Definition quiet (head : Z) : provider :=
  mkProvider (Resolved head) (fun _ _ _ => Resolved []) (fun _ => Resolved None).

(** A provider with the given head that refuses the range from block [b0]. *)
Definition failingAt (head b0 : Z) : provider :=
  mkProvider (Resolved head)
    (fun b _ _ => if b =? b0 then Rejected (mkError "invalid block range")
                  else Resolved [])
    (fun _ => Resolved None).

Definition failingAt997 : provider := failingAt 2000 997.

(** A run that sees the head at 997, below the cursor. *)
Definition behindRun : run := mkRun (mkConfig 499 0 5) 8 (quiet 997) 10.

(** A run with windows of two blocks whose second fetch fails. *)
Definition truncatedRun : run := mkRun (mkConfig 1 0 5) 8 failingAt997 1100.

(** A run of the resume scenario. *)
Definition scenarioRun : run :=
  mkRun (mkConfig 499 0 5) 8 (quiet 2000) (enoughFuel 2000 995).

(** A provider whose logs hold one transfer at block 12 and whose block
    lookups are rejected. *)
Definition lookupRejected : provider :=
  mkProvider (Resolved 20)
    (fun _ _ _ => Resolved [transferLog 12 0])
    (fun _ => Rejected (mkError "timeout")).


(** A log at block 1500 with three topics only. *)
Definition shortLogAt1500 : rawlog :=
  mkLog (JInt 4) JUndefined 1500 (Some "0xcc") (Some [7; 1; 2]).

(** A provider with the head at 2000 that has no log from block 995 on, the
    short log in every other range, and whose block lookups are rejected. *)
Definition shortLogRejected : provider :=
  mkProvider (Resolved 2000)
    (fun b _ _ => if b =? 995 then Resolved [] else Resolved [shortLogAt1500])
    (fun _ => Rejected (mkError "timeout")).

(** A run with windows of three blocks up to block 1003 whose second fetch
    fails. *)
Definition stoppedRun : run := mkRun (mkConfig 2 0 5) 8 (failingAt 1003 998) 20.

(** A later run that finds the head at 2600. *)
Definition laterRun : run := mkRun (mkConfig 499 0 5) 9 (quiet 2600) 700.

End Examples.

(** * Further definitions

    ** The window counter of the log lines *)

(** [Math.ceil(a / b)] for integers [a] and [b <> 0]: the exact quotient
    rounded up, which is what JavaScript computes below 2^53. *)
Definition ceilDiv (a b : Z) : Z := - ((- a) / b).

(** [scanWindowCount(fromBlock, latestBlock, maxBlocks)] *)
Definition scanWindowCount (fromBlock latestBlock maxBlocks : Z) : Z :=
  ceilDiv (latestBlock - fromBlock + 1) (maxBlocks + 1).

(** [Math.floor((b - fromBlock) / (FLR_SCAN_BLOCKS + 1)) + 1], the window
    index of the trove-event and stability-pool loops. *)
Definition windowIndexOf (fromBlock scanBlocks b : Z) : Z :=
  (b - fromBlock) / (scanBlocks + 1) + 1.

(** ** The shape of a fetch *)

(** Requests numbered from [first], each but the last followed by its
    wait. *)
Fixpoint fetchTrace (fromBlock toBlock first : Z) (waits : list Z) : list io :=
  match waits with
  | [] => [IoGetLogs fromBlock toBlock first]
  | w :: rest =>
      IoGetLogs fromBlock toBlock first :: IoSleep w
      :: fetchTrace fromBlock toBlock (first + 1) rest
  end.

(** ** Reading the requests of a trace *)

(** The number of [provider.getLogs] calls, retries included. *)
Definition getLogsCalls (tr : list io) : nat :=
  length (filter (fun e => isGetLogs e = true) tr).

(** Every [provider.getLogs] call of the trace asks for one of the windows
    and is one of the six attempts of its fetch. *)
Definition callsWithin (ws : list window) (tr : list io) : Prop :=
  Forall (fun e => match e with
                   | IoGetLogs b t k => (b, t) ∈ ws /\ 1 <= k <= 6
                   | _ => True
                   end) tr.

(** ** The transfer scans of a pass *)

(** An entry of [loan_contracts.json], as far as the scan reads it. *)
Record contract : Type := mkContract {
  ct_key : string;
  ct_default_start_block : Z
}.

(** The cursor key of [scanTroveManagerEvents], kept in the same table as
    the cursors of the transfer scan. *)
Definition troveCursorKeyOf (key : string) : string :=
  ("trove_manager:" ++ key ++ ":events")%string.

(** The first loop of [main]:
    [for (const c of contracts) await scanLoanNftTransfers(db, provider, c)].
    Each scan comes with its run: the clock and what the provider answers
    while it lasts.  A scan that throws ends the loop. *)
Fixpoint scanTransfersOf (items : list (contract * run)) : M unit :=
  match items with
  | [] => ret tt
  | (c, r) :: rest =>
      do scanLoanNftTransfers (run_cfg r) (run_now r) (run_provider r)
           (ct_key c) (run_fuel r) (ct_default_start_block c)
      then scanTransfersOf rest
  end.

(** ** A provider that serves a chain *)

(** The log lies in the window. *)
Definition inWindow (w : window) (lg : rawlog) : bool :=
  (fst w <=? lg_blockNumber lg) && (lg_blockNumber lg <=? snd w).

(** The provider answers the first request for a range with the logs of the
    chain in that range, and its block lookups resolve. *)
Definition serves (chain : list rawlog) (p : provider) : Prop :=
  (forall b t,
     getLogs p b t 1
     = Resolved (filter (fun lg => inWindow (b, t) lg = true) chain))
  /\ (forall bn, exists blk, getBlock p bn = Resolved blk).

(** ** The lock files of [utils/lock.js] *)

Module Lock.

(** The file system as the lock code sees it: the paths that exist. *)
Definition files : Type := gset string.

(** Which system calls of one call of [acquireLock] or [releaseLock] fail
    for a reason other than the state of the lock path (permissions, a full
    disk, ...). *)
Record faults : Type := mkFaults {
  mkdirFails : bool;
  openFails : bool;
  writeFails : bool;
  closeFails : bool;
  unlinkFails : bool
}.

Definition noFaults : faults := mkFaults false false false false false.

Section LockDir.

(** [path.join(__dirname, "..", "locks")], resolved. *)
Variable lockDir : string.

(** A plain file name: it holds no separator, so that [path.join] has
    nothing to normalise in it.  The two names in use are plain. *)
Definition plainName (name : string) : Prop := Js.includes "/" name = false.

(** [path.join(lockDir, `${name}.lock`)] for a plain name: the directory,
    a separator and the file name.  For other names [path.join] gives the
    normalised path, which this is not. *)
Definition lockPathOf (name : string) : string :=
  (lockDir ++ "/" ++ name ++ ".lock")%string.

(** [acquireLock(name)]: the path of the lock, or [None] for [null].
    [fs.openSync(lockPath, "wx")] fails with [EEXIST] when the path exists
    and creates the file otherwise; an error of any call is caught and gives
    [null]. *)
Definition acquireLock (f : faults) (name : string) (fs : files)
    : option string * files :=
  if mkdirFails f then (None, fs) else
  let lockPath := lockPathOf name in
  if bool_decide (lockPath ∈ fs) then (None, fs)
  else if openFails f then (None, fs)
  else
    let fs' := {[ lockPath ]} ∪ fs in
    if writeFails f then (None, fs')
    else if closeFails f then (None, fs')
    else (Some lockPath, fs').

(** [releaseLock(lockPath)]: nothing for [null] or the empty string; the
    failure of [fs.unlinkSync], for one when the path does not exist, is
    caught. *)
Definition releaseLock (f : faults) (lockPath : option string) (fs : files)
    : files :=
  match lockPath with
  | None | Some EmptyString => fs
  | Some path =>
      if unlinkFails f || negb (bool_decide (path ∈ fs)) then fs
      else fs ∖ {[ path ]}
  end.

End LockDir.

End Lock.

(** ** The CSV writer of [utils/csv.js] *)

Module Csv.

Import Js.

(** The double quote, the comma and the line feed. *)
Definition quote : ascii := "034"%char.
Definition comma : ascii := ","%char.
Definition newline : ascii := "010"%char.

Definition str (c : ascii) : string := String c EmptyString.

(** The [s.replace] of [csvEscape]: every double quote twice. *)
Fixpoint replaceQuotes (s : string) : string :=
  match s with
  | EmptyString => EmptyString
  | String c s' =>
      if code c =? code quote
      then String quote (String quote (replaceQuotes s'))
      else String c (replaceQuotes s')
  end.

(** [csvEscape(v)].  [None] is [null] or [undefined]; [Some s] is a value
    that [String(v)] prints as [s]. *)
Definition csvEscape (v : option string) : string :=
  match v with
  | None => EmptyString
  | Some s =>
      if includes (str quote) s
      then String quote (replaceQuotes s ++ str quote)
      else if includes (str comma) s || includes (str newline) s
      then String quote (s ++ str quote)
      else s
  end.

(** [items.join(sep)] for an array of strings. *)
Fixpoint join (sep : string) (items : list string) : string :=
  match items with
  | [] => EmptyString
  | x :: rest =>
      match rest with
      | [] => x
      | _ :: _ => (x ++ sep ++ join sep rest)%string
      end
  end.

(** [toCsv(headers, rows)] *)
Definition toCsv (headers : list (option string))
    (rows : list (list (option string))) : string :=
  (join (str newline)
     (map (fun row => join (str comma) (map csvEscape row)) (headers :: rows))
   ++ str newline)%string.

(** *** Reading the text *)

(** The string has no [c]. *)
Definition free (c : ascii) (s : string) : Prop := includes (str c) s = false.

(** What follows a cell: nothing, a comma or a line feed. *)
Definition endsCell (t : string) : Prop :=
  match t with
  | EmptyString => True
  | String c _ => c = comma \/ c = newline
  end.

(** What follows a row: nothing or a line feed. *)
Definition endsRow (t : string) : Prop :=
  match t with
  | EmptyString => True
  | String c _ => c = newline
  end.

(** What follows a quoted cell is not a quote. *)
Definition notQuote (t : string) : Prop :=
  match t with
  | EmptyString => True
  | String c _ => c <> quote
  end.

(** The line of a row of strings. *)
Definition lineOf (row : list string) : string :=
  join (str comma) (map csvEscape (map Some row)).

(** The text of a table, line by line. *)
Fixpoint linesOf (rows : list (list string)) : string :=
  match rows with
  | [] => EmptyString
  | row :: rest => (lineOf row ++ String newline (linesOf rest))%string
  end.

End Csv.

(** ** More concrete providers *)

Module MoreExamples.

(** A provider that throttles the first two requests for a range and then
    answers with one transfer log. *)
Definition flaky : provider :=
  mkProvider (Resolved 10)
    (fun _ _ k =>
       if k <=? 2 then Rejected (mkError "Rate limit exceeded")
       else Resolved [Examples.transferLog 10 0])
    (fun _ => Resolved None).

(** A provider with the given head that holds the logs of a chain and knows
    the timestamp of every block. *)
Definition serving (head : Z) (chain : list rawlog) : provider :=
  mkProvider (Resolved head)
    (fun b t _ => Resolved (filter (fun lg => inWindow (b, t) lg = true) chain))
    (fun bn => Resolved (Some (mkBlock (JInt (1700 + bn))))).

End MoreExamples.

(** * Properties

    ** Numerals are read back by [parseInt] *)

Module NumeralFacts.

Import Numeral.

Lemma code_ascii_of_N (n : N) : (n < 256)%N -> code (ascii_of_N n) = Z.of_N n.
Proof.
  intros Hn. unfold code. now rewrite N_ascii_embedding.
Qed.

Lemma code_digitChar (d : Z) :
  0 <= d < 36 -> code (digitChar d) = if d <? 10 then 48 + d else 87 + d.
Proof.
  intros Hd. unfold digitChar.
  rewrite code_ascii_of_N; destruct (d <? 10) eqn:E; lia.
Qed.

Lemma radixDigit_digitChar (radix d : Z) :
  0 <= d < radix -> radix <= 36 -> radixDigit radix (digitChar d) = Some d.
Proof.
  intros Hd Hr. unfold radixDigit, digitValue.
  rewrite code_digitChar by lia.
  destruct (d <? 10) eqn:E.
  - apply Z.ltb_lt in E.
    replace ((48 <=? 48 + d) && (48 + d <=? 57)) with true
      by (symmetry; apply andb_true_iff; split; apply Z.leb_le; lia).
    replace (48 + d - 48) with d by lia.
    now replace (d <? radix) with true by (symmetry; apply Z.ltb_lt; lia).
  - apply Z.ltb_ge in E.
    replace ((48 <=? 87 + d) && (87 + d <=? 57)) with false
      by (symmetry; apply andb_false_iff; right; apply Z.leb_gt; lia).
    replace ((97 <=? 87 + d) && (87 + d <=? 122)) with true
      by (symmetry; apply andb_true_iff; split; apply Z.leb_le; lia).
    replace (87 + d - 87) with d by lia.
    now replace (d <? radix) with true by (symmetry; apply Z.ltb_lt; lia).
Qed.

Lemma digitsOf_range (radix : Z) (fuel : nat) (n : Z) :
  1 < radix -> 0 <= n -> Forall (fun d => 0 <= d < radix) (digitsOf fuel radix n).
Proof.
  intros Hr. revert n. induction fuel as [|fuel IH]; intros n Hn; simpl.
  - constructor.
  - destruct (n <? radix) eqn:E.
    + apply Z.ltb_lt in E. repeat constructor; lia.
    + apply Forall_app. split.
      * apply IH. apply Z.div_pos; lia.
      * repeat constructor; apply Z.mod_pos_bound; lia.
Qed.

Lemma digitsValue_snoc (radix : Z) (ds : list Z) (d : Z) :
  digitsValue radix (ds ++ [d]) = digitsValue radix ds * radix + d.
Proof. unfold digitsValue. now rewrite fold_left_app. Qed.

Lemma digitsOf_value (radix : Z) (fuel : nat) (n : Z) :
  1 < radix -> 0 <= n -> (Z.to_nat n < fuel)%nat ->
  digitsValue radix (digitsOf fuel radix n) = n.
Proof.
  intros Hr. revert n. induction fuel as [|fuel IH]; intros n Hn Hf; [lia|].
  simpl. destruct (n <? radix) eqn:E.
  - unfold digitsValue. simpl. lia.
  - apply Z.ltb_ge in E. rewrite digitsValue_snoc, IH.
    + pose proof (Z.div_mod n radix). lia.
    + apply Z.div_pos; lia.
    + assert (n / radix < n) by (apply Z.div_lt; lia).
      assert (0 <= n / radix) by (apply Z.div_pos; lia). lia.
Qed.

Lemma digitsOf_nonempty (radix : Z) (fuel : nat) (n : Z) :
  digitsOf (S fuel) radix n <> [].
Proof.
  simpl. destruct (n <? radix); [discriminate|].
  intros H. apply app_eq_nil in H. destruct H; discriminate.
Qed.

Lemma leadingDigits_render (radix : Z) (ds : list Z) :
  radix <= 36 -> Forall (fun d => 0 <= d < radix) ds ->
  leadingDigits radix (render ds) = ds.
Proof.
  intros Hr H. induction H as [|d ds Hd _ IH]; simpl; [reflexivity|].
  rewrite radixDigit_digitChar by lia. now rewrite IH.
Qed.

End NumeralFacts.

(** ** The text functions on sample inputs *)

Example parseInt_hex : parseInt "0x1f" 16 = Some 31.
Proof. reflexivity. Qed.

Example parseInt_stops_at_first_non_digit : parseInt "  -12abc" 10 = Some (-12).
Proof. reflexivity. Qed.

Example parseInt_upper_prefix_in_base_10 : parseInt "0X1F" 10 = Some 0.
Proof. reflexivity. Qed.

Example parseInt_no_digit : parseInt "x1" 10 = None.
Proof. reflexivity. Qed.

Example retry_after_hint :
  parseRetryAfterMs (mkError "Please Retry in  12 S") = Some 12000.
Proof. reflexivity. Qed.

Example retry_after_leftmost_match :
  parseRetryAfterMs (mkError "retry in 3x, retry in 4s") = Some 4000.
Proof. reflexivity. Qed.

Example retry_after_zero_is_no_hint :
  parseRetryAfterMs (mkError "retry in 0s") = None.
Proof. reflexivity. Qed.

Example rate_limit_by_text :
  isRateLimitError (mkError "Too Many Requests") = true.
Proof. reflexivity. Qed.

Example rate_limit_by_code :
  isRateLimitError (mkError "error code -32090") = true.
Proof. reflexivity. Qed.

Example not_rate_limit :
  isRateLimitError (mkError "invalid block range") = false.
Proof. reflexivity. Qed.

(** ** The stable log index and the decoder *)

Section LogIndex.

Import Numeral NumeralFacts.

(** A string that starts with a printable ASCII character has no white
    space at its head. *)
Lemma trimStart_plain (c : ascii) (s : string) :
  33 <= code c < 194 -> trimStart (String c s) = String c s.
Proof.
  intros Hc. cbn [trimStart].
  assert (H1 : isWhiteSpace c = false).
  { unfold isWhiteSpace.
    replace (code c <=? 13) with false by (symmetry; apply Z.leb_gt; lia).
    replace (code c =? 32) with false by (symmetry; apply Z.eqb_neq; lia).
    now rewrite andb_false_r. }
  assert (H2 : forall d, isWhiteSpace2 c d = false).
  { intros d. unfold isWhiteSpace2.
    now replace (code c =? 194) with false by (symmetry; apply Z.eqb_neq; lia). }
  assert (H3 : forall d e, isWhiteSpace3 c d e = false).
  { intros d e. unfold isWhiteSpace3.
    replace (code c =? 225) with false by (symmetry; apply Z.eqb_neq; lia).
    replace (code c =? 226) with false by (symmetry; apply Z.eqb_neq; lia).
    replace (code c =? 227) with false by (symmetry; apply Z.eqb_neq; lia).
    now replace (code c =? 239) with false by (symmetry; apply Z.eqb_neq; lia). }
  rewrite H1. destruct s as [|d s]; [reflexivity|]. rewrite H2.
  destruct s as [|e s]; [reflexivity|]. now rewrite H3.
Qed.

Lemma digitChar_plain (d : Z) (s : string) :
  0 <= d < 36 ->
  trimStart (String (digitChar d) s) = String (digitChar d) s
  /\ (code (digitChar d) =? 45) = false
  /\ (code (digitChar d) =? 43) = false.
Proof.
  intros Hd. pose proof (code_digitChar d Hd) as Hc.
  assert (48 <= code (digitChar d) <= 122) by (destruct (d <? 10) eqn:E; lia).
  repeat split.
  - apply trimStart_plain. lia.
  - apply Z.eqb_neq; lia.
  - apply Z.eqb_neq; lia.
Qed.

(** Below 2^53 every integer is a double. *)
Lemma roundNat_small (n : Z) : 0 <= n < 2 ^ 53 -> roundNat n = n.
Proof.
  intros Hn. unfold roundNat.
  now replace (n <? 2 ^ 53) with true by (symmetry; apply Z.ltb_lt; lia).
Qed.

Lemma roundNat_nonneg (n : Z) : 0 <= n -> 0 <= roundNat n.
Proof.
  intros Hn. unfold roundNat. destruct (n <? 2 ^ 53); [exact Hn|].
  cbv zeta. apply Z.min_glb; [|unfold Infinity; lia].
  assert (Hp : 0 <= 2 ^ (Z.log2 n - 52)) by (apply Z.pow_nonneg; lia).
  assert (Hq : 0 <= n / 2 ^ (Z.log2 n - 52))
    by (apply Z_div_nonneg_nonneg; [exact Hn | exact Hp]).
  destruct (_ || _); nia.
Qed.

Lemma toNumber_nonneg (n : Z) : 0 <= n -> 0 <= toNumber n.
Proof.
  intros Hn. unfold toNumber. pose proof (roundNat_nonneg (Z.abs n) ltac:(lia)).
  destruct n; cbn [Z.sgn]; lia.
Qed.

Lemma toNumber_small (n : Z) : - 2 ^ 53 < n < 2 ^ 53 -> toNumber n = n.
Proof.
  intros Hn. unfold toNumber. rewrite roundNat_small by lia.
  destruct n; cbn [Z.sgn Z.abs]; lia.
Qed.

Lemma parseInt_render_decimal (ds : list Z) :
  ds <> [] -> Forall (fun d => 0 <= d < 10) ds ->
  parseInt (render ds) 10 = Some (toNumber (digitsValue 10 ds)).
Proof.
  intros Hne Hds. destruct ds as [|d ds]; [congruence|].
  assert (Hd : 0 <= d < 36) by (inversion Hds; lia).
  destruct (digitChar_plain d (render ds) Hd) as (Ht & Hm & Hp).
  unfold parseInt. change (render (d :: ds)) with (String (digitChar d) (render ds)).
  rewrite Ht, Hm, Hp. cbv beta iota zeta. simpl (10 =? 16). cbv iota.
  change (String (digitChar d) (render ds)) with (render (d :: ds)).
  rewrite leadingDigits_render by (auto; lia).
  do 2 f_equal. lia.
Qed.

Lemma parseInt_render_hex (ds : list Z) :
  ds <> [] -> Forall (fun d => 0 <= d < 16) ds ->
  parseInt (String "0" (String "x" (render ds))) 16
  = Some (toNumber (digitsValue 16 ds)).
Proof.
  intros Hne Hds. unfold parseInt.
  rewrite (trimStart_plain "0") by (change (code "0") with 48; lia).
  change (code "0" =? 45) with false. change (code "0" =? 43) with false.
  cbv beta iota zeta. change (16 =? 16) with true. cbv iota.
  change ((code "0" =? 48) && ((code "x" =? 120) || (code "x" =? 88)))
    with true.
  cbv iota. rewrite leadingDigits_render by (auto; lia).
  destruct ds as [|d ds]; [congruence|]. do 2 f_equal. lia.
Qed.

Lemma parseInt_toDecimal (n : Z) :
  0 <= n -> parseInt (toDecimal n) 10 = Some (toNumber n).
Proof.
  intros Hn. unfold toDecimal.
  rewrite parseInt_render_decimal.
  - rewrite digitsOf_value by lia. reflexivity.
  - apply digitsOf_nonempty.
  - apply digitsOf_range; lia.
Qed.

Lemma parseInt_toHex (n : Z) :
  0 <= n -> parseInt (toHex n) 16 = Some (toNumber n).
Proof.
  intros Hn. unfold toHex.
  rewrite parseInt_render_hex.
  - rewrite digitsOf_value by lia. reflexivity.
  - apply digitsOf_nonempty.
  - apply digitsOf_range; lia.
Qed.

Lemma startsWith_0x_toHex (n : Z) : startsWith "0x" (toHex n) = true.
Proof. reflexivity. Qed.

Lemma startsWith_0x_render_decimal (ds : list Z) :
  Forall (fun d => 0 <= d < 10) ds -> startsWith "0x" (render ds) = false.
Proof.
  intros Hds. destruct Hds as [|d ds Hd Hds]; [reflexivity|].
  destruct Hds as [|e ds He Hds].
  - simpl. apply andb_false_r.
  - change (render (d :: e :: ds))
      with (String (digitChar d) (String (digitChar e) (render ds))).
    cbn [startsWith]. rewrite (code_digitChar e) by lia.
    replace (e <? 10) with true by (symmetry; apply Z.ltb_lt; lia).
    change (code "x") with 120.
    replace (120 =? 48 + e) with false by (symmetry; apply Z.eqb_neq; lia).
    simpl. apply andb_false_r.
Qed.

Lemma startsWith_0x_toDecimal (n : Z) : 0 <= n -> startsWith "0x" (toDecimal n) = false.
Proof.
  intros Hn. apply startsWith_0x_render_decimal, digitsOf_range; lia.
Qed.

Lemma nonNegInteger_Some (v : jsval) (n : Z) :
  nonNegInteger v = Some n <-> v = JInt n /\ 0 <= n.
Proof.
  destruct v as [| |b|k| |s|]; unfold nonNegInteger; cbn -[Z.leb];
    try (split; [discriminate | intros [? _]; discriminate]).
  destruct (Z.leb_spec 0 k) as [E|E].
  - split.
    + intros [= <-]. auto.
    + intros [[= <-] _]. reflexivity.
  - split; [discriminate|]. intros [[= <-] ?]. lia.
Qed.

Lemma getStableLogIndex_nonneg (lg : rawlog) (n : Z) :
  getStableLogIndex lg = Some n -> 0 <= n.
Proof.
  unfold getStableLogIndex.
  destruct (nonNegInteger (lg_index lg)) as [i|] eqn:Hi.
  - intros [= <-]. now apply nonNegInteger_Some in Hi.
  - destruct (lg_logIndex lg) as [| |b|m| |s|] eqn:Hli;
      unfold nonNegInteger; cbn -[Z.leb startsWith parseInt Number_isFinite];
      try discriminate.
    + destruct (0 <=? m) eqn:E; [|discriminate].
      intros [= <-]. now apply Z.leb_le.
    + destruct (if startsWith "0x" s then parseInt s 16 else parseInt s 10)
        as [m|]; [|discriminate].
      destruct (Number_isFinite m); cbn [andb]; [|discriminate].
      destruct (0 <=? m) eqn:E; [|discriminate].
      intros [= <-]. now apply Z.leb_le.
Qed.

Lemma decodeTransfer_None (m : gmap Z Z) (lg : rawlog) :
  decodeTransfer m lg = None <-> malformed lg = true.
Proof.
  unfold decodeTransfer, malformed.
  destruct (lg_topics lg) as [topics|]; [|simpl; tauto].
  destruct (Z.of_nat (length topics) <? 4) eqn:E.
  - apply Z.ltb_lt in E.
    replace (length topics <? 4)%nat with true
      by (symmetry; apply Nat.ltb_lt; lia).
    simpl; tauto.
  - apply Z.ltb_ge in E.
    replace (length topics <? 4)%nat with false
      by (symmetry; apply Nat.ltb_ge; lia).
    simpl.
    destruct (getStableLogIndex lg) as [li|]; simpl; [|tauto].
    destruct (lg_transactionHash lg) as [[|c s]|]; simpl; try tauto.
    split; discriminate.
Qed.

(** The triple of an event is read from its log. *)
Lemma decodeTransfer_key (m : gmap Z Z) (lg : rawlog) (e : transferEvent) :
  decodeTransfer m lg = Some e ->
  lg_transactionHash lg = Some (ev_txHash e)
  /\ getStableLogIndex lg = Some (ev_logIndex e).
Proof.
  unfold decodeTransfer.
  destruct (lg_topics lg) as [topics|]; [|discriminate].
  destruct (Z.of_nat (length topics) <? 4); [discriminate|].
  destruct (getStableLogIndex lg) as [li|]; [|discriminate].
  destruct (lg_transactionHash lg) as [[|ch s]|]; try discriminate.
  intros [= <-]. now cbn.
Qed.

Lemma decodeTransfers_length (m : gmap Z Z) (logs : list rawlog) :
  (length (decodeTransfers m logs) + length (filter (fun lg => malformed lg = true) logs)
   = length logs)%nat.
Proof.
  induction logs as [|lg logs IH]; simpl; [reflexivity|].
  rewrite filter_cons.
  destruct (decodeTransfer m lg) as [e|] eqn:E.
  - destruct (decide (malformed lg = true)) as [Hm|Hm].
    + apply decodeTransfer_None with (m := m) in Hm. congruence.
    + simpl. lia.
  - destruct (decide (malformed lg = true)) as [Hm|Hm].
    + simpl. lia.
    + exfalso. apply Hm. now apply (decodeTransfer_None m).
Qed.

End LogIndex.

(** C8. The stable log index is the provider's [index] when that is a
    non-negative integer; otherwise [logIndex], taken as it is when it is a
    non-negative integer number and parsed when it is a string, in base 16
    when the string starts with [0x] and in base 10 otherwise (so the decimal
    and the [0x] numerals of [n] both give the double that holds [n], which
    is [n] below 2^53, and none when that is [Infinity]); otherwise there is
    none, and what there is is never negative.  A log without a stable index, and a
    transfer log with fewer than four topics, is dropped; every other log but
    one without a transaction hash gives an event, so the decoder keeps
    exactly the logs that are not malformed and 10 logs of which 2 are
    malformed give 8 events. *)
Theorem stable_log_index_and_malformed_logs :
  (forall lg i, lg_index lg = JInt i -> 0 <= i -> getStableLogIndex lg = Some i)
  /\ (forall lg n, nonNegInteger (lg_index lg) = None ->
        lg_logIndex lg = JInt n -> 0 <= n -> getStableLogIndex lg = Some n)
  /\ (forall lg s, nonNegInteger (lg_index lg) = None ->
        lg_logIndex lg = JString s ->
        getStableLogIndex lg =
          match (if startsWith "0x" s then parseInt s 16 else parseInt s 10) with
          | Some n => if Number_isFinite n && (0 <=? n) then Some n else None
          | None => None
          end)
  /\ (forall lg n, 0 <= n -> nonNegInteger (lg_index lg) = None ->
        lg_logIndex lg = JString (Numeral.toHex n)
        \/ lg_logIndex lg = JString (Numeral.toDecimal n) ->
        getStableLogIndex lg
        = (if Number_isFinite (toNumber n) then Some (toNumber n) else None)
        /\ (n < 2 ^ 53 -> getStableLogIndex lg = Some n))
  /\ (forall lg, nonNegInteger (lg_index lg) = None ->
        lg_logIndex lg = JString "9007199254740993" ->
        getStableLogIndex lg = Some 9007199254740992)
  /\ (forall lg, nonNegInteger (lg_index lg) = None ->
        lg_logIndex lg
        = JString (String "0" (String "x" (Numeral.render (1 :: repeat 0 256)))) ->
        getStableLogIndex lg = None)
  /\ (forall lg, nonNegInteger (lg_index lg) = None ->
        nonNegInteger (lg_logIndex lg) = None ->
        typeof_string (lg_logIndex lg) = false ->
        getStableLogIndex lg = None)
  /\ (forall lg n, getStableLogIndex lg = Some n -> 0 <= n)
  /\ (forall m lg, getStableLogIndex lg = None -> decodeTransfer m lg = None)
  /\ (forall m lg topics, lg_topics lg = Some topics ->
        (length topics < 4)%nat -> decodeTransfer m lg = None)
  /\ (forall m lg, malformed lg = false -> exists e, decodeTransfer m lg = Some e)
  /\ (forall m logs,
        (length (decodeTransfers m logs)
         + length (filter (fun lg => malformed lg = true) logs)
         = length logs)%nat)
  /\ (forall m logs, length logs = 10%nat ->
        length (filter (fun lg => malformed lg = true) logs) = 2%nat ->
        length (decodeTransfers m logs) = 8%nat).
Proof.
  assert (Hstr : forall lg s, nonNegInteger (lg_index lg) = None ->
            lg_logIndex lg = JString s ->
            getStableLogIndex lg =
              match (if startsWith "0x" s then parseInt s 16 else parseInt s 10) with
              | Some n => if Number_isFinite n && (0 <=? n) then Some n else None
              | None => None
              end).
  { intros lg s Hi Hs. unfold getStableLogIndex. rewrite Hi, Hs. reflexivity. }
  assert (Hnum : forall lg n, 0 <= n -> nonNegInteger (lg_index lg) = None ->
            lg_logIndex lg = JString (Numeral.toHex n)
            \/ lg_logIndex lg = JString (Numeral.toDecimal n) ->
            getStableLogIndex lg
            = (if Number_isFinite (toNumber n) then Some (toNumber n) else None)).
  { intros lg n Hpos Hi [Hs|Hs]; rewrite (Hstr lg _ Hi Hs).
    - rewrite startsWith_0x_toHex, parseInt_toHex by lia.
      replace (0 <=? toNumber n) with true
        by (symmetry; apply Z.leb_le; now apply toNumber_nonneg).
      now rewrite andb_true_r.
    - rewrite startsWith_0x_toDecimal, parseInt_toDecimal by lia.
      replace (0 <=? toNumber n) with true
        by (symmetry; apply Z.leb_le; now apply toNumber_nonneg).
      now rewrite andb_true_r. }
  split; [|split; [|split; [|split; [|split; [|split]]]]]; [| | | | | |repeat split].
  - intros lg i Hi Hpos. unfold getStableLogIndex.
    now rewrite (proj2 (nonNegInteger_Some _ _) (conj Hi Hpos)).
  - intros lg n Hi Hn Hpos. unfold getStableLogIndex. rewrite Hi, Hn.
    cbn [typeof_number].
    now rewrite (proj2 (nonNegInteger_Some _ _) (conj eq_refl Hpos)).
  - exact Hstr.
  - intros lg n Hpos Hi Hs. split; [now apply Hnum|].
    intros Hsmall. rewrite (Hnum lg n Hpos Hi Hs).
    rewrite toNumber_small by lia. unfold Number_isFinite, Infinity.
    replace (- 2 ^ 1024 <? n) with true by (symmetry; apply Z.ltb_lt; lia).
    now replace (n <? 2 ^ 1024) with true by (symmetry; apply Z.ltb_lt; lia).
  - intros lg Hi Hs. rewrite (Hstr lg _ Hi Hs). vm_compute. reflexivity.
  - intros lg Hi Hs. rewrite (Hstr lg _ Hi Hs). vm_compute. reflexivity.
  - intros lg Hi Hn Hs. unfold getStableLogIndex. rewrite Hi.
    destruct (lg_logIndex lg); cbn [typeof_number] in *; try reflexivity;
      try discriminate; now rewrite Hn.
  - apply getStableLogIndex_nonneg.
  - intros m lg Hi. apply decodeTransfer_None. unfold malformed.
    rewrite Hi. rewrite bool_decide_eq_true_2 by reflexivity.
    now rewrite orb_true_r.
  - intros m lg topics Ht Hlen. apply decodeTransfer_None. unfold malformed.
    rewrite Ht. now replace (length topics <? 4)%nat with true
      by (symmetry; apply Nat.ltb_lt; lia).
  - intros m lg Hwell. destruct (decodeTransfer m lg) as [e|] eqn:E; [eauto|].
    apply decodeTransfer_None in E. congruence.
  - apply decodeTransfers_length.
  - intros m logs H10 H2. pose proof (decodeTransfers_length m logs). lia.
Qed.

(** ** The log fetcher *)

Section Fetcher.

Variable p : provider.
Variables fromBlock toBlock : Z.

Lemma backoffDelay_first : backoffDelay 1 = 750.
Proof. reflexivity. Qed.

Lemma backoffDelay_next (k : Z) :
  1 <= k -> backoffDelay (k + 1) = Z.min (backoffDelay k * 2) 10000.
Proof.
  intros Hk. unfold backoffDelay.
  replace (k + 1 - 1) with (Z.succ (k - 1)) by lia.
  rewrite Z.pow_succ_r by lia.
  assert (0 < 2 ^ (k - 1)) by (apply Z.pow_pos_nonneg; lia).
  lia.
Qed.

Lemma backoffDelay_bounds (k : Z) : 1 <= k -> 750 <= backoffDelay k <= 10000.
Proof.
  intros Hk. unfold backoffDelay.
  assert (1 <= 2 ^ (k - 1)) by (apply Z.pow_le_mono_r with (b := 0); lia).
  lia.
Qed.

(** A rejection that is not retryable ends the loop at once. *)
Lemma retryLoop_not_retryable (maxAttempts : Z) (remaining : nat)
    (attempt backoffMs : Z) (err : jserror) :
  getLogs p fromBlock toBlock (attempt + 1) = Rejected err ->
  retryable err = false ->
  retryLoop p fromBlock toBlock maxAttempts (S remaining) attempt backoffMs
  = (FetchFailed err, [IoGetLogs fromBlock toBlock (attempt + 1)]).
Proof.
  intros Hget Hno. cbn [retryLoop]. rewrite Hget.
  unfold retryable in Hno. rewrite Hno. reflexivity.
Qed.

(** Facing retryable rejections only, the loop uses every attempt left. *)
Lemma retryLoop_all_retryable (maxAttempts : Z) (errs : Z -> jserror) :
  (forall k, 1 <= k <= maxAttempts ->
     getLogs p fromBlock toBlock k = Rejected (errs k)
     /\ retryable (errs k) = true) ->
  forall (remaining : nat) (attempt : Z),
    0 <= attempt ->
    Z.of_nat (S remaining) = maxAttempts - attempt ->
    retryLoop p fromBlock toBlock maxAttempts (S remaining) attempt
      (backoffDelay (attempt + 1))
    = (FetchFailed (errs maxAttempts),
       retrySchedule fromBlock toBlock errs (attempt + 1) remaining maxAttempts).
Proof.
  intros Hall. induction remaining as [|remaining IH]; intros attempt Hpos Hrem.
  - destruct (Hall (attempt + 1)) as [Hget Hretry]; [lia|].
    cbn [retryLoop]. rewrite Hget.
    unfold retryable in Hretry. rewrite Hretry. cbn [negb orb].
    replace (maxAttempts <=? attempt + 1) with true
      by (symmetry; apply Z.leb_le; lia).
    replace maxAttempts with (attempt + 1) by lia. reflexivity.
  - destruct (Hall (attempt + 1)) as [Hget Hretry]; [lia|].
    remember (S remaining) as n eqn:Hn.
    cbn [retryLoop]. rewrite Hget.
    unfold retryable in Hretry. rewrite Hretry. cbn [negb orb].
    replace (maxAttempts <=? attempt + 1) with false
      by (symmetry; apply Z.leb_gt; lia).
    rewrite <- backoffDelay_next by lia.
    subst n. rewrite (IH (attempt + 1)) by lia.
    unfold retrySchedule.
    replace (Z.of_nat (S remaining)) with (Z.succ (Z.of_nat remaining)) by lia.
    rewrite (seqZ_cons (attempt + 1) (Z.succ (Z.of_nat remaining))) by lia.
    cbn [flat_map].
    replace (Z.pred (Z.succ (Z.of_nat remaining))) with (Z.of_nat remaining) by lia.
    replace (Z.succ (attempt + 1)) with (attempt + 1 + 1) by lia.
    reflexivity.
Qed.

Lemma seqZ_snoc (m n : Z) : 0 <= n -> seqZ m (n + 1) = (seqZ m n ++ [m + n])%list.
Proof.
  intros Hn. rewrite seqZ_app by lia. f_equal.
Qed.

Lemma retrySchedule_requests (errs : Z -> jserror) (first : Z) (rounds : nat)
    (maxAttempts : Z) :
  filter (fun e => isGetLogs e = true)
    (retrySchedule fromBlock toBlock errs first rounds maxAttempts)
  = (map (IoGetLogs fromBlock toBlock) (seqZ first (Z.of_nat rounds))
     ++ [IoGetLogs fromBlock toBlock maxAttempts])%list.
Proof.
  unfold retrySchedule. rewrite filter_app. f_equal.
  induction (seqZ first (Z.of_nat rounds)) as [|k ks IH]; [reflexivity|].
  cbn [flat_map map]. rewrite <- IH. reflexivity.
Qed.

Lemma retrySchedule_sleeps (errs : Z -> jserror) (first : Z) (rounds : nat)
    (maxAttempts : Z) :
  sleeps (retrySchedule fromBlock toBlock errs first rounds maxAttempts)
  = map (retryWait errs) (seqZ first (Z.of_nat rounds)).
Proof.
  unfold retrySchedule.
  induction (seqZ first (Z.of_nat rounds)) as [|k ks IH]; [reflexivity|].
  cbn [flat_map map app sleeps]. now rewrite IH.
Qed.

End Fetcher.

Import Examples.

(** The events of ten logs of which two are malformed, and two indices read
    from text. *)
Lemma stable_log_index_and_malformed_logs_witness :
  length (decodeTransfers ∅ batchOfTen) = 8%nat
  /\ getStableLogIndex (legacyLog 11 (Numeral.toHex 31)) = Some 31
  /\ getStableLogIndex (transferLog 10 5) = Some 5.
Proof.
  destruct stable_log_index_and_malformed_logs
    as (Hidx & _ & _ & Hnum & _ & _ & _ & _ & _ & _ & _ & _ & Hten).
  split; [|split].
  - apply Hten; reflexivity.
  - apply (Hnum (legacyLog 11 (Numeral.toHex 31)) 31);
      [lia | reflexivity | left; reflexivity | lia].
  - apply Hidx; [reflexivity | lia].
Defined.

(** C6. Facing retryable errors only, the fetcher requests the logs exactly
    [maxAttempts] times (6 when no option is given) and returns the failure of
    the last request; after each failure but the last it waits for the hint
    of the error when there is one and for the computed backoff otherwise,
    and the backoff is 750 at first, doubles after each retryable failure and
    never exceeds 10000.  With no attempt allowed it fails without a request. *)
Theorem retryable_errors_exhaust_the_attempts
    (p : provider) (fromBlock toBlock : Z) (options : option Z)
    (errs : Z -> jserror)
    (Hall : forall k, 1 <= k <= default 6 options ->
              getLogs p fromBlock toBlock k = Rejected (errs k)
              /\ retryable (errs k) = true) :
  let maxAttempts := default 6 options in
  let r := getLogsWithRetry p fromBlock toBlock options in
  (1 <= maxAttempts ->
     fst r = FetchFailed (errs maxAttempts)
     /\ snd r = retrySchedule fromBlock toBlock errs 1
                  (Z.to_nat (maxAttempts - 1)) maxAttempts
     /\ filter (fun e => isGetLogs e = true) (snd r)
        = map (IoGetLogs fromBlock toBlock) (seqZ 1 maxAttempts)
     /\ length (filter (fun e => isGetLogs e = true) (snd r))
        = Z.to_nat maxAttempts
     /\ sleeps (snd r) = map (retryWait errs) (seqZ 1 (maxAttempts - 1)))
  /\ (maxAttempts <= 0 -> r = (FetchFailed exhausted, []))
  /\ (options = None -> maxAttempts = 6)
  /\ (forall k ms, parseRetryAfterMs (errs k) = Some ms -> retryWait errs k = ms)
  /\ (forall k, parseRetryAfterMs (errs k) = None ->
        retryWait errs k = backoffDelay k)
  /\ backoffDelay 1 = 750
  /\ (forall k, 1 <= k -> backoffDelay (k + 1) = Z.min (backoffDelay k * 2) 10000)
  /\ (forall k, 1 <= k -> backoffDelay k <= 10000).
Proof.
  intros maxAttempts r. repeat split.
  - unfold r, getLogsWithRetry. fold maxAttempts.
    replace (Z.to_nat maxAttempts) with (S (Z.to_nat (maxAttempts - 1))) by lia.
    change 750 with (backoffDelay (0 + 1)).
    rewrite (retryLoop_all_retryable p fromBlock toBlock maxAttempts errs Hall)
      by lia.
    reflexivity.
  - unfold r, getLogsWithRetry. fold maxAttempts.
    replace (Z.to_nat maxAttempts) with (S (Z.to_nat (maxAttempts - 1))) by lia.
    change 750 with (backoffDelay (0 + 1)).
    rewrite (retryLoop_all_retryable p fromBlock toBlock maxAttempts errs Hall)
      by lia.
    reflexivity.
  - unfold r, getLogsWithRetry. fold maxAttempts.
    replace (Z.to_nat maxAttempts) with (S (Z.to_nat (maxAttempts - 1))) by lia.
    change 750 with (backoffDelay (0 + 1)).
    rewrite (retryLoop_all_retryable p fromBlock toBlock maxAttempts errs Hall)
      by lia.
    cbn [snd]. rewrite retrySchedule_requests.
    replace maxAttempts with (Z.of_nat (Z.to_nat (maxAttempts - 1)) + 1) at 3
      by lia.
    rewrite seqZ_snoc, map_app by lia. cbn [map].
    do 3 f_equal. lia.
  - unfold r, getLogsWithRetry. fold maxAttempts.
    replace (Z.to_nat maxAttempts) with (S (Z.to_nat (maxAttempts - 1))) at 1
      by lia.
    change 750 with (backoffDelay (0 + 1)).
    rewrite (retryLoop_all_retryable p fromBlock toBlock maxAttempts errs Hall)
      by lia.
    cbn [snd]. rewrite retrySchedule_requests, length_app, length_map, length_seqZ.
    cbn [length]. lia.
  - unfold r, getLogsWithRetry. fold maxAttempts.
    replace (Z.to_nat maxAttempts) with (S (Z.to_nat (maxAttempts - 1))) by lia.
    change 750 with (backoffDelay (0 + 1)).
    rewrite (retryLoop_all_retryable p fromBlock toBlock maxAttempts errs Hall)
      by lia.
    cbn [snd]. rewrite retrySchedule_sleeps. do 2 f_equal. lia.
  - intros Hle. unfold r, getLogsWithRetry. fold maxAttempts.
    replace (Z.to_nat maxAttempts) with O by lia. reflexivity.
  - intros ->. reflexivity.
  - intros k ms Hms. unfold retryWait. now rewrite Hms.
  - intros k Hnone. unfold retryWait. now rewrite Hnone.
  - apply backoffDelay_next.
  - intros k Hk. apply backoffDelay_bounds. lia.
Qed.

(** The default six attempts against a provider that always throttles. *)
Lemma retryable_errors_exhaust_the_attempts_witness :
  getLogsWithRetry throttled 1 5 None
  = (FetchFailed (mkError "Rate limit exceeded"),
     [IoGetLogs 1 5 1; IoSleep 750; IoGetLogs 1 5 2; IoSleep 2000;
      IoGetLogs 1 5 3; IoSleep 3000; IoGetLogs 1 5 4; IoSleep 6000;
      IoGetLogs 1 5 5; IoSleep 10000; IoGetLogs 1 5 6]).
Proof.
  assert (Hall : forall k, 1 <= k <= default 6 None ->
            getLogs throttled 1 5 k = Rejected (throttledErrors k)
            /\ retryable (throttledErrors k) = true).
  { intros k Hk. split; [reflexivity|].
    unfold throttledErrors. destruct (k =? 2); reflexivity. }
  destruct (retryable_errors_exhaust_the_attempts throttled 1 5 None
              throttledErrors Hall) as (Hrun & _).
  destruct Hrun as (Hres & Htr & _); [simpl; lia|].
  rewrite (surjective_pairing (getLogsWithRetry throttled 1 5 None)).
  rewrite Hres, Htr. reflexivity.
Defined.

(** C7. An error that is not classified as retryable (its message has no
    rate-limit text, no throttling code and no retry-after hint) makes the
    fetcher return the failure right after the first request: one request,
    no wait, no further attempt. *)
Theorem non_retryable_error_fails_at_once
    (p : provider) (fromBlock toBlock : Z) (options : option Z) (err : jserror)
    (Hattempts : 1 <= default 6 options)
    (Hfirst : getLogs p fromBlock toBlock 1 = Rejected err)
    (Hlimit : includes "rate limit" (toLowerCase (message err)) = false)
    (Hmany : includes "too many requests" (toLowerCase (message err)) = false)
    (Hcode : includes "-32090" (toLowerCase (message err)) = false)
    (Hhint : parseRetryAfterMs err = None) :
  let r := getLogsWithRetry p fromBlock toBlock options in
  r = (FetchFailed err, [IoGetLogs fromBlock toBlock 1])
  /\ sleeps (snd r) = []
  /\ length (filter (fun e => isGetLogs e = true) (snd r)) = 1%nat.
Proof.
  assert (Hno : retryable err = false).
  { unfold retryable, isRateLimitError. now rewrite Hlimit, Hmany, Hcode, Hhint. }
  assert (Hrun : getLogsWithRetry p fromBlock toBlock options
                 = (FetchFailed err, [IoGetLogs fromBlock toBlock 1])).
  { unfold getLogsWithRetry.
    replace (Z.to_nat (default 6 options))
      with (S (Z.to_nat (default 6 options - 1))) by lia.
    now apply retryLoop_not_retryable. }
  intros r. subst r. rewrite Hrun. repeat split.
Qed.

(** A refused filter fails on the first of the six attempts. *)
Lemma non_retryable_error_fails_at_once_witness :
  getLogsWithRetry refusing 1 5 None
  = (FetchFailed (mkError "invalid block range"), [IoGetLogs 1 5 1]).
Proof.
  apply (non_retryable_error_fails_at_once refusing 1 5 None
           (mkError "invalid block range"));
    first [reflexivity | simpl; lia].
Defined.

(** ** The window schedule *)

Section Schedule.

Variables scanBlocks latestBlock : Z.

Lemma scheduleWindows_past (fuel : nat) (b : Z) :
  latestBlock < b -> scheduleWindows (S fuel) scanBlocks latestBlock b = Some [].
Proof.
  intros Hb. cbn [scheduleWindows].
  now replace (b <=? latestBlock) with false by (symmetry; apply Z.leb_gt; lia).
Qed.

Lemma scheduleWindows_tiling (fuel : nat) :
  forall b ws,
    scheduleWindows fuel scanBlocks latestBlock b = Some ws ->
    tiling scanBlocks latestBlock b ws.
Proof.
  induction fuel as [|fuel IH]; intros b ws; cbn [scheduleWindows]; [discriminate|].
  destruct (Z.leb_spec b latestBlock) as [Hle|Hgt].
  - destruct (scheduleWindows fuel scanBlocks latestBlock (b + (scanBlocks + 1)))
      as [ws'|] eqn:E; [|discriminate].
    intros [= <-]. constructor; auto.
  - intros [= <-]. now constructor.
Qed.

Lemma scheduleWindows_enough (fuel : nat) :
  0 <= scanBlocks ->
  forall b, (enoughFuel latestBlock b <= fuel)%nat ->
    exists ws, scheduleWindows fuel scanBlocks latestBlock b = Some ws.
Proof.
  intros Hw. unfold enoughFuel.
  induction fuel as [|fuel IH]; intros b Hfuel; [lia|].
  cbn [scheduleWindows].
  destruct (Z.leb_spec b latestBlock) as [Hle|Hgt]; [|eauto].
  destruct (IH (b + (scanBlocks + 1))) as [ws Hws]; [lia|].
  rewrite Hws. eauto.
Qed.

Lemma tiling_unique (b : Z) (ws ws' : list window) :
  tiling scanBlocks latestBlock b ws ->
  tiling scanBlocks latestBlock b ws' -> ws = ws'.
Proof.
  intros H. revert ws'. induction H as [b Hb|b ws Hb _ IH]; intros ws' H'.
  - inversion H'; subst; [reflexivity | lia].
  - inversion H'; subst; [lia|]. f_equal. auto.
Qed.

(** The [i]-th window. *)
Lemma tiling_lookup (b : Z) (ws : list window) :
  0 <= scanBlocks ->
  tiling scanBlocks latestBlock b ws ->
  forall (i : nat) (w : window), ws !! i = Some w ->
    fst w = b + Z.of_nat i * (scanBlocks + 1)
    /\ snd w = Z.min (fst w + scanBlocks) latestBlock
    /\ fst w <= snd w
    /\ snd w <= latestBlock.
Proof.
  intros Hw H. induction H as [b Hb|b ws Hb _ IH]; intros i w Hi.
  - discriminate.
  - destruct i as [|i]; cbn in Hi.
    + injection Hi as <-. cbn [fst snd]. lia.
    + destruct (IH i w Hi) as (H1 & H2 & H3 & H4). repeat split; lia.
Qed.

(** The windows cover the range and nothing else. *)
Lemma tiling_cover (b : Z) (ws : list window) :
  0 <= scanBlocks ->
  tiling scanBlocks latestBlock b ws ->
  forall x, b <= x <= latestBlock <-> exists w, w ∈ ws /\ fst w <= x <= snd w.
Proof.
  intros Hw H. induction H as [b Hb|b ws Hb _ IH]; intros x.
  - split; [lia|]. intros (w & Hin & _). inversion Hin.
  - split.
    + intros Hx. destruct (Z_le_gt_dec x (Z.min (b + scanBlocks) latestBlock)) as [Hin|Hout].
      * exists (b, Z.min (b + scanBlocks) latestBlock). split; [left|cbn; lia].
      * destruct (proj1 (IH x)) as (w & Hin & Hxw); [lia|].
        exists w. split; [now right | exact Hxw].
    + intros (w & Hin & Hxw). apply elem_of_cons in Hin as [->|Hin].
      * cbn [fst snd] in Hxw. lia.
      * assert (b + (scanBlocks + 1) <= x <= latestBlock)
          by (apply IH; eauto). lia.
Qed.

Lemma tiling_nonempty (b : Z) (ws : list window) :
  b <= latestBlock -> tiling scanBlocks latestBlock b ws -> ws <> [].
Proof. intros Hb H. inversion H; subst; [lia | discriminate]. Qed.

End Schedule.

(** ** The timestamp resolver *)

Section Resolver.

Variable p : provider.


Lemma awaitLookups_resolves (bns : list Z) :
  (forall bn, bn ∈ bns -> exists blk, getBlock p bn = Resolved blk) ->
  forall m, exists m', awaitLookups p bns m = Resolved m'.
Proof.
  induction bns as [|bn bns IH]; intros Hall m; cbn [awaitLookups]; [eauto|].
  destruct (Hall bn) as [blk Hblk]; [left|]. rewrite Hblk.
  apply IH. intros bn' Hin. apply Hall. now right.
Qed.





End Resolver.

(** ** The window loop *)

Section Loop.

Variable cfg : config.
Variable now : Z.
Variable p : provider.
Variable key : string.

Lemma lookupsResolve_resolved (logs : list rawlog) :
  lookupsResolve p logs ->
  fst (resolveBlockTimestamps p logs) = Resolved (timestampsOf p logs).
Proof.
  intros Hall. unfold timestampsOf, resolveBlockTimestamps. cbn [fst].
  destruct (awaitLookups_resolves p _ Hall ∅) as [m Hm]. now rewrite Hm.
Qed.

(** A window whose lookups resolve is committed: one transaction when there
    are events, none otherwise, then the pause. *)
Lemma commitWindow_resolved (logs : list rawlog) (m : gmap Z Z) (db : database) :
  fst (resolveBlockTimestamps p logs) = Resolved m ->
  commitWindow cfg now p key logs db
  = (Returned tt,
     insertAll now key (decodeTransfers m logs) db,
     (map IoGetBlock (uniqueBlocks logs ∅)
      ++ (if bool_decide (decodeTransfers m logs <> [])
          then [IoTransaction (length (decodeTransfers m logs))] else [])
      ++ (if 0 <? FLR_PAUSE_MS cfg then [IoSleep (FLR_PAUSE_MS cfg)] else []))%list).
Proof.
  unfold resolveBlockTimestamps. cbn [fst]. intros Hm.
  unfold commitWindow, resolveBlockTimestamps, bind, await. rewrite Hm.
  destruct (decide (decodeTransfers m logs = [])) as [Hnil|Hcons].
  - rewrite bool_decide_eq_false_2 by (intros H; now apply H).
    rewrite Hnil. unfold ret, sleep, emit.
    destruct (0 <? FLR_PAUSE_MS cfg); reflexivity.
  - rewrite bool_decide_eq_true_2 by exact Hcons.
    unfold transaction, ret, sleep, emit.
    destruct (0 <? FLR_PAUSE_MS cfg); reflexivity.
Qed.

(** A rejected lookup is thrown out of the window: nothing is committed. *)
Lemma commitWindow_rejected (logs : list rawlog) (e : jserror) (db : database) :
  fst (resolveBlockTimestamps p logs) = Rejected e ->
  commitWindow cfg now p key logs db
  = (Thrown e, db, map IoGetBlock (uniqueBlocks logs ∅)).
Proof.
  unfold resolveBlockTimestamps. cbn [fst]. intros Hm.
  unfold commitWindow, resolveBlockTimestamps, bind, await. now rewrite Hm.
Qed.

Lemma windowLoop_runWindows (latestBlock : Z) (fuel : nat) :
  forall b ws lastGoodBlock db,
    scheduleWindows fuel (FLR_SCAN_BLOCKS cfg) latestBlock b = Some ws ->
    windowLoop cfg now p key fuel latestBlock b lastGoodBlock db
    = runWindows cfg now p key ws lastGoodBlock db.
Proof.
  induction fuel as [|fuel IH]; intros b ws lg db; cbn [scheduleWindows windowLoop];
    [discriminate|].
  destruct (b <=? latestBlock).
  - destruct (scheduleWindows fuel (FLR_SCAN_BLOCKS cfg) latestBlock
                (b + (FLR_SCAN_BLOCKS cfg + 1))) as [ws'|] eqn:E; [|discriminate].
    intros [= <-]. cbn [runWindows fst snd]. unfold bind.
    destruct (callFetcher p b (Z.min (b + FLR_SCAN_BLOCKS cfg) latestBlock) db)
      as [[[res| |] db1] t1]; try reflexivity.
    destruct res as [logs|err]; [|reflexivity].
    destruct (commitWindow cfg now p key logs db1) as [[[[]| |] db2] t2];
      try reflexivity.
    now rewrite (IH _ _ _ _ E).
  - intros [= <-]. reflexivity.
Qed.

Lemma lastBlockOf_snoc (ws : list window) (w : window) (b : Z) :
  lastBlockOf (ws ++ [w]) b = snd w.
Proof. unfold lastBlockOf. now rewrite fold_left_app. Qed.

Lemma commitWindows_snoc (ws : list window) (w : window) (db : database) :
  commitWindows now p key (ws ++ [w]) db
  = insertAll now key (eventsOf p w) (commitWindows now p key ws db).
Proof. unfold commitWindows. now rewrite fold_left_app. Qed.

(** The windows that go through, one after the other. *)
Lemma runWindows_through (pre rest : list window) :
  Forall (windowOk p) pre ->
  forall lastGoodBlock db,
    runWindows cfg now p key (pre ++ rest) lastGoodBlock db
    = let '(o, db', tr) :=
        runWindows cfg now p key rest (lastBlockOf pre lastGoodBlock)
          (commitWindows now p key pre db) in
      (o, db', (flat_map (windowTrace cfg p) pre ++ tr)%list).
Proof.
  induction 1 as [|w pre [[logs Hfetch] Hres] _ IH]; intros lg db.
  - cbn. now destruct (runWindows cfg now p key rest lg db) as [[o db'] tr].
  - cbn [app runWindows]. unfold bind at 1. unfold callFetcher.
    assert (Hlogs : logsOf p w = logs) by (unfold logsOf; now rewrite Hfetch).
    destruct (getLogsWithRetry p (fst w) (snd w) None) as [r tr0] eqn:Hget.
    cbn [fst] in Hfetch. subst r. unfold bind.
    rewrite Hlogs in Hres.
    rewrite (commitWindow_resolved logs _ db (lookupsResolve_resolved _ Hres)).
    rewrite IH.
    assert (Hev : eventsOf p w = decodeTransfers (timestampsOf p logs) logs)
      by (unfold eventsOf; now rewrite Hlogs).
    assert (Htr : windowTrace cfg p w
                  = (tr0 ++ map IoGetBlock (uniqueBlocks logs ∅)
                     ++ (if bool_decide (decodeTransfers (timestampsOf p logs) logs <> [])
                         then [IoTransaction
                                 (length (decodeTransfers (timestampsOf p logs) logs))]
                         else [])
                     ++ (if 0 <? FLR_PAUSE_MS cfg then [IoSleep (FLR_PAUSE_MS cfg)]
                         else []))%list).
    { unfold windowTrace. now rewrite Hev, Hlogs, Hget. }
    cbn [flat_map]. rewrite Htr.
    unfold lastBlockOf, commitWindows. cbn [fold_left]. rewrite Hev.
    fold (lastBlockOf pre (snd w)).
    fold (commitWindows now p key pre
            (insertAll now key (decodeTransfers (timestampsOf p logs) logs) db)).
    destruct (runWindows cfg now p key rest (lastBlockOf pre (snd w))
                (commitWindows now p key pre
                   (insertAll now key
                      (decodeTransfers (timestampsOf p logs) logs) db)))
      as [[o db'] tr].
    now rewrite <- !app_assoc.
Qed.

(** A fetch that fails ends the loop where it is. *)
Lemma runWindows_stops (w : window) (rest : list window) (lastGoodBlock : Z)
    (db : database) :
  fetchFails p w ->
  runWindows cfg now p key (w :: rest) lastGoodBlock db
  = (Returned lastGoodBlock, db, snd (getLogsWithRetry p (fst w) (snd w) None)).
Proof.
  intros [err Herr]. cbn [runWindows]. unfold bind, callFetcher.
  destruct (getLogsWithRetry p (fst w) (snd w) None) as [r tr].
  cbn [fst] in Herr. subst r. cbn. now rewrite app_nil_r.
Qed.

End Loop.

(** ** One run of the scan *)

Section RunFacts.

Variable cfg : config.
Variable now : Z.
Variable p : provider.
Variable key : string.

Lemma insertTransfer_cursors (e : transferEvent) (db : database) :
  scan_cursors (insertTransfer now key e db) = scan_cursors db.
Proof. unfold insertTransfer. now destruct (bool_decide _). Qed.

Lemma insertAll_cursors (items : list transferEvent) :
  forall db, scan_cursors (insertAll now key items db) = scan_cursors db.
Proof.
  induction items as [|e items IH]; intros db; cbn [insertAll]; [reflexivity|].
  now rewrite IH, insertTransfer_cursors.
Qed.

Lemma commitWindows_cursors (ws : list window) :
  forall db, scan_cursors (commitWindows now p key ws db) = scan_cursors db.
Proof.
  induction ws as [|w ws IH]; intros db; [reflexivity|].
  change (commitWindows now p key (w :: ws) db)
    with (commitWindows now p key ws (insertAll now key (eventsOf p w) db)).
  now rewrite IH, insertAll_cursors.
Qed.

Lemma lastBlockOf_reaches (latestBlock b : Z) (pre rest : list window) (x : Z) :
  0 <= FLR_SCAN_BLOCKS cfg ->
  tiling (FLR_SCAN_BLOCKS cfg) latestBlock b (pre ++ rest) ->
  pre <> [] ->
  b <= lastBlockOf pre x <= latestBlock.
Proof.
  intros Hw Ht Hne.
  destruct (exists_last Hne) as (pre' & w & ->).
  rewrite lastBlockOf_snoc.
  assert (Hi : ((pre' ++ [w]) ++ rest) !! length pre' = Some w).
  { rewrite <- app_assoc. now apply list_lookup_middle. }
  destruct (tiling_lookup _ _ _ _ Hw Ht _ _ Hi) as (H1 & _ & H3 & H4).
  nia.
Qed.

(** The run, when the windows of [pre] go through and the loop then ends:
    because the schedule does, or because the next fetch fails. *)
Lemma scan_run (fuel : nat) (default_start_block : Z) (db : database)
    (cursor : cursorRow) (latestBlock : Z) (pre rest : list window) :
  let db1 := ensureCursor now (cursorKeyOf key) default_start_block db in
  let fromBlock :=
    resumeBlock cfg (start_block cursor) (last_scanned_block cursor) in
  scan_cursors db1 !! cursorKeyOf key = Some cursor ->
  getBlockNumber p = Resolved latestBlock ->
  fromBlock <= latestBlock ->
  0 <= FLR_SCAN_BLOCKS cfg ->
  scheduleWindows fuel (FLR_SCAN_BLOCKS cfg) latestBlock fromBlock
    = Some (pre ++ rest) ->
  Forall (windowOk p) pre ->
  (rest = [] \/ exists w rest', rest = w :: rest' /\ fetchFails p w) ->
  scanLoanNftTransfers cfg now p key fuel default_start_block db
  = (Returned tt,
     (if decide (pre = []) then db1
      else updateCursor now (cursorKeyOf key) (lastBlockOf pre (fromBlock - 1))
             (commitWindows now p key pre db1)),
     (IoGetBlockNumber :: flat_map (windowTrace cfg p) pre
      ++ match rest with
         | [] => []
         | w :: _ => snd (getLogsWithRetry p (fst w) (snd w) None)
         end)%list).
Proof.
  intros db1 fromBlock Hcur Hhead Hle Hw Hsched Hpre Hrest.
  pose proof (scheduleWindows_tiling _ _ _ _ _ Hsched) as Ht.
  unfold scanLoanNftTransfers.
  unfold bind at 1. unfold modify at 1. fold db1.
  unfold bind at 1. unfold getDb. rewrite Hcur.
  unfold bind at 1. unfold await. rewrite Hhead. fold fromBlock.
  replace (latestBlock <? fromBlock) with false by (symmetry; apply Z.ltb_ge; lia).
  unfold bind.
  rewrite (windowLoop_runWindows cfg now p key latestBlock fuel _ _ _ _ Hsched).
  rewrite (runWindows_through cfg now p key pre rest Hpre).
  assert (Hend : runWindows cfg now p key rest (lastBlockOf pre (fromBlock - 1))
                   (commitWindows now p key pre db1)
                 = (Returned (lastBlockOf pre (fromBlock - 1)),
                    commitWindows now p key pre db1,
                    match rest with
                    | [] => []
                    | w :: _ => snd (getLogsWithRetry p (fst w) (snd w) None)
                    end)).
  { destruct Hrest as [->|(w & rest' & -> & Hfail)]; [reflexivity|].
    now apply runWindows_stops. }
  rewrite Hend.
  destruct (decide (pre = [])) as [->|Hne].
  - cbn [lastBlockOf fold_left commitWindows flat_map app].
    replace (fromBlock <=? fromBlock - 1) with false
      by (symmetry; apply Z.leb_gt; lia).
    unfold ret. now rewrite !app_nil_r.
  - pose proof (lastBlockOf_reaches latestBlock fromBlock pre rest (fromBlock - 1)
                  Hw Ht Hne) as [Hlo _].
    replace (fromBlock <=? lastBlockOf pre (fromBlock - 1)) with true
      by (symmetry; apply Z.leb_le; lia).
    unfold modify. now rewrite !app_nil_r.
Qed.

End RunFacts.

(** ** What the trace of a run shows *)

Section TraceFacts.

Variable cfg : config.
Variable p : provider.

Lemma requestedWindows_app (t1 t2 : list io) :
  requestedWindows (t1 ++ t2) = (requestedWindows t1 ++ requestedWindows t2)%list.
Proof.
  induction t1 as [|e t1 IH]; [reflexivity|].
  destruct e as [|b t k| | |]; cbn [app requestedWindows]; try exact IH.
  destruct (k =? 1); [|exact IH]. cbn [app]. now rewrite IH.
Qed.

Lemma retryLoop_requests (fromBlock toBlock maxAttempts : Z) (remaining : nat) :
  forall attempt backoffMs, 0 <= attempt ->
    requestedWindows
      (snd (retryLoop p fromBlock toBlock maxAttempts remaining attempt backoffMs))
    = if (attempt =? 0) && negb (Nat.eqb remaining 0)
      then [(fromBlock, toBlock)] else [].
Proof.
  induction remaining as [|remaining IH]; intros attempt backoffMs Hpos.
  - cbn. now rewrite andb_false_r.
  - cbn [retryLoop Nat.eqb negb]. rewrite andb_true_r.
    assert (Hhead : requestedWindows [IoGetLogs fromBlock toBlock (attempt + 1)]
              = if attempt =? 0 then [(fromBlock, toBlock)] else []).
    { cbn [requestedWindows].
      destruct (Z.eqb_spec attempt 0) as [->|Hne]; [reflexivity|].
      now replace (attempt + 1 =? 1) with false by (symmetry; apply Z.eqb_neq; lia). }
    destruct (getLogs p fromBlock toBlock (attempt + 1)) as [logs|err];
      [exact Hhead|].
    destruct (negb _ || _); [exact Hhead|].
    specialize (IH (attempt + 1) (Z.min (backoffMs * 2) 10000) ltac:(lia)).
    destruct (retryLoop p fromBlock toBlock maxAttempts remaining (attempt + 1)
                (Z.min (backoffMs * 2) 10000)) as [res tr].
    cbn [snd] in *.
    change (IoGetLogs fromBlock toBlock (attempt + 1) :: IoSleep _ :: tr)
      with ([IoGetLogs fromBlock toBlock (attempt + 1)] ++ IoSleep (default backoffMs (parseRetryAfterMs err)) :: tr)%list.
    rewrite requestedWindows_app, Hhead. cbn [requestedWindows]. rewrite IH.
    replace (attempt + 1 =? 0) with false by (symmetry; apply Z.eqb_neq; lia).
    cbn [andb]. now rewrite app_nil_r.
Qed.

Lemma getLogsWithRetry_requests (fromBlock toBlock : Z) :
  requestedWindows (snd (getLogsWithRetry p fromBlock toBlock None))
  = [(fromBlock, toBlock)].
Proof.
  unfold getLogsWithRetry. now rewrite retryLoop_requests.
Qed.

Lemma requestedWindows_none (tr : list io) :
  Forall (fun e => isGetLogs e = false) tr -> requestedWindows tr = [].
Proof.
  induction 1 as [|e tr He _ IH]; [reflexivity|].
  destruct e; cbn [requestedWindows]; try exact IH. discriminate.
Qed.

Lemma windowTrace_requests (w : window) :
  requestedWindows (windowTrace cfg p w) = [w].
Proof.
  unfold windowTrace. rewrite requestedWindows_app, getLogsWithRetry_requests.
  rewrite requestedWindows_none; [now destruct w|].
  repeat apply Forall_app_2.
  - apply Forall_forall. intros e He. apply list_elem_of_In, in_map_iff in He.
    now destruct He as (bn & <- & _).
  - destruct (bool_decide _); repeat constructor.
  - destruct (0 <? FLR_PAUSE_MS cfg); repeat constructor.
Qed.

Lemma windowTraces_requests (ws : list window) :
  requestedWindows (flat_map (windowTrace cfg p) ws) = ws.
Proof.
  induction ws as [|w ws IH]; [reflexivity|].
  cbn [flat_map]. now rewrite requestedWindows_app, windowTrace_requests, IH.
Qed.

(** The fetcher runs no transaction. *)
Lemma retryLoop_no_transaction (fromBlock toBlock maxAttempts : Z) (remaining : nat) :
  forall attempt backoffMs,
    Forall (fun e => isTransaction e = false)
      (snd (retryLoop p fromBlock toBlock maxAttempts remaining attempt backoffMs)).
Proof.
  induction remaining as [|remaining IH]; intros attempt backoffMs; cbn [retryLoop].
  - constructor.
  - destruct (getLogs p fromBlock toBlock (attempt + 1)) as [logs|err];
      [repeat constructor|].
    destruct (negb _ || _); [repeat constructor|].
    specialize (IH (attempt + 1) (Z.min (backoffMs * 2) 10000)).
    destruct (retryLoop p fromBlock toBlock maxAttempts remaining (attempt + 1)
                (Z.min (backoffMs * 2) 10000)) as [res tr].
    cbn [snd] in *. repeat constructor. exact IH.
Qed.

(** A window without events runs no transaction. *)
Lemma windowTrace_no_transaction (w : window) :
  eventsOf p w = [] ->
  Forall (fun e => isTransaction e = false) (windowTrace cfg p w).
Proof.
  intros Hnil. unfold windowTrace. rewrite Hnil.
  rewrite bool_decide_eq_false_2 by (intros H; now apply H).
  repeat apply Forall_app_2.
  - apply retryLoop_no_transaction.
  - apply Forall_forall. intros e He. apply list_elem_of_In, in_map_iff in He.
    now destruct He as (bn & <- & _).
  - constructor.
  - destruct (0 <? FLR_PAUSE_MS cfg); repeat constructor.
Qed.

End TraceFacts.

(** ** The persistence writer *)

Section Writer.

Variable key : string.

(** An insert whose triple is stored leaves the rows and the cursors alone
    and uses up a row id. *)
Lemma insertTransfer_conflict (now : Z) (e : transferEvent) (db : database) :
  eventKey key e ∈ map rowKey (loan_nft_transfers db) ->
  insertTransfer now key e db
  = mkDb (scan_cursors db) (loan_nft_transfers db)
      (Z.max (transfers_seq db) (maxRowId (loan_nft_transfers db)) + 1).
Proof.
  intros Hin. unfold insertTransfer.
  now rewrite bool_decide_eq_true_2 by exact Hin.
Qed.

(** Every insert moves the sequence on. *)
Lemma insertTransfer_seq (now : Z) (e : transferEvent) (db : database) :
  transfers_seq (insertTransfer now key e db)
  = Z.max (transfers_seq db) (maxRowId (loan_nft_transfers db)) + 1.
Proof. unfold insertTransfer. now destruct (bool_decide _). Qed.

Lemma insertAll_seq (now : Z) (items : list transferEvent) :
  forall db, transfers_seq db <= transfers_seq (insertAll now key items db).
Proof.
  induction items as [|e items IH]; intros db; cbn [insertAll]; [lia|].
  specialize (IH (insertTransfer now key e db)).
  rewrite insertTransfer_seq in IH. lia.
Qed.

Lemma insertTransfer_keys (now : Z) (e : transferEvent) (db : database) :
  map rowKey (loan_nft_transfers (insertTransfer now key e db))
  = if bool_decide (eventKey key e ∈ map rowKey (loan_nft_transfers db))
    then map rowKey (loan_nft_transfers db)
    else (map rowKey (loan_nft_transfers db) ++ [eventKey key e])%list.
Proof.
  unfold insertTransfer, eventKey.
  destruct (bool_decide _); [reflexivity|].
  cbn [loan_nft_transfers]. now rewrite map_app.
Qed.

Lemma insertTransfer_stored (now : Z) (e : transferEvent) (db : database) :
  eventKey key e ∈ map rowKey (loan_nft_transfers (insertTransfer now key e db)).
Proof.
  rewrite insertTransfer_keys.
  destruct (decide (eventKey key e ∈ map rowKey (loan_nft_transfers db))) as [Hin|Hout].
  - now rewrite bool_decide_eq_true_2.
  - rewrite bool_decide_eq_false_2 by exact Hout.
    apply elem_of_app. right. left.
Qed.

Lemma insertTransfer_extends (now : Z) (e : transferEvent) (db : database) :
  exists more,
    loan_nft_transfers (insertTransfer now key e db)
    = (loan_nft_transfers db ++ more)%list.
Proof.
  unfold insertTransfer. destruct (bool_decide _).
  - exists []. now rewrite app_nil_r.
  - eexists. reflexivity.
Qed.

Lemma insertAll_extends (now : Z) (items : list transferEvent) :
  forall db, exists more,
    loan_nft_transfers (insertAll now key items db)
    = (loan_nft_transfers db ++ more)%list.
Proof.
  induction items as [|e items IH]; intros db; cbn [insertAll].
  - exists []. now rewrite app_nil_r.
  - destruct (IH (insertTransfer now key e db)) as [more2 H2].
    destruct (insertTransfer_extends now e db) as [more1 H1].
    exists (more1 ++ more2)%list. now rewrite H2, H1, app_assoc.
Qed.

Lemma insertAll_keeps_keys (now : Z) (items : list transferEvent) (db : database)
    (k : string * string * Z) :
  k ∈ map rowKey (loan_nft_transfers db) ->
  k ∈ map rowKey (loan_nft_transfers (insertAll now key items db)).
Proof.
  intros Hin. destruct (insertAll_extends now items db) as [more ->].
  rewrite map_app. apply elem_of_app. now left.
Qed.

Lemma insertAll_stored (now : Z) (items : list transferEvent) :
  forall db e, e ∈ items ->
    eventKey key e ∈ map rowKey (loan_nft_transfers (insertAll now key items db)).
Proof.
  induction items as [|e0 items IH]; intros db e Hin; [inversion Hin|].
  cbn [insertAll]. apply elem_of_cons in Hin as [->|Hin].
  - apply insertAll_keeps_keys, insertTransfer_stored.
  - now apply IH.
Qed.

(** A batch whose keys are all stored changes no row and no cursor. *)
Lemma insertAll_conflicts (now : Z) (items : list transferEvent) :
  forall db,
    (forall e, e ∈ items -> eventKey key e ∈ map rowKey (loan_nft_transfers db)) ->
    loan_nft_transfers (insertAll now key items db) = loan_nft_transfers db
    /\ scan_cursors (insertAll now key items db) = scan_cursors db.
Proof.
  induction items as [|e items IH]; intros db Hall; cbn [insertAll];
    [now split|].
  rewrite insertTransfer_conflict by (apply Hall; left).
  set (db' := mkDb _ _ _).
  destruct (IH db') as [Hrows Hcursors].
  { intros e' Hin. apply Hall. now right. }
  now rewrite Hrows, Hcursors.
Qed.

Lemma insertTransfer_unique (now : Z) (e : transferEvent) (db : database) :
  uniqueKeys db -> uniqueKeys (insertTransfer now key e db).
Proof.
  unfold uniqueKeys. intros Hnd. rewrite insertTransfer_keys.
  destruct (decide (eventKey key e ∈ map rowKey (loan_nft_transfers db))) as [Hin|Hout].
  - now rewrite bool_decide_eq_true_2.
  - rewrite bool_decide_eq_false_2 by exact Hout.
    apply NoDup_app. split; [exact Hnd|]. split.
    + intros k Hk Hk'. apply list_elem_of_singleton in Hk'. now subst k.
    + apply NoDup_singleton.
Qed.

Lemma insertAll_unique (now : Z) (items : list transferEvent) :
  forall db, uniqueKeys db -> uniqueKeys (insertAll now key items db).
Proof.
  induction items as [|e items IH]; intros db Hnd; cbn [insertAll]; [exact Hnd|].
  now apply IH, insertTransfer_unique.
Qed.

(** In a table with unique keys a stored key has exactly one row. *)
Lemma rowsWithKey_one (k : string * string * Z) (db : database) :
  uniqueKeys db ->
  k ∈ map rowKey (loan_nft_transfers db) ->
  length (rowsWithKey k db) = 1%nat.
Proof.
  unfold uniqueKeys, rowsWithKey.
  induction (loan_nft_transfers db) as [|r rows IH]; cbn [map];
    intros Hnd Hin; [inversion Hin|].
  apply NoDup_cons in Hnd as [Hnotin Hnd]. rewrite filter_cons.
  destruct (decide (rowKey r = k)) as [<-|Hne].
  - cbn [length]. f_equal.
    assert (Hnone : filter (fun r0 => rowKey r0 = rowKey r) rows = []).
    { clear IH Hnd Hin. induction rows as [|r' rows IH]; [reflexivity|].
      rewrite filter_cons. destruct (decide (rowKey r' = rowKey r)) as [Heq|_].
      - exfalso. apply Hnotin. rewrite <- Heq. left.
      - apply IH. intros Hin. apply Hnotin. now right. }
    now rewrite Hnone.
  - apply IH; [exact Hnd|]. apply elem_of_cons in Hin as [?|?]; congruence.
Qed.

End Writer.

(** C1. An insert whose triple is stored changes no row and no cursor; it
    only uses up a row id.  A batch whose triples were all in an earlier
    batch leaves the rows as they are after it, whatever its other fields
    and whenever it is committed: so committing a batch twice gives the rows
    of committing it once, the transaction returns, the rows that were there
    are still there unchanged, keys stay unique, and two events of separate
    commits that share a triple leave exactly one row for it; two logs with
    the same transaction hash and stable log index decode to events with the
    same triple. *)
Theorem commit_is_idempotent_on_the_event_key
    (now1 now2 : Z) (key : string) (items items' : list transferEvent)
    (db : database) (Hunique : uniqueKeys db) :
  (forall e, eventKey key e ∈ map rowKey (loan_nft_transfers db) ->
     loan_nft_transfers (insertTransfer now2 key e db) = loan_nft_transfers db
     /\ scan_cursors (insertTransfer now2 key e db) = scan_cursors db
     /\ transfers_seq db < transfers_seq (insertTransfer now2 key e db))
  /\ loan_nft_transfers (insertAll now2 key items (insertAll now1 key items db))
     = loan_nft_transfers (insertAll now1 key items db)
  /\ ((forall e', e' ∈ items' -> exists e, e ∈ items /\ eventKey key e' = eventKey key e) ->
      loan_nft_transfers (insertAll now2 key items' (insertAll now1 key items db))
      = loan_nft_transfers (insertAll now1 key items db)
      /\ scan_cursors (insertAll now2 key items' (insertAll now1 key items db))
         = scan_cursors (insertAll now1 key items db))
  /\ (let r := transaction now2 key items (insertAll now1 key items db) in
      fst (fst r) = Returned tt
      /\ loan_nft_transfers (snd (fst r))
         = loan_nft_transfers (insertAll now1 key items db)
      /\ snd r = [IoTransaction (length items)])
  /\ (exists more,
        loan_nft_transfers (insertAll now1 key items db)
        = (loan_nft_transfers db ++ more)%list)
  /\ uniqueKeys (insertAll now2 key items' (insertAll now1 key items db))
  /\ (forall e, e ∈ items ->
        length (rowsWithKey (eventKey key e) (insertAll now1 key items db)) = 1%nat)
  /\ (forall e1 e2, e1 ∈ items -> e2 ∈ items' ->
        eventKey key e1 = eventKey key e2 ->
        length (rowsWithKey (eventKey key e1)
                  (insertAll now2 key items' (insertAll now1 key items db)))
        = 1%nat)
  /\ (forall m1 m2 lg1 lg2 e1 e2,
        decodeTransfer m1 lg1 = Some e1 -> decodeTransfer m2 lg2 = Some e2 ->
        lg_transactionHash lg1 = lg_transactionHash lg2 ->
        getStableLogIndex lg1 = getStableLogIndex lg2 ->
        eventKey key e1 = eventKey key e2).
Proof.
  assert (Hsame : forall its, (forall e', e' ∈ its ->
              exists e, e ∈ items /\ eventKey key e' = eventKey key e) ->
            loan_nft_transfers (insertAll now2 key its (insertAll now1 key items db))
            = loan_nft_transfers (insertAll now1 key items db)
            /\ scan_cursors (insertAll now2 key its (insertAll now1 key items db))
               = scan_cursors (insertAll now1 key items db)).
  { intros its Hcov. apply insertAll_conflicts. intros e' Hin.
    destruct (Hcov e' Hin) as (e & He & ->). now apply insertAll_stored. }
  assert (Htwice : loan_nft_transfers
                     (insertAll now2 key items (insertAll now1 key items db))
                   = loan_nft_transfers (insertAll now1 key items db)).
  { apply Hsame. eauto. }
  split; [|split; [|split; [|split; [|split; [|split; [|split; [|split]]]]]]].
  - intros e He. rewrite (insertTransfer_conflict key now2 e db He).
    cbn [loan_nft_transfers scan_cursors transfers_seq]. repeat split. lia.
  - exact Htwice.
  - exact (Hsame items').
  - unfold transaction. cbn [fst snd]. now rewrite Htwice.
  - apply insertAll_extends.
  - now apply insertAll_unique, insertAll_unique.
  - intros e He. apply rowsWithKey_one.
    + now apply insertAll_unique.
    + now apply insertAll_stored.
  - intros e1 e2 H1 H2 Hkey. apply rowsWithKey_one.
    + now apply insertAll_unique, insertAll_unique.
    + rewrite Hkey. now apply insertAll_stored.
  - intros m1 m2 lg1 lg2 e1 e2 H1 H2 Hhash Hidx.
    destruct (decodeTransfer_key _ _ _ H1) as [A1 B1].
    destruct (decodeTransfer_key _ _ _ H2) as [A2 B2].
    unfold eventKey. congruence.
Qed.

(** A batch committed twice, and a replay of one of its logs. *)
Lemma commit_is_idempotent_on_the_event_key_witness :
  loan_nft_transfers
    (insertAll 2 "k" [transferA; transferB]
       (insertAll 1 "k" [transferA; transferB] emptyStore))
  = loan_nft_transfers (insertAll 1 "k" [transferA; transferB] emptyStore)
  /\ length (rowsWithKey (eventKey "k" transferA)
               (insertAll 2 "k" [transferA']
                  (insertAll 1 "k" [transferA; transferB] emptyStore))) = 1%nat.
Proof.
  destruct (commit_is_idempotent_on_the_event_key 1 2 "k"
              [transferA; transferB] [transferA'] emptyStore (NoDup_nil_2))
    as (_ & Htwice & _ & _ & _ & _ & _ & Hone & _).
  split; [exact Htwice|].
  apply (Hone transferA transferA'); [left | left | reflexivity].
Defined.

(** ** Runs, summarised *)

Section RunOutcomes.

Variable cfg : config.
Variable now : Z.
Variable p : provider.
Variable key : string.

Lemma lastScanned_updateCursor (db : database) (cursorKey : string) (b : Z)
    (c : cursorRow) :
  scan_cursors db !! cursorKey = Some c ->
  scan_cursors (updateCursor now cursorKey b db) !! cursorKey
  = Some (mkCursor (start_block c) b now).
Proof.
  intros Hc. unfold updateCursor. rewrite Hc. cbn [scan_cursors].
  apply lookup_insert_eq.
Qed.

Lemma updateCursor_rows (db : database) (cursorKey : string) (b : Z) :
  loan_nft_transfers (updateCursor now cursorKey b db) = loan_nft_transfers db.
Proof. unfold updateCursor. now destruct (scan_cursors db !! cursorKey). Qed.

Lemma ensureCursor_rows (db : database) (cursorKey : string) (b : Z) :
  loan_nft_transfers (ensureCursor now cursorKey b db) = loan_nft_transfers db.
Proof. unfold ensureCursor. now destruct (scan_cursors db !! cursorKey). Qed.

Lemma ensureCursor_present (db : database) (cursorKey : string) (b : Z)
    (c : cursorRow) :
  scan_cursors db !! cursorKey = Some c -> ensureCursor now cursorKey b db = db.
Proof. intros Hc. unfold ensureCursor. now rewrite Hc. Qed.

Lemma ensureCursor_lookup (db : database) (cursorKey : string) (b : Z) :
  scan_cursors (ensureCursor now cursorKey b db) !! cursorKey
  = Some (default (mkCursor b 0 now) (scan_cursors db !! cursorKey)).
Proof.
  unfold ensureCursor. destruct (scan_cursors db !! cursorKey) as [c|] eqn:E.
  - now rewrite E.
  - cbn [scan_cursors default]. apply lookup_insert_eq.
Qed.

Lemma commitWindows_extends (ws : list window) :
  forall db, exists more,
    loan_nft_transfers (commitWindows now p key ws db)
    = (loan_nft_transfers db ++ more)%list.
Proof.
  induction ws as [|w ws IH]; intros db.
  - exists []. now rewrite app_nil_r.
  - change (commitWindows now p key (w :: ws) db)
      with (commitWindows now p key ws (insertAll now key (eventsOf p w) db)).
    destruct (IH (insertAll now key (eventsOf p w) db)) as [more2 H2].
    destruct (insertAll_extends key now (eventsOf p w) db) as [more1 H1].
    exists (more1 ++ more2)%list. now rewrite H2, H1, app_assoc.
Qed.

Lemma commitWindows_empty (ws : list window) :
  Forall (fun w => eventsOf p w = []) ws ->
  forall db, commitWindows now p key ws db = db.
Proof.
  induction 1 as [|w ws Hw _ IH]; intros db; [reflexivity|].
  change (commitWindows now p key (w :: ws) db)
    with (commitWindows now p key ws (insertAll now key (eventsOf p w) db)).
  now rewrite Hw, IH.
Qed.

Lemma getLogsWithRetry_first (fromBlock toBlock : Z) :
  exists tr, snd (getLogsWithRetry p fromBlock toBlock None)
             = IoGetLogs fromBlock toBlock 1 :: tr.
Proof.
  unfold getLogsWithRetry. cbn [default].
  change (Z.to_nat 6) with 6%nat. cbn [retryLoop].
  change (0 + 1) with 1.
  destruct (getLogs p fromBlock toBlock 1) as [logs|err]; [eexists; reflexivity|].
  destruct (negb _ || _); [eexists; reflexivity|].
  destruct (getLogs p fromBlock toBlock (1 + 1)) as [logs2|err2]; [eexists; reflexivity|].
  match goal with |- context [let '(res, tr) := ?x in _] => destruct x as [res tr] end.
  eexists; reflexivity.
Qed.

(** The first request of a run is for the window at the resume block. *)
Lemma scan_first_request (fuel : nat) (default_start_block : Z) (db : database)
    (cursor : cursorRow) (latestBlock : Z) :
  let fromBlock :=
    resumeBlock cfg (start_block cursor) (last_scanned_block cursor) in
  scan_cursors (ensureCursor now (cursorKeyOf key) default_start_block db)
    !! cursorKeyOf key = Some cursor ->
  getBlockNumber p = Resolved latestBlock ->
  fromBlock <= latestBlock ->
  (0 < fuel)%nat ->
  exists tr,
    snd (scanLoanNftTransfers cfg now p key fuel default_start_block db)
    = IoGetBlockNumber
      :: IoGetLogs fromBlock (Z.min (fromBlock + FLR_SCAN_BLOCKS cfg) latestBlock) 1
      :: tr.
Proof.
  intros fromBlock Hcur Hhead Hle Hfuel.
  destruct fuel as [|fuel]; [lia|].
  unfold scanLoanNftTransfers.
  unfold bind at 1. unfold modify at 1.
  unfold bind at 1. unfold getDb. rewrite Hcur.
  unfold bind at 1. unfold await. rewrite Hhead. fold fromBlock.
  replace (latestBlock <? fromBlock) with false by (symmetry; apply Z.ltb_ge; lia).
  cbn [windowLoop].
  replace (fromBlock <=? latestBlock) with true by (symmetry; apply Z.leb_le; lia).
  unfold bind, callFetcher.
  destruct (getLogsWithRetry_first fromBlock
              (Z.min (fromBlock + FLR_SCAN_BLOCKS cfg) latestBlock)) as [tr0 Htr0].
  destruct (getLogsWithRetry p fromBlock
              (Z.min (fromBlock + FLR_SCAN_BLOCKS cfg) latestBlock) None)
    as [res tr1].
  cbn [snd] in Htr0. subst tr1.
  destruct res as [logs|err].
  - destruct (commitWindow cfg now p key logs _) as [[[[]| |] db2] t2];
      try (eexists; reflexivity).
    destruct (windowLoop cfg now p key fuel latestBlock _ _ db2)
      as [[[lg| |] db3] t3]; try (eexists; reflexivity).
    destruct (fromBlock <=? lg); eexists; reflexivity.
  - cbn. destruct (fromBlock <=? fromBlock - 1); eexists; reflexivity.
Qed.

End RunOutcomes.

Lemma scenario_schedule (fuel : nat) :
  (enoughFuel 2000 995 <= fuel)%nat ->
  scheduleWindows fuel 499 2000 995 = Some scenarioWindows.
Proof.
  intros Hfuel.
  destruct (scheduleWindows_enough 499 2000 fuel ltac:(lia) 995 Hfuel) as [ws Hws].
  rewrite Hws. f_equal.
  apply (tiling_unique 499 2000 995).
  - now apply (scheduleWindows_tiling _ _ fuel).
  - now apply (scheduleWindows_tiling _ _ 4).
Qed.

(** C3. The scan resumes at [max (start_block, last_scanned_block - overlap)]
    when [last_scanned_block > 0] and at [start_block] otherwise, and its
    first request for logs is for the window at that block.  With
    [last_scanned_block = 1000], an overlap of 5, a window size of 499 and the
    head at 2000 the scan starts at 995 and requests exactly the windows
    [[995,1494]], [[1495,1994]] and [[1995,2000]]. *)
Theorem resume_block_and_its_scenario :
  (forall cfg startBlock lastScanned, 0 < lastScanned ->
     resumeBlock cfg startBlock lastScanned
     = Z.max startBlock (lastScanned - OVERLAP_BLOCKS cfg))
  /\ (forall cfg startBlock lastScanned, lastScanned <= 0 ->
        resumeBlock cfg startBlock lastScanned = startBlock)
  /\ (forall cfg now p key fuel default_start_block db cursor latestBlock,
        scan_cursors (ensureCursor now (cursorKeyOf key) default_start_block db)
          !! cursorKeyOf key = Some cursor ->
        getBlockNumber p = Resolved latestBlock ->
        resumeBlock cfg (start_block cursor) (last_scanned_block cursor)
          <= latestBlock ->
        (0 < fuel)%nat ->
        exists tr,
          snd (scanLoanNftTransfers cfg now p key fuel default_start_block db)
          = IoGetBlockNumber
            :: IoGetLogs
                 (resumeBlock cfg (start_block cursor) (last_scanned_block cursor))
                 (Z.min (resumeBlock cfg (start_block cursor)
                           (last_scanned_block cursor) + FLR_SCAN_BLOCKS cfg)
                    latestBlock) 1
            :: tr)
  /\ (forall pause now p key fuel default_start_block db cursor,
        let cfg := mkConfig 499 pause 5 in
        let r := scanLoanNftTransfers cfg now p key fuel default_start_block db in
        scan_cursors (ensureCursor now (cursorKeyOf key) default_start_block db)
          !! cursorKeyOf key = Some cursor ->
        last_scanned_block cursor = 1000 ->
        start_block cursor <= 995 ->
        getBlockNumber p = Resolved 2000 ->
        (forall w, windowOk p w) ->
        (enoughFuel 2000 995 <= fuel)%nat ->
        resumeBlock cfg (start_block cursor) (last_scanned_block cursor) = 995
        /\ scheduleWindows fuel 499 2000 995 = Some scenarioWindows
        /\ fst (fst r) = Returned tt
        /\ requestedWindows (snd r) = scenarioWindows).
Proof.
  split; [|split; [|split]].
  - intros cfg s l Hl. unfold resumeBlock.
    now replace (0 <? l) with true by (symmetry; apply Z.ltb_lt; lia).
  - intros cfg s l Hl. unfold resumeBlock.
    now replace (0 <? l) with false by (symmetry; apply Z.ltb_ge; lia).
  - intros cfg now p key fuel dsb db cursor latestBlock Hcur Hhead Hle Hfuel.
    now apply scan_first_request.
  - intros pause now p key fuel dsb db cursor cfg r Hcur Hlast Hstart Hhead Hok Hfuel.
    assert (Hfrom : resumeBlock cfg (start_block cursor) (last_scanned_block cursor)
                    = 995).
    { unfold resumeBlock, cfg. rewrite Hlast. cbn [OVERLAP_BLOCKS].
      change (0 <? 1000) with true. cbv iota. lia. }
    pose proof (scenario_schedule fuel Hfuel) as Hsched.
    split; [exact Hfrom|]. split; [exact Hsched|].
    pose proof (scan_run cfg now p key fuel dsb db cursor 2000 scenarioWindows []) as Hrun.
    cbv zeta in Hrun. rewrite Hfrom, app_nil_r in Hrun.
    specialize (Hrun Hcur Hhead ltac:(lia) ltac:(cbn; lia) Hsched).
    specialize (Hrun ltac:(apply Forall_forall; intros; apply Hok) ltac:(now left)).
    subst r. rewrite Hrun. cbn [fst snd]. split; [reflexivity|].
    rewrite app_nil_r.
    change (IoGetBlockNumber :: ?t) with ([IoGetBlockNumber] ++ t)%list.
    rewrite requestedWindows_app. cbn [requestedWindows app].
    apply windowTraces_requests.
Qed.

Lemma tiling_last (scanBlocks latestBlock b : Z) (l : list window) :
  tiling scanBlocks latestBlock b l ->
  forall ws w, l = (ws ++ [w])%list -> snd w = latestBlock.
Proof.
  induction 1 as [b Hb|b ws0 Hb Hrest IH]; intros ws w Heq.
  - now destruct ws.
  - destruct ws as [|w0 ws].
    + cbn in Heq. injection Heq as <- ->. inversion Hrest; subst. cbn [snd]. lia.
    + cbn in Heq. injection Heq as _ ->. now apply (IH ws w).
Qed.

Section RunSummary.

Variable cfg : config.
Variable now : Z.
Variable p : provider.
Variable key : string.

(** The store and the requests of a run whose windows [pre] go through and
    whose loop then ends, from [scan_run]. *)
Lemma scan_run_summary (fuel : nat) (default_start_block : Z) (db : database)
    (cursor : cursorRow) (latestBlock : Z) (pre rest : list window) :
  let ck := cursorKeyOf key in
  let db1 := ensureCursor now ck default_start_block db in
  let fromBlock :=
    resumeBlock cfg (start_block cursor) (last_scanned_block cursor) in
  let r := scanLoanNftTransfers cfg now p key fuel default_start_block db in
  scan_cursors db1 !! ck = Some cursor ->
  getBlockNumber p = Resolved latestBlock ->
  fromBlock <= latestBlock ->
  0 <= FLR_SCAN_BLOCKS cfg ->
  scheduleWindows fuel (FLR_SCAN_BLOCKS cfg) latestBlock fromBlock
    = Some (pre ++ rest) ->
  Forall (windowOk p) pre ->
  (rest = [] \/ exists w rest', rest = w :: rest' /\ fetchFails p w) ->
  fst (fst r) = Returned tt
  /\ requestedWindows (snd r) = (pre ++ firstn 1 rest)%list
  /\ (pre = [] -> snd (fst r) = db1)
  /\ (forall pre' wl, pre = (pre' ++ [wl])%list ->
        scan_cursors (snd (fst r)) !! ck
        = Some (mkCursor (start_block cursor) (snd wl) now))
  /\ loan_nft_transfers (snd (fst r))
     = loan_nft_transfers (commitWindows now p key pre db1)
  /\ (Forall (fun w => eventsOf p w = []) pre ->
      Forall (fun e => isTransaction e = false) (snd r)).
Proof.
  intros ck db1 fromBlock r Hcur Hhead Hle Hw Hsched Hpre Hstop.
  pose proof (scan_run cfg now p key fuel default_start_block db cursor
                latestBlock pre rest Hcur Hhead Hle Hw Hsched Hpre Hstop) as Hrun.
  fold db1 fromBlock ck in Hrun. subst r. rewrite Hrun. cbn [fst snd].
  split; [reflexivity|]. split; [|split; [|split; [|split]]].
  - change (IoGetBlockNumber :: ?t) with ([IoGetBlockNumber] ++ t)%list.
    rewrite !requestedWindows_app, windowTraces_requests. cbn [requestedWindows app].
    f_equal. destruct rest as [|w rest']; [reflexivity|].
    rewrite getLogsWithRetry_requests. now destruct w.
  - intros ->. reflexivity.
  - intros pre' wl ->. rewrite decide_False by (now destruct pre').
    rewrite lastBlockOf_snoc.
    apply lastScanned_updateCursor. now rewrite commitWindows_cursors.
  - destruct (decide (pre = [])) as [->|Hne]; [reflexivity|].
    apply updateCursor_rows.
  - intros Hempty. constructor; [reflexivity|]. apply Forall_app_2.
    + apply Forall_flat_map. eapply Forall_impl; [exact Hempty|].
      intros w Hnil. now apply windowTrace_no_transaction.
    + destruct rest as [|w rest']; [constructor|].
      apply retryLoop_no_transaction.
Qed.

End RunSummary.

(** C2. From [fromBlock <= headBlock] and a window size that is not negative
    the loop ends and its windows tile the range: the [i]-th is
    [[b, min (b + windowSize, headBlock)]] for [b = fromBlock + i (windowSize
    + 1)], each starts right after the one before, no two share a block, and a
    block is in a window exactly when it is in [[fromBlock, headBlock]].  From
    [fromBlock > headBlock] there is no window, and the scan returns after
    reading the head block: no logs are requested and the store is as
    [ensureCursor] left it.  The windows of the schedule are the ones the scan
    requests when every window goes through. *)
Theorem window_schedule_tiles_the_scan_range
    (windowSize fromBlock headBlock : Z) (fuel : nat) :
  (fromBlock <= headBlock -> 0 <= windowSize ->
   (enoughFuel headBlock fromBlock <= fuel)%nat ->
   exists ws,
     scheduleWindows fuel windowSize headBlock fromBlock = Some ws
     /\ ws <> []
     /\ (forall (i : nat) w, ws !! i = Some w ->
           fst w = fromBlock + Z.of_nat i * (windowSize + 1)
           /\ snd w = Z.min (fst w + windowSize) headBlock
           /\ fst w <= snd w)
     /\ (forall (i : nat) w1 w2, ws !! i = Some w1 -> ws !! S i = Some w2 ->
           fst w2 = snd w1 + 1)
     /\ (forall (i j : nat) w1 w2, (i < j)%nat ->
           ws !! i = Some w1 -> ws !! j = Some w2 -> snd w1 < fst w2)
     /\ (forall x, fromBlock <= x <= headBlock <->
           exists w, w ∈ ws /\ fst w <= x <= snd w))
  /\ (headBlock < fromBlock ->
      scheduleWindows (S fuel) windowSize headBlock fromBlock = Some [])
  /\ (forall cfg now p key default_start_block db cursor,
        FLR_SCAN_BLOCKS cfg = windowSize ->
        scan_cursors (ensureCursor now (cursorKeyOf key) default_start_block db)
          !! cursorKeyOf key = Some cursor ->
        resumeBlock cfg (start_block cursor) (last_scanned_block cursor)
          = fromBlock ->
        getBlockNumber p = Resolved headBlock ->
        headBlock < fromBlock ->
        scanLoanNftTransfers cfg now p key fuel default_start_block db
        = (Returned tt,
           ensureCursor now (cursorKeyOf key) default_start_block db,
           [IoGetBlockNumber]))
  /\ (forall cfg now p key default_start_block db cursor ws,
        FLR_SCAN_BLOCKS cfg = windowSize ->
        scan_cursors (ensureCursor now (cursorKeyOf key) default_start_block db)
          !! cursorKeyOf key = Some cursor ->
        resumeBlock cfg (start_block cursor) (last_scanned_block cursor)
          = fromBlock ->
        getBlockNumber p = Resolved headBlock ->
        fromBlock <= headBlock -> 0 <= windowSize ->
        scheduleWindows fuel windowSize headBlock fromBlock = Some ws ->
        (forall w, windowOk p w) ->
        requestedWindows
          (snd (scanLoanNftTransfers cfg now p key fuel default_start_block db))
        = ws).
Proof.
  split; [|split; [|split]].
  - intros Hle Hw Hfuel.
    destruct (scheduleWindows_enough windowSize headBlock fuel Hw fromBlock Hfuel)
      as [ws Hws].
    pose proof (scheduleWindows_tiling _ _ _ _ _ Hws) as Ht.
    pose proof (tiling_lookup _ _ _ _ Hw Ht) as Hnth.
    exists ws. split; [exact Hws|]. split; [now apply (tiling_nonempty _ _ _ _ Hle Ht)|].
    split; [|split; [|split]].
    + intros i w Hi. destruct (Hnth i w Hi) as (H1 & H2 & H3 & _). auto.
    + intros i w1 w2 H1 H2.
      destruct (Hnth _ _ H1) as (A1 & A2 & _ & _).
      destruct (Hnth _ _ H2) as (B1 & _ & B3 & B4).
      rewrite Nat2Z.inj_succ in B1.
      replace (Z.succ (Z.of_nat i) * (windowSize + 1))
        with (Z.of_nat i * (windowSize + 1) + (windowSize + 1)) in B1 by ring.
      lia.
    + intros i j w1 w2 Hij H1 H2.
      destruct (Hnth _ _ H1) as (A1 & A2 & _ & _).
      destruct (Hnth _ _ H2) as (B1 & _ & _ & _).
      assert (Z.of_nat i + 1 <= Z.of_nat j) by lia. nia.
    + now apply (tiling_cover windowSize headBlock fromBlock ws).
  - apply scheduleWindows_past.
  - intros cfg now p key dsb db cursor Hcfg Hcur Hfrom Hhead Hgt.
    unfold scanLoanNftTransfers, bind, modify, getDb, await. cbn.
    rewrite Hcur, Hhead, Hfrom.
    replace (headBlock <? fromBlock) with true by (symmetry; apply Z.ltb_lt; lia).
    reflexivity.
  - intros cfg now p key dsb db cursor ws Hcfg Hcur Hfrom Hhead Hle Hw Hws Hok.
    destruct (scan_run_summary cfg now p key fuel dsb db cursor headBlock ws [])
      as (_ & Hreq & _); rewrite ?Hfrom, ?Hcfg, ?app_nil_r; auto.
    + apply Forall_forall. intros w _. apply Hok.
    + now rewrite app_nil_r in Hreq.
Qed.

(** The schedule at the scenario's range: three windows. *)
Lemma window_schedule_tiles_the_scan_range_witness :
  exists ws,
    scheduleWindows (enoughFuel 2000 995) 499 2000 995 = Some ws
    /\ ws <> []
    /\ (forall x, 995 <= x <= 2000 <-> exists w, w ∈ ws /\ fst w <= x <= snd w).
Proof.
  destruct (window_schedule_tiles_the_scan_range 499 995 2000 (enoughFuel 2000 995))
    as (Htile & _).
  destruct Htile as (ws & Hws & Hne & _ & _ & _ & Hcover); [lia | lia | lia |].
  exists ws. auto.
Defined.

(** C5. When the fetch of a window fails, as it does when every attempt is
    rejected with a retryable error, the run still returns normally: the
    windows before it were requested, it was, and none after it; the cursor
    holds the last block of the window before it (and the store is as
    [ensureCursor] left it when there is no such window); the rows committed
    by the windows before it are in the table, after the rows that were
    there. *)
Theorem failed_fetch_stops_the_loop_and_keeps_progress
    (cfg : config) (now : Z) (p : provider) (key : string) (fuel : nat)
    (default_start_block : Z) (db : database) (cursor : cursorRow)
    (latestBlock : Z) (pre : list window) (w : window) (rest : list window)
    (Hcursor : scan_cursors
                 (ensureCursor now (cursorKeyOf key) default_start_block db)
                 !! cursorKeyOf key = Some cursor)
    (Hhead : getBlockNumber p = Resolved latestBlock)
    (Hrange : resumeBlock cfg (start_block cursor) (last_scanned_block cursor)
              <= latestBlock)
    (Hsize : 0 <= FLR_SCAN_BLOCKS cfg)
    (Hschedule : scheduleWindows fuel (FLR_SCAN_BLOCKS cfg) latestBlock
                   (resumeBlock cfg (start_block cursor) (last_scanned_block cursor))
                 = Some (pre ++ w :: rest)%list)
    (Hbefore : Forall (windowOk p) pre)
    (Hfails : fetchFails p w) :
  let db1 := ensureCursor now (cursorKeyOf key) default_start_block db in
  let r := scanLoanNftTransfers cfg now p key fuel default_start_block db in
  fst (fst r) = Returned tt
  /\ requestedWindows (snd r) = (pre ++ [w])%list
  /\ (pre = [] -> snd (fst r) = db1)
  /\ (forall pre' wl, pre = (pre' ++ [wl])%list ->
        scan_cursors (snd (fst r)) !! cursorKeyOf key
        = Some (mkCursor (start_block cursor) (snd wl) now))
  /\ loan_nft_transfers (snd (fst r))
     = loan_nft_transfers (commitWindows now p key pre db1)
  /\ (exists more,
        loan_nft_transfers (snd (fst r)) = (loan_nft_transfers db ++ more)%list)
  /\ (forall q b t errs,
        (forall k, 1 <= k <= 6 ->
           getLogs q b t k = Rejected (errs k) /\ retryable (errs k) = true) ->
        fetchFails q (b, t)).
Proof.
  intros db1 r.
  destruct (scan_run_summary cfg now p key fuel default_start_block db cursor
              latestBlock pre (w :: rest) Hcursor Hhead Hrange Hsize Hschedule
              Hbefore ltac:(right; eauto))
    as (Hret & Hreq & Hnone & Hcur & Hrows & _).
  fold r db1 in Hret, Hreq, Hnone, Hcur, Hrows.
  split; [exact Hret|]. split; [exact Hreq|]. split; [exact Hnone|].
  split; [exact Hcur|]. split; [exact Hrows|]. split.
  - rewrite Hrows.
    destruct (commitWindows_extends now p key pre db1) as [more Hmore].
    exists more. rewrite Hmore. unfold db1. now rewrite ensureCursor_rows.
  - intros q b t errs Hall. exists (errs 6). unfold getLogsWithRetry.
    cbn [default fst snd]. change (Z.to_nat 6) with (S 5).
    change 750 with (backoffDelay (0 + 1)).
    now rewrite (retryLoop_all_retryable q b t 6 errs Hall 5 0) by lia.
Qed.

(** Windows that are fetched and decode to no event, the second with a
    rejected lookup: the run throws after the first window went through, and
    the cursor is where it was. *)
Lemma fetched_empty_window_can_fail_the_run :
  let r := scanLoanNftTransfers (mkConfig 499 0 5) 8 Examples.shortLogRejected
             "k" 30 0 Examples.storeAt1000 in
  (forall w, fetchOk Examples.shortLogRejected w)
  /\ (forall w m, decodeTransfers m (logsOf Examples.shortLogRejected w) = [])
  /\ requestedWindows (snd r) = [(995, 1494); (1495, 1994)]
  /\ fst (fst r) = Thrown (mkError "timeout")
  /\ lastScanned Examples.storeAt1000 (cursorKeyOf "k") = Some 1000
  /\ lastScanned (snd (fst r)) (cursorKeyOf "k") = Some 1000.
Proof.
  split; [|split; [|repeat split; vm_compute; reflexivity]].
  - intros [b t]. unfold fetchOk, getLogsWithRetry. cbn [default fst snd].
    change (Z.to_nat 6) with 6%nat. cbn [retryLoop getLogs shortLogRejected].
    destruct (b =? 995); eexists; reflexivity.
  - intros [b t] m. unfold logsOf, getLogsWithRetry. cbn [default fst snd].
    change (Z.to_nat 6) with 6%nat. cbn [retryLoop getLogs shortLogRejected].
    destruct (b =? 995); reflexivity.
Qed.

(** C10, as amended. Whether or not their batches hold events, the windows
    that are fetched and whose lookups resolve move the cursor: after the
    run it holds the last block of the last of them, the head block when
    every window is such a window.  A window that is fetched with no log at
    all is always one of them.  A window whose batch decodes to no event is
    committed without a transaction, and when no batch of the run holds an
    event the table is unchanged and the run has no transaction at all.
    When the first fetch fails nothing is written: the store is as
    [ensureCursor] left it, unchanged when the cursor row was there. *)
Theorem empty_windows_still_advance_the_cursor
    (cfg : config) (now : Z) (p : provider) (key : string) (fuel : nat)
    (default_start_block : Z) (db : database) (cursor : cursorRow)
    (latestBlock : Z) (pre rest : list window)
    (Hcursor : scan_cursors
                 (ensureCursor now (cursorKeyOf key) default_start_block db)
                 !! cursorKeyOf key = Some cursor)
    (Hhead : getBlockNumber p = Resolved latestBlock)
    (Hrange : resumeBlock cfg (start_block cursor) (last_scanned_block cursor)
              <= latestBlock)
    (Hsize : 0 <= FLR_SCAN_BLOCKS cfg)
    (Hschedule : scheduleWindows fuel (FLR_SCAN_BLOCKS cfg) latestBlock
                   (resumeBlock cfg (start_block cursor) (last_scanned_block cursor))
                 = Some (pre ++ rest)%list)
    (Hfetched : Forall (windowOk p) pre)
    (Hstop : rest = [] \/ exists w rest', rest = w :: rest' /\ fetchFails p w) :
  let db1 := ensureCursor now (cursorKeyOf key) default_start_block db in
  let r := scanLoanNftTransfers cfg now p key fuel default_start_block db in
  fst (fst r) = Returned tt
  /\ (forall pre' wl, pre = (pre' ++ [wl])%list ->
        lastScanned (snd (fst r)) (cursorKeyOf key) = Some (snd wl))
  /\ (rest = [] -> lastScanned (snd (fst r)) (cursorKeyOf key) = Some latestBlock)
  /\ (Forall (fun w => eventsOf p w = []) pre ->
        loan_nft_transfers (snd (fst r)) = loan_nft_transfers db
        /\ Forall (fun e => isTransaction e = false) (snd r))
  /\ (forall logs d, lookupsResolve p logs ->
        decodeTransfers (timestampsOf p logs) logs = [] ->
        fst (commitWindow cfg now p key logs d) = (Returned tt, d)
        /\ Forall (fun e => isTransaction e = false)
             (snd (commitWindow cfg now p key logs d)))
  /\ (pre = [] ->
        snd (fst r) = db1
        /\ (forall c0, scan_cursors db !! cursorKeyOf key = Some c0 ->
              snd (fst r) = db))
  /\ (forall w, fetchOk p w -> logsOf p w = [] -> windowOk p w).
Proof.
  intros db1 r.
  destruct (scan_run_summary cfg now p key fuel default_start_block db cursor
              latestBlock pre rest Hcursor Hhead Hrange Hsize Hschedule
              Hfetched Hstop)
    as (Hret & _ & Hnone & Hcur & Hrows & Hnotx).
  fold r db1 in Hret, Hnone, Hcur, Hrows, Hnotx.
  pose proof (scheduleWindows_tiling _ _ _ _ _ Hschedule) as Ht.
  split; [exact Hret|]. split; [|split; [|split; [|split; [|split]]]].
  - intros pre' wl Hpre. unfold lastScanned. now rewrite (Hcur pre' wl Hpre).
  - intros ->. rewrite app_nil_r in Ht.
    assert (Hne : pre <> []) by (now apply (tiling_nonempty _ _ _ _ Hrange Ht)).
    destruct (exists_last Hne) as (pre' & wl & Hpre).
    unfold lastScanned. rewrite (Hcur pre' wl Hpre). cbn.
    f_equal. now apply (tiling_last _ _ _ _ Ht pre' wl).
  - intros Hempty. split; [|now apply Hnotx].
    rewrite Hrows, (commitWindows_empty now p key pre Hempty).
    unfold db1. now rewrite ensureCursor_rows.
  - intros logs d Hres Hnil.
    rewrite (commitWindow_resolved cfg now p key logs _ d
               (lookupsResolve_resolved p logs Hres)).
    rewrite Hnil. cbn [fst snd insertAll].
    rewrite bool_decide_eq_false_2 by (intros H; now apply H).
    split; [reflexivity|]. repeat apply Forall_app_2.
    + apply Forall_forall. intros e He. apply list_elem_of_In, in_map_iff in He.
      now destruct He as (bn & <- & _).
    + constructor.
    + destruct (0 <? FLR_PAUSE_MS cfg); repeat constructor.
  - intros Hpre. split; [now apply Hnone|].
    intros c0 Hc0. rewrite (Hnone Hpre). unfold db1.
    now apply ensureCursor_present with (c := c0).
  - intros w Hfetch Hlogs. split; [exact Hfetch|].
    rewrite Hlogs. intros bn Hbn. inversion Hbn.
Qed.

(** ** The cursor across runs *)

Section CursorFacts.

Variable cfg : config.
Variable now : Z.
Variable p : provider.
Variable key : string.

Lemma commitWindow_cursors (logs : list rawlog) (db : database) :
  scan_cursors (snd (fst (commitWindow cfg now p key logs db))) = scan_cursors db.
Proof.
  destruct (fst (resolveBlockTimestamps p logs)) as [m|e] eqn:E.
  - rewrite (commitWindow_resolved cfg now p key logs m db E). cbn [fst snd].
    apply insertAll_cursors.
  - now rewrite (commitWindow_rejected cfg now p key logs e db E).
Qed.

(** The window loop leaves the cursor table alone. *)
Lemma windowLoop_cursors (latestBlock : Z) (fuel : nat) :
  forall b lastGoodBlock db,
    scan_cursors
      (snd (fst (windowLoop cfg now p key fuel latestBlock b lastGoodBlock db)))
    = scan_cursors db.
Proof.
  induction fuel as [|fuel IH]; intros b lg db; cbn [windowLoop]; [reflexivity|].
  destruct (b <=? latestBlock); [|reflexivity].
  unfold bind, callFetcher.
  destruct (getLogsWithRetry p b _ None) as [[logs|err] tr]; [|reflexivity].
  pose proof (commitWindow_cursors logs db) as Hc.
  destruct (commitWindow cfg now p key logs db) as [[[[]| |] db2] t2];
    cbn [fst snd] in *; try exact Hc.
  specialize (IH (b + (FLR_SCAN_BLOCKS cfg + 1))
                (Z.min (b + FLR_SCAN_BLOCKS cfg) latestBlock) db2).
  destruct (windowLoop cfg now p key fuel latestBlock _ _ db2) as [[o db3] t3].
  cbn [fst snd] in *. congruence.
Qed.

(** What the loop returns is the block it was given or the end of a window. *)
Lemma windowLoop_last (latestBlock : Z) (fuel : nat) :
  0 <= FLR_SCAN_BLOCKS cfg ->
  forall b lastGoodBlock db lg,
    fst (fst (windowLoop cfg now p key fuel latestBlock b lastGoodBlock db))
      = Returned lg ->
    lg = lastGoodBlock
    \/ (b <= latestBlock /\ Z.min (b + FLR_SCAN_BLOCKS cfg) latestBlock <= lg).
Proof.
  intros Hw. induction fuel as [|fuel IH]; intros b lgb db lg; cbn [windowLoop];
    [discriminate|].
  destruct (Z.leb_spec b latestBlock) as [Hle|Hgt];
    [|intros [= <-]; now left].
  unfold bind, callFetcher.
  destruct (getLogsWithRetry p b _ None) as [[logs|err] tr];
    [|intros [= <-]; now left].
  destruct (commitWindow cfg now p key logs db) as [[[[]| |] db2] t2];
    try discriminate.
  specialize (IH (b + (FLR_SCAN_BLOCKS cfg + 1))
                (Z.min (b + FLR_SCAN_BLOCKS cfg) latestBlock) db2 lg).
  destruct (windowLoop cfg now p key fuel latestBlock _ _ db2) as [[o db3] t3].
  cbn [fst]. intros Ho. right. split; [exact Hle|].
  destruct (IH Ho) as [->|[_ Hmin]]; lia.
Qed.

(** When every fetch succeeds, a loop that returns has reached the head. *)
Lemma windowLoop_complete (latestBlock : Z) (fuel : nat) :
  (forall w, fetchOk p w) ->
  forall b lastGoodBlock db lg,
    fst (fst (windowLoop cfg now p key fuel latestBlock b lastGoodBlock db))
      = Returned lg ->
    (b <= latestBlock -> lg = latestBlock)
    /\ (latestBlock < b -> lg = lastGoodBlock).
Proof.
  intros Hok. induction fuel as [|fuel IH]; intros b lgb db lg; cbn [windowLoop];
    [discriminate|].
  destruct (Z.leb_spec b latestBlock) as [Hle|Hgt];
    [|intros [= <-]; split; [lia | reflexivity]].
  unfold bind, callFetcher.
  destruct (Hok (b, Z.min (b + FLR_SCAN_BLOCKS cfg) latestBlock)) as [logs Hlogs].
  cbn [fst snd] in Hlogs.
  destruct (getLogsWithRetry p b _ None) as [res tr]. cbn [fst] in Hlogs. subst res.
  destruct (commitWindow cfg now p key logs db) as [[[[]| |] db2] t2];
    try discriminate.
  specialize (IH (b + (FLR_SCAN_BLOCKS cfg + 1))
                (Z.min (b + FLR_SCAN_BLOCKS cfg) latestBlock) db2 lg).
  destruct (windowLoop cfg now p key fuel latestBlock _ _ db2) as [[o db3] t3].
  cbn [fst]. intros Ho. destruct (IH Ho) as [Hin Hout].
  split; [|lia]. intros _.
  destruct (Z_le_gt_dec (b + (FLR_SCAN_BLOCKS cfg + 1)) latestBlock) as [H|H].
  - now apply Hin.
  - rewrite Hout by lia. lia.
Qed.

(** With windows that are not negative the loop ends within [enoughFuel]. *)
Lemma windowLoop_ends (latestBlock : Z) (fuel : nat) :
  0 <= FLR_SCAN_BLOCKS cfg ->
  forall b lastGoodBlock db,
    (enoughFuel latestBlock b <= fuel)%nat ->
    fst (fst (windowLoop cfg now p key fuel latestBlock b lastGoodBlock db))
    <> Diverges.
Proof.
  intros Hw. unfold enoughFuel.
  induction fuel as [|fuel IH]; intros b lgb db Hfuel; [lia|].
  cbn [windowLoop].
  destruct (Z.leb_spec b latestBlock) as [Hle|Hgt]; [|discriminate].
  unfold bind, callFetcher.
  destruct (getLogsWithRetry p b _ None) as [[logs|err] tr]; [|discriminate].
  destruct (fst (resolveBlockTimestamps p logs)) as [m|e] eqn:E.
  - rewrite (commitWindow_resolved cfg now p key logs m db E).
    specialize (IH (b + (FLR_SCAN_BLOCKS cfg + 1))
                  (Z.min (b + FLR_SCAN_BLOCKS cfg) latestBlock)
                  (insertAll now key (decodeTransfers m logs) db) ltac:(lia)).
    destruct (windowLoop cfg now p key fuel latestBlock _ _ _) as [[o db3] t3].
    exact IH.
  - rewrite (commitWindow_rejected cfg now p key logs e db E). discriminate.
Qed.

(** One run: the position stored after it is not below the position read. *)
Lemma scan_cursor_not_below (fuel : nat) (default_start_block : Z)
    (db : database) (c : cursorRow) :
  scan_cursors (ensureCursor now (cursorKeyOf key) default_start_block db)
    !! cursorKeyOf key = Some c ->
  0 <= FLR_SCAN_BLOCKS cfg ->
  0 <= start_block c ->
  (forall head, getBlockNumber p = Resolved head -> last_scanned_block c <= head) ->
  (OVERLAP_BLOCKS cfg <= FLR_SCAN_BLOCKS cfg \/ forall w, fetchOk p w) ->
  exists c',
    scan_cursors
      (snd (fst (scanLoanNftTransfers cfg now p key fuel default_start_block db)))
      !! cursorKeyOf key = Some c'
    /\ start_block c' = start_block c
    /\ last_scanned_block c <= last_scanned_block c'.
Proof.
  intros Hcur Hw Hstart Hhead Hcase.
  unfold scanLoanNftTransfers.
  unfold bind at 1. unfold modify at 1.
  unfold bind at 1. unfold getDb. rewrite Hcur.
  unfold bind at 1. unfold await.
  destruct (getBlockNumber p) as [head|e]; [|exists c; cbn; auto with zarith].
  specialize (Hhead head eq_refl).
  set (fromBlock := resumeBlock cfg (start_block c) (last_scanned_block c)).
  destruct (Z.ltb_spec head fromBlock) as [Hgt|Hle];
    [exists c; cbn; auto with zarith|].
  unfold bind.
  pose proof (windowLoop_cursors head fuel fromBlock (fromBlock - 1)
                (ensureCursor now (cursorKeyOf key) default_start_block db)) as Hsame.
  pose proof (windowLoop_last head fuel Hw fromBlock (fromBlock - 1)
                (ensureCursor now (cursorKeyOf key) default_start_block db)) as Hlast.
  pose proof (fun Hok => windowLoop_complete head fuel Hok fromBlock (fromBlock - 1)
                (ensureCursor now (cursorKeyOf key) default_start_block db)) as Hall.
  destruct (windowLoop cfg now p key fuel head fromBlock (fromBlock - 1) _)
    as [[[lg| |] db2] t2]; cbn [fst snd] in *;
    try (exists c; rewrite Hsame; auto with zarith).
  destruct (Z.leb_spec fromBlock lg) as [Hreach|Hnot];
    [|exists c; cbn; rewrite Hsame; auto with zarith].
  exists (mkCursor (start_block c) lg now). cbn [fst snd modify].
  split; [apply lastScanned_updateCursor; now rewrite Hsame|].
  split; [reflexivity|]. cbn [last_scanned_block].
  assert (Hfrom : 0 < last_scanned_block c ->
            last_scanned_block c - OVERLAP_BLOCKS cfg <= fromBlock).
  { intros Hpos. unfold fromBlock, resumeBlock.
    replace (0 <? last_scanned_block c) with true
      by (symmetry; apply Z.ltb_lt; lia). lia. }
  assert (Hzero : last_scanned_block c <= 0 -> fromBlock = start_block c).
  { intros Hneg. unfold fromBlock, resumeBlock.
    now replace (0 <? last_scanned_block c) with false
      by (symmetry; apply Z.ltb_ge; lia). }
  destruct (Z_le_gt_dec (last_scanned_block c) 0) as [Hneg|Hpos];
    [rewrite Hzero in Hreach by exact Hneg; lia|].
  destruct Hcase as [Hoverlap|Hok].
  - destruct (Hlast lg eq_refl) as [->|[_ Hmin]]; [lia|].
    specialize (Hfrom ltac:(lia)). lia.
  - destruct (Hall Hok lg eq_refl) as [Hin _]. rewrite Hin by lia. lia.
Qed.

End CursorFacts.

Section CursorAcrossRuns.

Variable key : string.
Variable default_start_block : Z.

Lemma storeAfter_not_below (r : run) (db : database) (c : cursorRow) :
  cursorRead key default_start_block r db = Some c ->
  steadyRun key default_start_block r db ->
  exists c',
    scan_cursors (storeAfter key default_start_block r db) !! cursorKeyOf key
      = Some c'
    /\ start_block c' = start_block c
    /\ last_scanned_block c <= last_scanned_block c'.
Proof.
  intros Hread (Hw & Hc & Hcase). destruct (Hc c Hread) as [Hstart Hhead].
  now apply scan_cursor_not_below.
Qed.

Lemma storeAfterRuns_not_below (rs : list run) :
  forall (r : run) (db : database) (c : cursorRow),
    cursorRead key default_start_block r db = Some c ->
    steadyRuns key default_start_block (r :: rs) db ->
    exists c',
      scan_cursors (storeAfterRuns key default_start_block (r :: rs) db)
        !! cursorKeyOf key = Some c'
      /\ last_scanned_block c <= last_scanned_block c'.
Proof.
  induction rs as [|r2 rs IH]; intros r db c Hread [Hr Hrest].
  - destruct (storeAfter_not_below r db c Hread Hr) as (c' & Hc' & _ & Hle).
    exists c'. auto.
  - destruct (storeAfter_not_below r db c Hread Hr) as (c1 & Hc1 & _ & Hle1).
    assert (Hread2 : cursorRead key default_start_block r2
                       (storeAfter key default_start_block r db) = Some c1).
    { unfold cursorRead. now rewrite (ensureCursor_present _ _ _ _ c1 Hc1). }
    destruct (IH r2 _ c1 Hread2 Hrest) as (c' & Hc' & Hle').
    exists c'. split; [exact Hc'|lia].
Qed.

(** A run whose loop is given [enoughFuel] rounds does not diverge. *)
Lemma scan_ends (cfg : config) (now : Z) (p : provider) (fuel : nat)
    (db : database) (c : cursorRow) (head : Z) :
  scan_cursors (ensureCursor now (cursorKeyOf key) default_start_block db)
    !! cursorKeyOf key = Some c ->
  getBlockNumber p = Resolved head ->
  0 <= FLR_SCAN_BLOCKS cfg ->
  (enoughFuel head (resumeBlock cfg (start_block c) (last_scanned_block c))
   <= fuel)%nat ->
  fst (fst (scanLoanNftTransfers cfg now p key fuel default_start_block db))
  <> Diverges.
Proof.
  intros Hcur Hhead Hw Hfuel.
  unfold scanLoanNftTransfers.
  unfold bind at 1. unfold modify at 1.
  unfold bind at 1. unfold getDb. rewrite Hcur.
  unfold bind at 1. unfold await. rewrite Hhead.
  destruct (head <? _); [discriminate|].
  unfold bind.
  pose proof (windowLoop_ends cfg now p key head fuel Hw _
                (resumeBlock cfg (start_block c) (last_scanned_block c) - 1)
                (ensureCursor now (cursorKeyOf key) default_start_block db)
                Hfuel) as Hends.
  destruct (windowLoop cfg now p key fuel head _ _ _) as [[[lg| |] db2] t2];
    cbn [fst] in *; try discriminate; [|congruence].
  destruct (_ <=? lg); discriminate.
Qed.

End CursorAcrossRuns.

(** A run that finds the head below the cursor, and a run with windows
    shorter than the overlap whose second fetch fails, both return normally
    and leave the cursor below 1000, where it stood. *)
Lemma cursor_can_fall_back :
  lastScanned storeAt1000 (cursorKeyOf "k") = Some 1000
  /\ fst (fst (scanLoanNftTransfers (run_cfg behindRun) (run_now behindRun)
                 (run_provider behindRun) "k" (run_fuel behindRun) 0 storeAt1000))
     = Returned tt
  /\ lastScanned (storeAfter "k" 0 behindRun storeAt1000) (cursorKeyOf "k")
     = Some 997
  /\ fst (fst (scanLoanNftTransfers (run_cfg truncatedRun) (run_now truncatedRun)
                 (run_provider truncatedRun) "k" (run_fuel truncatedRun) 0
                 storeAt1000))
     = Returned tt
  /\ lastScanned (storeAfter "k" 0 truncatedRun storeAt1000) (cursorKeyOf "k")
     = Some 996.
Proof. repeat split; vm_compute; reflexivity. Qed.

(** C4, as amended. Take runs whose window size and start block are not
    negative, that find the head block at or above the position they read,
    and in which the overlap is at most the window size or every fetch
    succeeds.  The position stored after such a run is not below the position
    it read, so across a sequence of such runs the stored position never
    decreases; and a run given enough rounds for its windows does not
    diverge. *)
Theorem cursor_never_falls_back_across_steady_runs
    (key : string) (default_start_block : Z) (r : run) (rest : list run)
    (db : database) (c : cursorRow)
    (Hread : cursorRead key default_start_block r db = Some c)
    (Hsteady : steadyRuns key default_start_block (r :: rest) db) :
  (exists c1,
     scan_cursors (storeAfter key default_start_block r db) !! cursorKeyOf key
       = Some c1
     /\ start_block c1 = start_block c
     /\ last_scanned_block c <= last_scanned_block c1)
  /\ (exists c',
        scan_cursors (storeAfterRuns key default_start_block (r :: rest) db)
          !! cursorKeyOf key = Some c'
        /\ last_scanned_block c <= last_scanned_block c')
  /\ (forall head,
        getBlockNumber (run_provider r) = Resolved head ->
        (enoughFuel head
           (resumeBlock (run_cfg r) (start_block c) (last_scanned_block c))
         <= run_fuel r)%nat ->
        fst (fst (scanLoanNftTransfers (run_cfg r) (run_now r) (run_provider r)
                    key (run_fuel r) default_start_block db))
        <> Diverges).
Proof.
  split; [|split].
  - apply storeAfter_not_below; [exact Hread | apply Hsteady].
  - now apply storeAfterRuns_not_below.
  - intros head Hhead Hfuel. destruct Hsteady as [(Hw & _) _].
    now apply (scan_ends key default_start_block _ _ _ _ db c head).
Qed.

(** The scenario run, then a later run: the cursor goes from 1000 to 2000
    and on. *)
Lemma cursor_never_falls_back_across_steady_runs_witness :
  exists c',
    scan_cursors (storeAfterRuns "k" 0 [scenarioRun; laterRun] storeAt1000)
      !! cursorKeyOf "k" = Some c'
    /\ 1000 <= last_scanned_block c'.
Proof.
  assert (Hread : cursorRead "k" 0 scenarioRun storeAt1000
                  = Some (mkCursor 0 1000 7)) by (vm_compute; reflexivity).
  assert (Hsteady : steadyRuns "k" 0 [scenarioRun; laterRun] storeAt1000).
  { split; [|split; [|exact I]].
    - split; [cbn; lia|]. split.
      + intros c Hc. rewrite Hread in Hc. injection Hc as <-. cbn.
        split; [lia|]. intros head [= <-]. lia.
      + left. cbn. lia.
    - split; [cbn; lia|]. split.
      + intros c Hc. vm_compute in Hc. injection Hc as <-. cbn.
        split; [lia|]. intros head [= <-]. lia.
      + right. intros w. eexists. reflexivity. }
  destruct (cursor_never_falls_back_across_steady_runs "k" 0 scenarioRun
              [laterRun] storeAt1000 (mkCursor 0 1000 7) Hread Hsteady)
    as (_ & Hseq & _).
  exact Hseq.
Defined.

(** ** Timestamps of a batch *)

Section Timestamps.

Variable p : provider.


Lemma insertTransfer_new_rows (now : Z) (key : string) (e : transferEvent)
    (db : database) (row : transferRow) :
  row ∈ loan_nft_transfers (insertTransfer now key e db) ->
  row ∈ loan_nft_transfers db
  \/ (rowKey row = eventKey key e
      /\ block_number row = ev_blockNumber e
      /\ block_timestamp row = ev_blockTimestamp e).
Proof.
  unfold insertTransfer. destruct (bool_decide _); [now left|].
  cbn [loan_nft_transfers]. intros Hin. apply elem_of_app in Hin as [Hin|Hin].
  - now left.
  - apply list_elem_of_singleton in Hin. subst row. right. now cbn.
Qed.

Lemma insertAll_new_rows (now : Z) (key : string) (items : list transferEvent) :
  forall (db : database) (row : transferRow),
    row ∈ loan_nft_transfers (insertAll now key items db) ->
    row ∈ loan_nft_transfers db
    \/ exists e, e ∈ items
         /\ rowKey row = eventKey key e
         /\ block_number row = ev_blockNumber e
         /\ block_timestamp row = ev_blockTimestamp e.
Proof.
  induction items as [|e items IH]; intros db row; cbn [insertAll]; [now left|].
  intros Hin. destruct (IH _ _ Hin) as [Hold|(e' & He' & Hrow)].
  - destruct (insertTransfer_new_rows now key e db row Hold) as [?|Hrow];
      [now left|].
    right. exists e. split; [left | exact Hrow].
  - right. exists e'. split; [now right | exact Hrow].
Qed.

End Timestamps.




(** The scenario against a provider with no logs. *)
Lemma resume_block_and_its_scenario_witness :
  requestedWindows
    (snd (scanLoanNftTransfers (mkConfig 499 0 5) 8 (quiet 2000) "k"
            (enoughFuel 2000 995) 0 storeAt1000))
  = scenarioWindows.
Proof.
  destruct resume_block_and_its_scenario as (_ & _ & _ & Hscenario).
  apply (Hscenario 0 8 (quiet 2000) "k" (enoughFuel 2000 995) 0 storeAt1000
           (mkCursor 0 1000 7)).
  - vm_compute; reflexivity.
  - reflexivity.
  - cbn; lia.
  - reflexivity.
  - intros w. split; [eexists; reflexivity | intros bn _; eexists; reflexivity].
  - lia.
Defined.

(** A run whose second fetch fails: two windows requested, the cursor at the
    end of the first. *)
Lemma failed_fetch_stops_the_loop_and_keeps_progress_witness :
  fst (fst (scanLoanNftTransfers (run_cfg stoppedRun) (run_now stoppedRun)
              (run_provider stoppedRun) "k" (run_fuel stoppedRun) 0 storeAt1000))
  = Returned tt
  /\ requestedWindows
       (snd (scanLoanNftTransfers (run_cfg stoppedRun) (run_now stoppedRun)
               (run_provider stoppedRun) "k" (run_fuel stoppedRun) 0 storeAt1000))
     = [(995, 997); (998, 1000)]
  /\ scan_cursors (storeAfter "k" 0 stoppedRun storeAt1000) !! cursorKeyOf "k"
     = Some (mkCursor 0 997 8).
Proof.
  destruct (failed_fetch_stops_the_loop_and_keeps_progress
              (run_cfg stoppedRun) (run_now stoppedRun) (run_provider stoppedRun)
              "k" (run_fuel stoppedRun) 0 storeAt1000 (mkCursor 0 1000 7) 1003
              [(995, 997)] (998, 1000) [(1001, 1003)])
    as (Hret & Hreq & _ & Hcur & _).
  - vm_compute; reflexivity.
  - reflexivity.
  - vm_compute; discriminate.
  - cbn; lia.
  - vm_compute; reflexivity.
  - repeat constructor; [eexists; reflexivity | intros bn _; eexists; reflexivity].
  - eexists; vm_compute; reflexivity.
  - split; [exact Hret|]. split; [exact Hreq|]. exact (Hcur [] (995, 997) eq_refl).
Defined.

(** The scenario with no logs at all: the cursor reaches the head, without a
    transaction. *)
Lemma empty_windows_still_advance_the_cursor_witness :
  lastScanned (storeAfter "k" 0 scenarioRun storeAt1000) (cursorKeyOf "k")
  = Some 2000
  /\ Forall (fun e => isTransaction e = false)
       (snd (scanLoanNftTransfers (run_cfg scenarioRun) (run_now scenarioRun)
               (run_provider scenarioRun) "k" (run_fuel scenarioRun) 0 storeAt1000)).
Proof.
  destruct (empty_windows_still_advance_the_cursor
              (run_cfg scenarioRun) (run_now scenarioRun) (run_provider scenarioRun)
              "k" (run_fuel scenarioRun) 0 storeAt1000 (mkCursor 0 1000 7) 2000
              scenarioWindows [])
    as (_ & _ & Hhead & Hempty & _).
  - vm_compute; reflexivity.
  - reflexivity.
  - vm_compute; discriminate.
  - cbn; lia.
  - vm_compute; reflexivity.
  - repeat constructor; first [eexists; reflexivity | intros bn _; eexists; reflexivity].
  - now left.
  - split; [now apply Hhead|].
    apply Hempty. repeat constructor.
Defined.

(** * Further properties of the scanner

    ** The wait read from an error message is positive *)

Section Hints.

Lemma roundNat_pos (n : Z) : 0 < n -> 0 < roundNat n.
Proof.
  intros Hn. unfold roundNat. destruct (Z.ltb_spec n (2 ^ 53)) as [|Hbig];
    [exact Hn|].
  cbv zeta. set (e := Z.log2 n - 52).
  assert (He : 1 <= e).
  { unfold e. assert (53 <= Z.log2 n); [|lia].
    apply Z.log2_le_pow2; lia. }
  assert (Hp : 0 < 2 ^ e) by (apply Z.pow_pos_nonneg; lia).
  assert (Hle : 2 ^ e <= n).
  { transitivity (2 ^ Z.log2 n); [apply Z.pow_le_mono_r; lia|].
    apply Z.log2_spec; lia. }
  assert (Hq : 1 <= n / 2 ^ e).
  { apply Z.div_le_lower_bound; lia. }
  apply Z.min_glb_lt; [|unfold Infinity; lia].
  destruct (_ || _); nia.
Qed.

Lemma toNumber_pos (n : Z) : 0 < n -> 0 < toNumber n.
Proof.
  intros Hn. unfold toNumber. pose proof (roundNat_pos (Z.abs n) ltac:(lia)).
  destruct n; cbn [Z.sgn]; lia.
Qed.

(** A hint is a positive delay. *)
Lemma parseRetryAfterMs_pos (e : jserror) (ms : Z) :
  parseRetryAfterMs e = Some ms -> 0 < ms.
Proof.
  unfold parseRetryAfterMs.
  destruct (searchRetryIn (message e)) as [m1|]; [|discriminate].
  cbv zeta.
  destruct (Number_isFinite (toNumber (digitsValue 10 m1))
            && (0 <? toNumber (digitsValue 10 m1))) eqn:E; [|discriminate].
  apply andb_true_iff in E as [_ Hpos]. apply Z.ltb_lt in Hpos.
  intros [= <-]. apply toNumber_pos. lia.
Qed.

End Hints.

(** ** The fetcher against any provider *)

Section FetcherAgainstAnyProvider.

Variable p : provider.
Variables fromBlock toBlock : Z.

(** The loop, from an attempt on, when the attempts before [k] are rejected
    with retryable errors and attempt [k] settles the fetch. *)
Lemma retryLoop_decisive (maxAttempts k : Z) (errs : Z -> jserror)
    (res : fetched) :
  k <= maxAttempts ->
  (forall j, 1 <= j < k ->
     getLogs p fromBlock toBlock j = Rejected (errs j)
     /\ retryable (errs j) = true) ->
  match getLogs p fromBlock toBlock k with
  | Resolved logs => res = FetchOk logs
  | Rejected e => res = FetchFailed e /\ retryable e = false
  end ->
  forall (rounds remaining : nat) (attempt : Z),
    0 <= attempt ->
    attempt + Z.of_nat rounds + 1 = k ->
    (rounds < remaining)%nat ->
    retryLoop p fromBlock toBlock maxAttempts remaining attempt
      (backoffDelay (attempt + 1))
    = (res, retrySchedule fromBlock toBlock errs (attempt + 1) rounds k).
Proof.
  intros Hk Hbefore Hat.
  induction rounds as [|rounds IH]; intros remaining attempt Hpos Hsum Hrem.
  - destruct remaining as [|remaining]; [lia|].
    replace k with (attempt + 1) in * by lia.
    cbn [retryLoop]. unfold retrySchedule. cbn [Z.of_nat seqZ].
    destruct (getLogs p fromBlock toBlock (attempt + 1)) as [logs|e].
    + subst res. reflexivity.
    + destruct Hat as [-> Hno]. unfold retryable in Hno. rewrite Hno.
      reflexivity.
  - destruct remaining as [|remaining]; [lia|].
    destruct (Hbefore (attempt + 1)) as [Hget Hretry]; [lia|].
    cbn [retryLoop]. rewrite Hget.
    unfold retryable in Hretry. rewrite Hretry. cbn [negb orb].
    replace (maxAttempts <=? attempt + 1) with false
      by (symmetry; apply Z.leb_gt; lia).
    rewrite <- backoffDelay_next by lia.
    rewrite (IH remaining (attempt + 1)) by lia.
    unfold retrySchedule.
    replace (Z.of_nat (S rounds)) with (Z.succ (Z.of_nat rounds)) by lia.
    rewrite (seqZ_cons (attempt + 1) (Z.succ (Z.of_nat rounds))) by lia.
    cbn [flat_map].
    replace (Z.pred (Z.succ (Z.of_nat rounds))) with (Z.of_nat rounds) by lia.
    replace (Z.succ (attempt + 1)) with (attempt + 1 + 1) by lia.
    reflexivity.
Qed.

(** As [getLogsWithRetry] runs it, the loop never requests more often than
    it has attempts left, sleeps once between two requests and does nothing
    else. *)
Lemma retryLoop_bounds (maxAttempts : Z) (remaining : nat) :
  forall attempt backoffMs,
    remaining = Z.to_nat (maxAttempts - attempt) ->
    let tr := snd (retryLoop p fromBlock toBlock maxAttempts remaining attempt
                     backoffMs) in
    (length (filter (fun e => isGetLogs e = true) tr) <= remaining)%nat
    /\ length (sleeps tr)
       = Nat.pred (length (filter (fun e => isGetLogs e = true) tr))
    /\ (remaining <> O ->
        (1 <= length (filter (fun e => isGetLogs e = true) tr))%nat)
    /\ Forall (fun e => match e with IoGetLogs _ _ _ | IoSleep _ => True
                                | _ => False end) tr.
Proof.
  assert (Hone : forall (n : nat) a,
            let tr := [IoGetLogs fromBlock toBlock a] in
            (length (filter (fun e => isGetLogs e = true) tr) <= S n)%nat
            /\ length (sleeps tr)
               = Nat.pred (length (filter (fun e => isGetLogs e = true) tr))
            /\ (S n <> O ->
                (1 <= length (filter (fun e => isGetLogs e = true) tr))%nat)
            /\ Forall (fun e => match e with IoGetLogs _ _ _ | IoSleep _ => True
                                        | _ => False end) tr).
  { intros n a tr. subst tr. rewrite filter_cons, decide_True by reflexivity.
    rewrite filter_nil. cbn. repeat split; try lia. repeat constructor. }
  induction remaining as [|remaining IH]; intros attempt backoffMs Hinv; cbn zeta.
  - cbn. repeat split; [lia | congruence | constructor].
  - cbn [retryLoop].
    destruct (getLogs p fromBlock toBlock (attempt + 1)) as [logs|err];
      [apply Hone|].
    destruct (Z.leb_spec maxAttempts (attempt + 1)) as [Hlast|Hmore].
    { rewrite orb_true_r. apply Hone. }
    rewrite orb_false_r. destruct (negb _); [apply Hone|]. clear Hone.
    specialize (IH (attempt + 1) (Z.min (backoffMs * 2) 10000) ltac:(lia)).
    cbn zeta in IH.
    destruct (retryLoop p fromBlock toBlock maxAttempts remaining (attempt + 1)
                (Z.min (backoffMs * 2) 10000)) as [res tr].
    cbn [snd] in *. destruct IH as (Hle & Hsl & Hone & Hall).
    specialize (Hone ltac:(lia)).
    rewrite !filter_cons. cbn [isGetLogs sleeps].
    rewrite decide_True by reflexivity. rewrite decide_False by discriminate.
    cbn [length]. repeat split; try lia.
    repeat constructor. exact Hall.
Qed.

(** Its last action is a request. *)
Lemma retryLoop_last (maxAttempts : Z) (remaining : nat) :
  forall attempt backoffMs,
    remaining = Z.to_nat (maxAttempts - attempt) ->
    remaining <> O ->
    exists t a,
      snd (retryLoop p fromBlock toBlock maxAttempts remaining attempt backoffMs)
      = (t ++ [IoGetLogs fromBlock toBlock a])%list.
Proof.
  induction remaining as [|remaining IH]; intros attempt backoffMs Hinv Hne;
    [congruence|].
  cbn [retryLoop].
  destruct (getLogs p fromBlock toBlock (attempt + 1)) as [logs|err];
    [now exists [], (attempt + 1)|].
  destruct (Z.leb_spec maxAttempts (attempt + 1)) as [Hlast|Hmore].
  { rewrite orb_true_r. now exists [], (attempt + 1). }
  rewrite orb_false_r. destruct (negb _); [now exists [], (attempt + 1)|].
  destruct (IH (attempt + 1) (Z.min (backoffMs * 2) 10000)) as (t & a & Ht);
    [lia | lia |].
  destruct (retryLoop p fromBlock toBlock maxAttempts remaining (attempt + 1)
              (Z.min (backoffMs * 2) 10000)) as [res tr].
  cbn [snd] in *. subst tr.
  now exists (IoGetLogs fromBlock toBlock (attempt + 1)
              :: IoSleep (default backoffMs (parseRetryAfterMs err)) :: t), a.
Qed.

(** The loop requests and waits in turn, starting and ending with a
    request. *)
Lemma retryLoop_alternates (maxAttempts : Z) (remaining : nat) :
  forall attempt backoffMs,
    remaining = Z.to_nat (maxAttempts - attempt) ->
    remaining <> O ->
    0 < backoffMs ->
    exists waits,
      snd (retryLoop p fromBlock toBlock maxAttempts remaining attempt backoffMs)
      = fetchTrace fromBlock toBlock (attempt + 1) waits
      /\ (length waits < remaining)%nat
      /\ Forall (fun w => 0 < w) waits.
Proof.
  induction remaining as [|remaining IH]; intros attempt backoffMs Hinv Hne Hpos;
    [congruence|].
  cbn [retryLoop].
  assert (Hstop : exists waits,
            [IoGetLogs fromBlock toBlock (attempt + 1)]
            = fetchTrace fromBlock toBlock (attempt + 1) waits
            /\ (length waits < S remaining)%nat
            /\ Forall (fun w => 0 < w) waits).
  { exists []. cbn. split; [reflexivity|]. split; [lia | constructor]. }
  destruct (getLogs p fromBlock toBlock (attempt + 1)) as [logs|err];
    [exact Hstop|].
  destruct (Z.leb_spec maxAttempts (attempt + 1)) as [Hlast|Hmore].
  { rewrite orb_true_r. exact Hstop. }
  rewrite orb_false_r. destruct (negb _); [exact Hstop|]. clear Hstop.
  destruct (IH (attempt + 1) (Z.min (backoffMs * 2) 10000))
    as (waits & Htr & Hlen & Hall); [lia | lia | lia |].
  destruct (retryLoop p fromBlock toBlock maxAttempts remaining (attempt + 1)
              (Z.min (backoffMs * 2) 10000)) as [res tr].
  cbn [snd] in *. subst tr.
  exists (default backoffMs (parseRetryAfterMs err) :: waits).
  split; [reflexivity|]. split; [cbn [length]; lia|].
  constructor; [|exact Hall].
  destruct (parseRetryAfterMs err) as [ms|] eqn:Ems; cbn [default];
    [now apply (parseRetryAfterMs_pos err) | exact Hpos].
Qed.

End FetcherAgainstAnyProvider.

(** X1. The fetch is settled by the first attempt that is not rejected with
    a retryable error: when the attempts before [k] are so rejected and
    [k] is within the attempts allowed, the fetcher returns the logs attempt
    [k] resolves with, or fails with the error it is rejected with when that
    error is not retryable, after [k] requests and the [k - 1] waits of the
    backoff schedule. *)
Theorem fetcher_result_is_the_first_decisive_attempt
    (p : provider) (fromBlock toBlock : Z) (options : option Z)
    (errs : Z -> jserror) (k : Z)
    (Hk : 1 <= k <= default 6 options)
    (Hbefore : forall j, 1 <= j < k ->
                 getLogs p fromBlock toBlock j = Rejected (errs j)
                 /\ retryable (errs j) = true) :
  let r := getLogsWithRetry p fromBlock toBlock options in
  let tr := retrySchedule fromBlock toBlock errs 1 (Z.to_nat (k - 1)) k in
  (forall logs, getLogs p fromBlock toBlock k = Resolved logs ->
     r = (FetchOk logs, tr))
  /\ (forall e, getLogs p fromBlock toBlock k = Rejected e ->
        retryable e = false -> r = (FetchFailed e, tr))
  /\ filter (fun e => isGetLogs e = true) tr
     = map (IoGetLogs fromBlock toBlock) (seqZ 1 k)
  /\ sleeps tr = map (retryWait errs) (seqZ 1 (k - 1)).
Proof.
  intros r tr.
  assert (Hrun : forall res,
            match getLogs p fromBlock toBlock k with
            | Resolved logs => res = FetchOk logs
            | Rejected e => res = FetchFailed e /\ retryable e = false
            end -> r = (res, tr)).
  { intros res Hat. subst r tr. unfold getLogsWithRetry.
    change 750 with (backoffDelay (0 + 1)).
    apply (retryLoop_decisive p fromBlock toBlock (default 6 options) k errs res);
      try assumption; lia. }
  split; [|split; [|split]].
  - intros logs Hlogs. apply Hrun. now rewrite Hlogs.
  - intros e He Hno. apply Hrun. now rewrite He.
  - subst tr. rewrite retrySchedule_requests.
    replace k with (Z.of_nat (Z.to_nat (k - 1)) + 1) at 2 3 by lia.
    rewrite seqZ_snoc, map_app by lia. cbn [map]. do 3 f_equal. lia.
  - subst tr. rewrite retrySchedule_sleeps. do 2 f_equal. lia.
Qed.

(** Two throttled requests, then the logs. *)
Lemma fetcher_result_is_the_first_decisive_attempt_witness :
  getLogsWithRetry MoreExamples.flaky 1 5 None
  = (FetchOk [Examples.transferLog 10 0],
     [IoGetLogs 1 5 1; IoSleep 750; IoGetLogs 1 5 2; IoSleep 1500;
      IoGetLogs 1 5 3]).
Proof.
  destruct (fetcher_result_is_the_first_decisive_attempt MoreExamples.flaky 1 5
              None (fun _ => mkError "Rate limit exceeded") 3) as (Hok & _).
  - cbn. lia.
  - intros j Hj. split; [|reflexivity]. cbn.
    now replace (j <=? 2) with true by (symmetry; apply Z.leb_le; lia).
  - now apply Hok.
Defined.

(** X2. Whatever the provider answers, a fetch makes at most [maxAttempts]
    requests (at least one when an attempt is allowed), numbered from one,
    waits exactly once, for a positive time, between two requests and never
    before the first or after the last, and does nothing but request and
    wait. *)
Theorem fetcher_requests_are_bounded
    (p : provider) (fromBlock toBlock : Z) (options : option Z) :
  let maxAttempts := default 6 options in
  let tr := snd (getLogsWithRetry p fromBlock toBlock options) in
  let requests := length (filter (fun e => isGetLogs e = true) tr) in
  (requests <= Z.to_nat maxAttempts)%nat
  /\ (1 <= maxAttempts ->
      (1 <= requests)%nat
      /\ exists t a, tr = (t ++ [IoGetLogs fromBlock toBlock a])%list)
  /\ (maxAttempts <= 0 -> tr = [])
  /\ length (sleeps tr) = Nat.pred requests
  /\ Forall (fun e => match e with IoGetLogs _ _ _ | IoSleep _ => True
                              | _ => False end) tr
  /\ (1 <= maxAttempts ->
      exists waits,
        tr = fetchTrace fromBlock toBlock 1 waits
        /\ (length waits < Z.to_nat maxAttempts)%nat
        /\ Forall (fun w => 0 < w) waits).
Proof.
  intros maxAttempts tr requests. subst requests tr. unfold getLogsWithRetry.
  fold maxAttempts.
  destruct (retryLoop_bounds p fromBlock toBlock maxAttempts
              (Z.to_nat maxAttempts) 0 750 ltac:(lia))
    as (Hle & Hsl & Hone & Hall).
  split; [exact Hle|].
  split; [|split; [|split; [exact Hsl | split; [exact Hall|]]]].
  - intros Hmax. split; [apply Hone; lia|].
    apply retryLoop_last; lia.
  - intros Hmax. now replace (Z.to_nat maxAttempts) with O by lia.
  - intros Hmax.
    apply (retryLoop_alternates p fromBlock toBlock maxAttempts
             (Z.to_nat maxAttempts) 0 750); lia.
Qed.

(** ** The retry-after hint *)

Section RetryHint.

Import Numeral NumeralFacts.

Lemma toLowerCase_app (a b : string) :
  toLowerCase (a ++ b) = (toLowerCase a ++ toLowerCase b)%string.
Proof. induction a as [|c a IH]; simpl; [reflexivity | now rewrite IH]. Qed.

Lemma toLowerCase_length (a : string) :
  String.length (toLowerCase a) = String.length a.
Proof. induction a as [|c a IH]; simpl; [reflexivity | now rewrite IH]. Qed.

Lemma substring_all (s : string) : String.substring 0 (String.length s) s = s.
Proof. induction s as [|c s IH]; simpl; [reflexivity | now rewrite IH]. Qed.

Lemma substring_skip (a b : string) :
  String.substring (String.length a) (String.length (a ++ b) - String.length a)
    (a ++ b) = b.
Proof.
  induction a as [|c a IH]; simpl.
  - rewrite Nat.sub_0_r. apply substring_all.
  - exact IH.
Qed.

Lemma render_length (ds : list Z) : String.length (render ds) = length ds.
Proof. induction ds as [|d ds IH]; simpl; [reflexivity | now rewrite IH]. Qed.

Lemma leadingDigits_render_app (radix : Z) (ds : list Z) (t : string) :
  radix <= 36 -> Forall (fun d => 0 <= d < radix) ds ->
  leadingDigits radix (render ds ++ t) = (ds ++ leadingDigits radix t)%list.
Proof.
  intros Hr H. induction H as [|d ds Hd _ IH]; [reflexivity|].
  change (render (d :: ds) ++ t)%string
    with (String (digitChar d) (render ds ++ t)).
  cbn [leadingDigits]. rewrite radixDigit_digitChar by lia. now rewrite IH.
Qed.

(** A string that starts with the prefix of a longer string starts with it
    inside its first part, unless that part is shorter than the prefix. *)
Lemma startsWith_app (q a b : string) :
  startsWith q (a ++ b) = true ->
  startsWith q a = true \/ (String.length a < String.length q)%nat.
Proof.
  revert a. induction q as [|c q IH]; intros a; [now left|].
  destruct a as [|x a]; [right; simpl; lia|].
  simpl. intros H. apply andb_true_iff in H as [Hc Hrest].
  destruct (IH a Hrest) as [Hin|Hshort]; [|right; lia].
  left. now rewrite Hc, Hin.
Qed.

(** The hint is found behind any text that does not itself hold the words
    of the hint. *)
Lemma searchRetryIn_behind (pre rest : string) (ds : list Z) :
  includes "retry in" (toLowerCase pre) = false ->
  matchRetryIn ("retry in" ++ rest) = Some ds ->
  searchRetryIn (pre ++ "retry in" ++ rest) = Some ds.
Proof.
  intros Hpre Hmatch. induction pre as [|c pre IH].
  - change (searchRetryIn ("retry in" ++ rest) = Some ds).
    change ("retry in" ++ rest)%string
      with (String "r" ("etry in" ++ rest)) in *.
    cbn [searchRetryIn]. now rewrite Hmatch.
  - cbn [toLowerCase includes] in Hpre. apply orb_false_iff in Hpre as [Hhere Hlater].
    change (String c pre ++ "retry in" ++ rest)%string
      with (String c (pre ++ "retry in" ++ rest)).
    cbn [searchRetryIn].
    assert (Hno : startsWith "retry in"
                    (toLowerCase (String c (pre ++ "retry in" ++ rest))) = false).
    { destruct (startsWith "retry in"
                  (toLowerCase (String c (pre ++ "retry in" ++ rest))))
        eqn:E; [|reflexivity]. exfalso.
      change (String c (pre ++ "retry in" ++ rest))
        with (String c pre ++ ("retry in" ++ rest))%string in E.
      rewrite toLowerCase_app in E.
      destruct (startsWith_app _ _ _ E) as [E'|Hshort];
        [cbn [toLowerCase] in E'; congruence|].
      rewrite toLowerCase_length in Hshort.
      revert E. clear -Hshort.
      destruct pre as [|c2 [|c3 [|c4 [|c5 [|c6 [|c7 [|c8 pre]]]]]]];
        simpl in Hshort; try lia; clear Hshort;
        simpl; rewrite ?andb_false_r; discriminate. }
    unfold matchRetryIn at 1. rewrite Hno. now apply IH.
Qed.

Lemma matchRetryIn_numeral (n : Z) (rest : string) :
  0 <= n ->
  matchRetryIn ("retry in" ++ " " ++ toDecimal n ++ "s" ++ rest)
  = Some (digitsOf (S (Z.to_nat n)) 10 n).
Proof.
  intros Hn. unfold toDecimal.
  set (ds := digitsOf (S (Z.to_nat n)) 10 n).
  assert (Hds : Forall (fun d => 0 <= d < 10) ds) by (apply digitsOf_range; lia).
  assert (Hne : ds <> []) by apply digitsOf_nonempty.
  unfold matchRetryIn.
  change (toLowerCase ("retry in" ++ " " ++ render ds ++ "s" ++ rest))
    with ("retry in" ++ toLowerCase (" " ++ render ds ++ "s" ++ rest))%string.
  change (startsWith "retry in"
            ("retry in" ++ toLowerCase (" " ++ render ds ++ "s" ++ rest)))
    with true. cbv iota.
  pose proof (substring_skip "retry in" (" " ++ render ds ++ "s" ++ rest)) as Hsk.
  change (String.length "retry in") with 8%nat in Hsk. rewrite Hsk. clear Hsk.
  change (" " ++ render ds ++ "s" ++ rest)%string
    with (String " " (render ds ++ "s" ++ rest)).
  change (trimStart (String " " (render ds ++ "s" ++ rest)))
    with (trimStart (render ds ++ "s" ++ rest)).
  assert (Htrim : trimStart (render ds ++ "s" ++ rest)
                  = (render ds ++ "s" ++ rest)%string).
  { destruct ds as [|d ds']; [congruence|].
    assert (0 <= d < 36) by (inversion Hds; lia).
    change (render (d :: ds') ++ "s" ++ rest)%string
      with (String (digitChar d) (render ds' ++ "s" ++ rest)).
    now apply digitChar_plain. }
  rewrite Htrim. cbv zeta. cbn [String.length].
  replace (String.length (render ds ++ "s" ++ rest)
           <? S (String.length (render ds ++ "s" ++ rest)))%nat
    with true by (symmetry; apply Nat.ltb_lt; lia).
  rewrite leadingDigits_render_app by (auto; lia).
  change (leadingDigits 10 ("s" ++ rest)) with (@nil Z). rewrite app_nil_r.
  destruct ds as [|d ds'] eqn:Eds; [congruence|]. rewrite <- Eds.
  rewrite <- (render_length ds), substring_skip.
  change ("s" ++ rest)%string with (String "s" rest).
  rewrite trimStart_plain by (change (code "s") with 115; lia).
  reflexivity.
Qed.

End RetryHint.

(** X3. A message that says [retry in N s] for a positive [N], behind any
    text that does not hold the words [retry in], gives as hint the double
    of 1000 times the double of [N], which is [1000 N] below 2^53, and no
    hint when the double of [N] is [Infinity]; with a hint the error is
    retryable.  So 2^53 + 1 seconds read as 2^53 seconds, and a no-break
    space counts as the white space before the digits.  Whatever the
    message, a hint is positive. *)
Theorem retry_hint_is_read_back (pre rest : string) (n : Z)
    (Hn : 0 < n)
    (Hpre : includes "retry in" (toLowerCase pre) = false) :
  let err := mkError (pre ++ "retry in " ++ Numeral.toDecimal n ++ "s" ++ rest) in
  parseRetryAfterMs err
  = (if Number_isFinite (toNumber n) then Some (toNumber (toNumber n * 1000))
     else None)
  /\ (n * 1000 < 2 ^ 53 -> parseRetryAfterMs err = Some (n * 1000))
  /\ (Number_isFinite (toNumber n) = true -> retryable err = true)
  /\ parseRetryAfterMs (mkError "retry in 9007199254740993s")
     = Some 9007199254740992000
  /\ parseRetryAfterMs
       (mkError ("retry in" ++ String "194" (String "160" "5s")))
     = Some 5000
  /\ (forall e ms, parseRetryAfterMs e = Some ms -> 0 < ms).
Proof.
  intros err.
  assert (Hparse : parseRetryAfterMs err
                   = (if Number_isFinite (toNumber n)
                      then Some (toNumber (toNumber n * 1000)) else None)).
  { unfold parseRetryAfterMs, err. cbn [message].
    change (pre ++ "retry in " ++ Numeral.toDecimal n ++ "s" ++ rest)%string
      with (pre ++ "retry in" ++ (" " ++ Numeral.toDecimal n ++ "s" ++ rest))%string.
    rewrite (searchRetryIn_behind pre _ _ Hpre
               (matchRetryIn_numeral n rest ltac:(lia))).
    rewrite NumeralFacts.digitsOf_value by lia. cbv zeta.
    replace (0 <? toNumber n) with true
      by (symmetry; apply Z.ltb_lt; now apply toNumber_pos).
    now rewrite andb_true_r. }
  split; [exact Hparse|]. split; [|split; [|split; [|split]]].
  - intros Hsmall. rewrite Hparse.
    rewrite (toNumber_small n) by lia. rewrite toNumber_small by lia.
    unfold Number_isFinite, Infinity.
    replace (- 2 ^ 1024 <? n) with true by (symmetry; apply Z.ltb_lt; lia).
    now replace (n <? 2 ^ 1024) with true by (symmetry; apply Z.ltb_lt; lia).
  - intros Hfin. unfold retryable. rewrite Hparse, Hfin. apply orb_true_r.
  - vm_compute. reflexivity.
  - vm_compute. reflexivity.
  - apply parseRetryAfterMs_pos.
Qed.

(** The hint of a throttling message. *)
Lemma retry_hint_is_read_back_witness :
  parseRetryAfterMs (mkError "Too many requests, please retry in 12s.")
  = Some 12000.
Proof.
  apply (proj1 (proj2 (retry_hint_is_read_back "Too many requests, please "
                         "." 12 ltac:(lia) eq_refl))).
  lia.
Defined.


(** ** What a run leaves alone *)

Section Frame.

Variable cfg : config.
Variable now : Z.
Variable p : provider.
Variable key : string.

Lemma ensureCursor_other (db : database) (ck ck' : string) (b : Z) :
  ck' <> ck ->
  scan_cursors (ensureCursor now ck b db) !! ck' = scan_cursors db !! ck'.
Proof.
  intros Hne. unfold ensureCursor.
  destruct (scan_cursors db !! ck); [reflexivity|].
  cbn [scan_cursors]. now apply lookup_insert_ne.
Qed.

Lemma updateCursor_other (db : database) (ck ck' : string) (b : Z) :
  ck' <> ck ->
  scan_cursors (updateCursor now ck b db) !! ck' = scan_cursors db !! ck'.
Proof.
  intros Hne. unfold updateCursor.
  destruct (scan_cursors db !! ck); [|reflexivity].
  cbn [scan_cursors]. now apply lookup_insert_ne.
Qed.

Lemma insertTransfer_adds (e : transferEvent) (db : database) :
  exists more,
    loan_nft_transfers (insertTransfer now key e db)
    = (loan_nft_transfers db ++ more)%list
    /\ Forall (fun r => contract_key r = key) more.
Proof.
  unfold insertTransfer. destruct (bool_decide _).
  - exists []. now rewrite app_nil_r.
  - eexists. split; [reflexivity|]. now repeat constructor.
Qed.

Lemma insertAll_adds (items : list transferEvent) :
  forall db, exists more,
    loan_nft_transfers (insertAll now key items db)
    = (loan_nft_transfers db ++ more)%list
    /\ Forall (fun r => contract_key r = key) more.
Proof.
  induction items as [|e items IH]; intros db; cbn [insertAll].
  - exists []. now rewrite app_nil_r.
  - destruct (IH (insertTransfer now key e db)) as (more2 & H2 & F2).
    destruct (insertTransfer_adds e db) as (more1 & H1 & F1).
    exists (more1 ++ more2)%list. split.
    + now rewrite H2, H1, app_assoc.
    + now apply Forall_app.
Qed.

(** What a window does to the table, however it ends. *)
Lemma commitWindow_adds (logs : list rawlog) (db : database) :
  let db' := snd (fst (commitWindow cfg now p key logs db)) in
  (exists more,
     loan_nft_transfers db' = (loan_nft_transfers db ++ more)%list
     /\ Forall (fun r => contract_key r = key) more)
  /\ (uniqueKeys db -> uniqueKeys db').
Proof.
  destruct (fst (resolveBlockTimestamps p logs)) as [m|e] eqn:E.
  - rewrite (commitWindow_resolved cfg now p key logs m db E). cbn [fst snd].
    split; [apply insertAll_adds | apply insertAll_unique].
  - rewrite (commitWindow_rejected cfg now p key logs e db E). cbn [fst snd].
    split; [|auto]. exists []. now rewrite app_nil_r.
Qed.

(** The loop only appends rows of its target and keeps the keys unique. *)
Lemma windowLoop_adds (latestBlock : Z) (fuel : nat) :
  forall b lastGoodBlock db,
    let db' :=
      snd (fst (windowLoop cfg now p key fuel latestBlock b lastGoodBlock db)) in
    (exists more,
       loan_nft_transfers db' = (loan_nft_transfers db ++ more)%list
       /\ Forall (fun r => contract_key r = key) more)
    /\ (uniqueKeys db -> uniqueKeys db').
Proof.
  assert (Hsame : forall db : database,
            (exists more,
               loan_nft_transfers db = (loan_nft_transfers db ++ more)%list
               /\ Forall (fun r => contract_key r = key) more)
            /\ (uniqueKeys db -> uniqueKeys db)).
  { intros db. split; [|auto]. exists []. now rewrite app_nil_r. }
  induction fuel as [|fuel IH]; intros b lg db; cbn zeta; cbn [windowLoop];
    [apply Hsame|].
  destruct (b <=? latestBlock); [|apply Hsame].
  unfold bind, callFetcher.
  destruct (getLogsWithRetry p b _ None) as [[logs|err] tr]; [|apply Hsame].
  pose proof (commitWindow_adds logs db) as Hc. cbn zeta in Hc.
  destruct (commitWindow cfg now p key logs db) as [[[[]| |] db2] t2];
    cbn [fst snd] in *; try exact Hc.
  specialize (IH (b + (FLR_SCAN_BLOCKS cfg + 1))
                (Z.min (b + FLR_SCAN_BLOCKS cfg) latestBlock) db2).
  cbn zeta in IH.
  destruct (windowLoop cfg now p key fuel latestBlock _ _ db2) as [[o db3] t3].
  cbn [fst snd] in *.
  destruct Hc as ((m1 & E1 & F1) & U1). destruct IH as ((m2 & E2 & F2) & U2).
  split; [|auto].
  exists (m1 ++ m2)%list. split; [now rewrite E2, E1, app_assoc|].
  now apply Forall_app.
Qed.

End Frame.

Lemma string_length_app (a b : string) :
  String.length (a ++ b) = (String.length a + String.length b)%nat.
Proof.
  induction a as [|c a IH]; [reflexivity|].
  change (String c a ++ b)%string with (String c (a ++ b)).
  cbn [String.length]. now rewrite IH.
Qed.

Lemma string_app_inv_tail (a b s : string) :
  (a ++ s)%string = (b ++ s)%string -> a = b.
Proof.
  revert b. induction a as [|c a IH]; intros b H.
  - destruct b as [|d b]; [reflexivity|].
    apply (f_equal String.length) in H.
    rewrite !string_length_app in H. cbn [String.length] in H. lia.
  - destruct b as [|d b].
    + apply (f_equal String.length) in H.
      rewrite !string_length_app in H. cbn [String.length] in H. lia.
    + change (String c (a ++ s) = String d (b ++ s)) in H.
      injection H as -> H. f_equal. now apply IH.
Qed.

(** Different targets have different cursor keys. *)
Lemma cursorKeyOf_inj (k k' : string) : cursorKeyOf k = cursorKeyOf k' -> k = k'.
Proof.
  unfold cursorKeyOf. intros H.
  apply (String.app_inj "loan_nft:") in H.
  now apply string_app_inv_tail in H.
Qed.

(** The cursor table after a run, however it ends: that of [ensureCursor],
    or that with the row of the run's key updated. *)
Lemma scan_cursor_shape
    (cfg : config) (now : Z) (p : provider) (key : string) (fuel : nat)
    (default_start_block : Z) (db : database) (c1 : cursorRow) :
  let ck := cursorKeyOf key in
  let r := scanLoanNftTransfers cfg now p key fuel default_start_block db in
  let db1 := ensureCursor now ck default_start_block db in
  scan_cursors db1 !! ck = Some c1 ->
  (scan_cursors (snd (fst r)) = scan_cursors db1
   \/ exists b, scan_cursors (snd (fst r))
                = <[ck := mkCursor (start_block c1) b now]> (scan_cursors db1))
  /\ (fst (fst r) <> Returned tt -> scan_cursors (snd (fst r)) = scan_cursors db1).
Proof.
  intros ck r db1 Hc1. subst r.
  cbv beta iota zeta delta [scanLoanNftTransfers bind modify getDb await].
  fold ck. fold db1. cbn [fst snd]. rewrite Hc1.
  destruct (getBlockNumber p) as [head|e]; cbn [fst snd];
    [|split; [now left | reflexivity]].
  destruct (head <? _); [split; [now left | reflexivity]|].
  pose proof (windowLoop_cursors cfg now p key head fuel
                (resumeBlock cfg (start_block c1) (last_scanned_block c1))
                (resumeBlock cfg (start_block c1) (last_scanned_block c1) - 1)
                db1) as Hsame.
  destruct (windowLoop cfg now p key fuel head _ _ db1) as [[[lg| |] db2] t2];
    cbn [fst snd] in *; try (split; [now left | intros _; exact Hsame]).
  destruct (_ <=? lg).
  - cbn [fst snd modify]. split; [|congruence].
    right. exists lg. unfold updateCursor. rewrite Hsame, Hc1.
    reflexivity.
  - cbn [fst snd ret]. split; [now left | congruence].
Qed.

(** A run leaves the cursor rows of every other key as they were. *)
Lemma scan_other_cursors
    (cfg : config) (now : Z) (p : provider) (key : string) (fuel : nat)
    (default_start_block : Z) (db : database) (ck' : string) :
  ck' <> cursorKeyOf key ->
  scan_cursors
    (snd (fst (scanLoanNftTransfers cfg now p key fuel default_start_block db)))
  !! ck' = scan_cursors db !! ck'.
Proof.
  intros Hne.
  set (db1 := ensureCursor now (cursorKeyOf key) default_start_block db).
  destruct (scan_cursors db1 !! cursorKeyOf key) as [c1|] eqn:Hc1;
    [|unfold db1 in Hc1; rewrite ensureCursor_lookup in Hc1; discriminate].
  destruct (scan_cursor_shape cfg now p key fuel default_start_block db c1 Hc1)
    as [[->|[b ->]] _].
  - now apply ensureCursor_other.
  - rewrite lookup_insert_ne by congruence. now apply ensureCursor_other.
Qed.

(** X4. However a run of the transfer scan ends, it leaves the cursor rows
    of every other key as they were, and the keys of two targets differ; the
    start block of its own row is the one the row was created with, whatever
    the configured start block is now, and the configured one only when the
    row is new; and a run that does not return normally leaves the cursor
    table as [ensureCursor] left it, without any advance. *)
Theorem scan_touches_only_its_cursor
    (cfg : config) (now : Z) (p : provider) (key : string) (fuel : nat)
    (default_start_block : Z) (db : database) :
  let ck := cursorKeyOf key in
  let r := scanLoanNftTransfers cfg now p key fuel default_start_block db in
  let db' := snd (fst r) in
  (forall ck', ck' <> ck -> scan_cursors db' !! ck' = scan_cursors db !! ck')
  /\ (forall key', key' <> key -> cursorKeyOf key' <> ck)
  /\ (forall c, scan_cursors db !! ck = Some c ->
        exists c', scan_cursors db' !! ck = Some c'
                   /\ start_block c' = start_block c)
  /\ (scan_cursors db !! ck = None ->
        exists c', scan_cursors db' !! ck = Some c'
                   /\ start_block c' = default_start_block)
  /\ (fst (fst r) <> Returned tt ->
        scan_cursors db'
        = scan_cursors (ensureCursor now ck default_start_block db)).
Proof.
  intros ck r db'.
  set (db1 := ensureCursor now ck default_start_block db).
  destruct (scan_cursors db1 !! ck) as [c1|] eqn:Hc1;
    [|unfold db1 in Hc1; rewrite ensureCursor_lookup in Hc1; discriminate].
  destruct (scan_cursor_shape cfg now p key fuel default_start_block db c1 Hc1)
    as [Hshape Hthrown].
  fold ck r db' db1 in Hshape, Hthrown.
  assert (Hown : exists c', scan_cursors db' !! ck = Some c'
                            /\ start_block c' = start_block c1).
  { destruct Hshape as [->|[b ->]]; [eauto|].
    eexists. split; [apply lookup_insert_eq | reflexivity]. }
  split; [|split; [|split; [|split]]].
  - intros ck' Hne. now apply scan_other_cursors.
  - intros key' Hne Heq. apply Hne. now apply cursorKeyOf_inj.
  - intros c Hc. unfold db1 in Hc1. rewrite ensureCursor_lookup, Hc in Hc1.
    cbn in Hc1. injection Hc1 as <-. exact Hown.
  - intros Hnone. unfold db1 in Hc1. rewrite ensureCursor_lookup, Hnone in Hc1.
    cbn in Hc1. injection Hc1 as <-. exact Hown.
  - exact Hthrown.
Qed.

(** A run only appends rows of its target and keeps the keys unique. *)
Lemma scan_adds
    (cfg : config) (now : Z) (p : provider) (key : string) (fuel : nat)
    (default_start_block : Z) (db : database) :
  let db' :=
    snd (fst (scanLoanNftTransfers cfg now p key fuel default_start_block db)) in
  (exists more,
     loan_nft_transfers db' = (loan_nft_transfers db ++ more)%list
     /\ Forall (fun r => contract_key r = key) more)
  /\ (uniqueKeys db -> uniqueKeys db').
Proof.
  intros db'. subst db'. unfold scanLoanNftTransfers.
  set (db1 := ensureCursor now (cursorKeyOf key) default_start_block db).
  assert (Hrows1 : loan_nft_transfers db1 = loan_nft_transfers db)
    by apply ensureCursor_rows.
  assert (Hbase : (exists more,
                     loan_nft_transfers db1 = (loan_nft_transfers db ++ more)%list
                     /\ Forall (fun r => contract_key r = key) more)
                  /\ (uniqueKeys db -> uniqueKeys db1)).
  { split; [exists []; now rewrite app_nil_r|].
    unfold uniqueKeys. now rewrite Hrows1. }
  cbv beta iota zeta delta [bind modify getDb await].
  fold db1. cbn [fst snd].
  destruct (scan_cursors db1 !! cursorKeyOf key) as [c1|]; [|exact Hbase].
  destruct (getBlockNumber p) as [head|e]; cbn [fst snd]; [|exact Hbase].
  destruct (head <? _); [exact Hbase|].
  pose proof (windowLoop_adds cfg now p key head fuel
                (resumeBlock cfg (start_block c1) (last_scanned_block c1))
                (resumeBlock cfg (start_block c1) (last_scanned_block c1) - 1)
                db1) as Hloop.
  cbn zeta in Hloop.
  destruct (windowLoop cfg now p key fuel head _ _ db1) as [[o db2] t2].
  cbn [fst snd] in Hloop.
  assert (Hdb2 : (exists more,
                    loan_nft_transfers db2 = (loan_nft_transfers db ++ more)%list
                    /\ Forall (fun r => contract_key r = key) more)
                 /\ (uniqueKeys db -> uniqueKeys db2)).
  { destruct Hloop as [(more & Hm & Hf) Hu]. split.
    - exists more. now rewrite Hm, Hrows1.
    - intros H. apply Hu. unfold uniqueKeys. now rewrite Hrows1. }
  destruct o as [lg| |]; cbn [fst snd]; try exact Hdb2.
  destruct (_ <=? lg); cbn [fst snd modify ret]; [|exact Hdb2].
  unfold uniqueKeys. now rewrite updateCursor_rows.
Qed.

(** X5. However a run of the transfer scan ends, the rows that were in the
    table are still there, unchanged and in place; the rows it adds all carry
    the key of its target, so the rows of other targets are the same before
    and after; and unique keys stay unique. *)
Theorem scan_only_appends_rows_of_its_target
    (cfg : config) (now : Z) (p : provider) (key : string) (fuel : nat)
    (default_start_block : Z) (db : database) :
  let db' :=
    snd (fst (scanLoanNftTransfers cfg now p key fuel default_start_block db)) in
  (exists more,
     loan_nft_transfers db' = (loan_nft_transfers db ++ more)%list
     /\ Forall (fun r => contract_key r = key) more)
  /\ filter (fun r => contract_key r <> key) (loan_nft_transfers db')
     = filter (fun r => contract_key r <> key) (loan_nft_transfers db)
  /\ (uniqueKeys db -> uniqueKeys db').
Proof.
  intros db'.
  destruct (scan_adds cfg now p key fuel default_start_block db)
    as [(more & Hm & Hf) Hu].
  fold db' in Hm, Hu.
  split; [eauto|]. split; [|exact Hu].
  rewrite Hm, filter_app.
  assert (Hnone : filter (fun r => contract_key r <> key) more = []).
  { clear Hm. induction Hf as [|r more Hr _ IH]; [reflexivity|].
    rewrite filter_cons, decide_False by (intros H; now apply H). exact IH. }
  now rewrite Hnone, app_nil_r.
Qed.

(** ** The window counter of the log lines *)

Section WindowCounter.

Variables scanBlocks latestBlock : Z.
Hypothesis Hsize : 0 <= scanBlocks.

Lemma ceilDiv_step (a b : Z) : 0 < b -> ceilDiv a b = ceilDiv (a - b) b + 1.
Proof.
  intros Hb. unfold ceilDiv.
  replace (- (a - b)) with (- a + 1 * b) by lia.
  rewrite Z.div_add by lia. lia.
Qed.

Lemma tiling_length (b : Z) (ws : list window) :
  tiling scanBlocks latestBlock b ws ->
  b <= latestBlock + scanBlocks + 1 ->
  Z.of_nat (length ws) = scanWindowCount b latestBlock scanBlocks.
Proof.
  unfold scanWindowCount.
  induction 1 as [b Hpast|b ws Hin _ IH]; intros Hnear.
  - cbn [length]. unfold ceilDiv.
    rewrite Z.div_small; lia.
  - cbn [length]. rewrite (ceilDiv_step (latestBlock - b + 1)) by lia.
    rewrite Nat2Z.inj_succ, IH by lia.
    replace (latestBlock - (b + (scanBlocks + 1)) + 1)
      with (latestBlock - b + 1 - (scanBlocks + 1)) by lia.
    lia.
Qed.

Lemma tiling_index (b : Z) (ws : list window) :
  tiling scanBlocks latestBlock b ws ->
  forall (i : nat) (w : window), ws !! i = Some w ->
    windowIndexOf b scanBlocks (fst w) = Z.of_nat i + 1.
Proof.
  intros Ht i w Hw.
  destruct (tiling_lookup scanBlocks latestBlock b ws Hsize Ht i w Hw) as (-> & _).
  unfold windowIndexOf.
  replace (b + Z.of_nat i * (scanBlocks + 1) - b)
    with (Z.of_nat i * (scanBlocks + 1)) by lia.
  rewrite Z.div_mul; lia.
Qed.

End WindowCounter.

(** X6. The window count of the log lines is the number of windows of the
    loop, and the window index that the trove-event and stability-pool loops
    compute from the block is the position of the window in the loop,
    counted from one as the transfer loop counts it; so the index runs from
    one to the count and the last window shows count/count. *)
Theorem window_counter_counts_the_loop
    (fuel : nat) (scanBlocks latestBlock fromBlock : Z) (ws : list window)
    (Hsize : 0 <= scanBlocks) (Hfrom : fromBlock <= latestBlock)
    (Hws : scheduleWindows fuel scanBlocks latestBlock fromBlock = Some ws) :
  let totalWindows := scanWindowCount fromBlock latestBlock scanBlocks in
  Z.of_nat (length ws) = totalWindows
  /\ 1 <= totalWindows
  /\ (forall (i : nat) (w : window), ws !! i = Some w ->
        windowIndexOf fromBlock scanBlocks (fst w) = Z.of_nat i + 1
        /\ 1 <= windowIndexOf fromBlock scanBlocks (fst w) <= totalWindows)
  /\ (forall w, last ws = Some w ->
        windowIndexOf fromBlock scanBlocks (fst w) = totalWindows).
Proof.
  intros totalWindows.
  pose proof (scheduleWindows_tiling scanBlocks latestBlock fuel fromBlock ws Hws)
    as Ht.
  pose proof (tiling_length scanBlocks latestBlock Hsize fromBlock ws Ht
                ltac:(lia)) as Hlen.
  fold totalWindows in Hlen.
  assert (Hne : ws <> []) by now apply (tiling_nonempty scanBlocks latestBlock fromBlock).
  split; [exact Hlen|]. split; [|split].
  - destruct ws; [congruence|]. cbn [length] in Hlen. lia.
  - intros i w Hw.
    pose proof (tiling_index scanBlocks latestBlock Hsize fromBlock ws Ht i w Hw)
      as Hi.
    split; [exact Hi|]. apply lookup_lt_Some in Hw. lia.
  - intros w Hw. rewrite last_lookup in Hw.
    rewrite (tiling_index scanBlocks latestBlock Hsize fromBlock ws Ht _ w Hw).
    destruct ws; [congruence|]. cbn [length Nat.pred] in *. lia.
Qed.

Lemma window_counter_counts_the_loop_witness :
  exists ws,
    scheduleWindows 12 2 10 1 = Some ws
    /\ Z.of_nat (length ws) = scanWindowCount 1 10 2
    /\ scanWindowCount 1 10 2 = 4.
Proof.
  exists [(1, 3); (4, 6); (7, 9); (10, 10)].
  split; [reflexivity|]. split; [|reflexivity].
  apply (window_counter_counts_the_loop 12 2 10 1); [lia | lia | reflexivity].
Defined.

(** ** The requests of a run against any provider *)

Section Requests.

Variable cfg : config.
Variable now : Z.
Variable p : provider.
Variable key : string.

Lemma getLogsCalls_app (t1 t2 : list io) :
  getLogsCalls (t1 ++ t2) = (getLogsCalls t1 + getLogsCalls t2)%nat.
Proof. unfold getLogsCalls. now rewrite filter_app, length_app. Qed.

Lemma getLogsCalls_none (tr : list io) :
  Forall (fun e => isGetLogs e = false) tr -> getLogsCalls tr = O.
Proof.
  unfold getLogsCalls. induction 1 as [|e tr He _ IH]; [reflexivity|].
  rewrite filter_cons, decide_False by congruence. exact IH.
Qed.

Lemma callsWithin_none (ws : list window) (tr : list io) :
  Forall (fun e => isGetLogs e = false) tr -> callsWithin ws tr.
Proof.
  unfold callsWithin. intros Hall. eapply Forall_impl; [exact Hall|].
  intros [] H; try exact I. discriminate.
Qed.

Lemma callsWithin_weaken (w : window) (ws : list window) (tr : list io) :
  callsWithin ws tr -> callsWithin (w :: ws) tr.
Proof.
  unfold callsWithin. intros Hall. eapply Forall_impl; [exact Hall|].
  intros [] H; try exact I.
  destruct H as [H ?]. split; [now apply list_elem_of_further | assumption].
Qed.

(** The calls of one fetch are for its range, numbered upwards. *)
Lemma retryLoop_calls (fromBlock toBlock maxAttempts : Z) (remaining : nat) :
  forall attempt backoffMs,
    Forall (fun e => match e with
                     | IoGetLogs b t k =>
                         b = fromBlock /\ t = toBlock
                         /\ attempt < k <= attempt + Z.of_nat remaining
                     | _ => True
                     end)
      (snd (retryLoop p fromBlock toBlock maxAttempts remaining attempt backoffMs)).
Proof.
  induction remaining as [|remaining IH]; intros attempt backoffMs;
    cbn [retryLoop]; [constructor|].
  destruct (getLogs p fromBlock toBlock (attempt + 1)) as [logs|err];
    [repeat constructor; lia|].
  destruct (negb _ || _); [repeat constructor; lia|].
  specialize (IH (attempt + 1) (Z.min (backoffMs * 2) 10000)).
  destruct (retryLoop p fromBlock toBlock maxAttempts remaining (attempt + 1) _)
    as [res tr].
  cbn [snd] in *. constructor; [repeat split; lia|]. constructor; [exact I|].
  eapply Forall_impl; [exact IH|]. intros [] H; try exact I. lia.
Qed.

Lemma getLogsWithRetry_calls (w : window) (ws : list window) :
  callsWithin (w :: ws) (snd (getLogsWithRetry p (fst w) (snd w) None))
  /\ (getLogsCalls (snd (getLogsWithRetry p (fst w) (snd w) None)) <= 6)%nat.
Proof.
  unfold getLogsWithRetry. cbn [default]. split.
  - pose proof (retryLoop_calls (fst w) (snd w) 6 (Z.to_nat 6) 0 750) as H.
    eapply Forall_impl; [exact H|]. intros [] H'; try exact I.
    destruct H' as (-> & -> & H'). split; [|lia].
    destruct w. apply list_elem_of_here.
  - now destruct (retryLoop_bounds p (fst w) (snd w) 6 (Z.to_nat 6) 0 750
                    ltac:(lia)) as (H & _).
Qed.

Lemma commitWindow_no_requests (logs : list rawlog) (db : database) :
  Forall (fun e => isGetLogs e = false)
    (snd (commitWindow cfg now p key logs db)).
Proof.
  assert (Hlook : Forall (fun e => isGetLogs e = false)
                    (map IoGetBlock (uniqueBlocks logs ∅))).
  { apply Forall_forall. intros e He. apply list_elem_of_In, in_map_iff in He.
    now destruct He as (bn & <- & _). }
  destruct (fst (resolveBlockTimestamps p logs)) as [m|e] eqn:E.
  - rewrite (commitWindow_resolved cfg now p key logs m db E). cbn [snd].
    repeat apply Forall_app_2; [exact Hlook| |].
    + destruct (bool_decide _); repeat constructor.
    + destruct (0 <? FLR_PAUSE_MS cfg); repeat constructor.
  - now rewrite (commitWindow_rejected cfg now p key logs e db E).
Qed.

(** Whatever the provider answers, the windows requested are the first
    windows of the list, every call is for one of them, and there are at
    most six calls for each. *)
Lemma runWindows_requests (ws : list window) :
  forall lastGoodBlock db,
    let tr := snd (runWindows cfg now p key ws lastGoodBlock db) in
    requestedWindows tr `prefix_of` ws
    /\ callsWithin ws tr
    /\ (getLogsCalls tr <= 6 * length (requestedWindows tr))%nat.
Proof.
  induction ws as [|w ws IH]; intros lg db; cbn zeta; cbn [runWindows].
  - cbn. split; [reflexivity|]. split; [constructor | lia].
  - unfold bind, callFetcher.
    pose proof (getLogsWithRetry_requests p (fst w) (snd w)) as Hreq.
    destruct (getLogsWithRetry_calls w ws) as [Hin Hsix].
    destruct (getLogsWithRetry p (fst w) (snd w) None) as [[logs|err] t1];
      cbn [fst snd] in *.
    + pose proof (commitWindow_no_requests logs db) as Hc.
      destruct (commitWindow cfg now p key logs db) as [[[[]| |] db2] t2];
        cbn [fst snd] in *.
      * specialize (IH (snd w) db2). cbn zeta in IH.
        destruct (runWindows cfg now p key ws (snd w) db2) as [[o db3] t3].
        cbn [fst snd] in *. destruct IH as (Hpre & Hcalls & Hcount).
        rewrite !requestedWindows_app, Hreq, (requestedWindows_none t2 Hc).
        rewrite !getLogsCalls_app, (getLogsCalls_none t2 Hc).
        cbn [app length]. destruct w as [b t]. cbn [fst snd].
        split; [now apply prefix_cons|]. split; [|lia].
        apply Forall_app_2; [exact Hin|].
        apply Forall_app_2; [now apply callsWithin_none|].
        now apply callsWithin_weaken.
      * rewrite !requestedWindows_app, Hreq, (requestedWindows_none t2 Hc).
        rewrite !getLogsCalls_app, (getLogsCalls_none t2 Hc).
        cbn [app length]. destruct w as [b t]. cbn [fst snd].
        split; [apply prefix_cons, prefix_nil|]. split; [|lia].
        apply Forall_app_2; [exact Hin | now apply callsWithin_none].
      * rewrite !requestedWindows_app, Hreq, (requestedWindows_none t2 Hc).
        rewrite !getLogsCalls_app, (getLogsCalls_none t2 Hc).
        cbn [app length]. destruct w as [b t]. cbn [fst snd].
        split; [apply prefix_cons, prefix_nil|]. split; [|lia].
        apply Forall_app_2; [exact Hin | now apply callsWithin_none].
    + unfold ret. cbn [fst snd]. rewrite app_nil_r, Hreq. cbn [length]. destruct w as [b t]. cbn [fst snd].
      split; [apply prefix_cons, prefix_nil|]. split; [exact Hin | lia].
Qed.

(** The loop does not ask for the head block. *)
Lemma runWindows_no_head (ws : list window) :
  forall lastGoodBlock db,
    Forall (fun e => e <> IoGetBlockNumber)
      (snd (runWindows cfg now p key ws lastGoodBlock db)).
Proof.
  assert (Hweak : forall tr, Forall (fun e => isGetLogs e = false) tr ->
            (forall e, e ∈ tr -> e <> IoGetBlockNumber) ->
            Forall (fun e => e <> IoGetBlockNumber) tr).
  { intros tr _ H. now apply Forall_forall. }
  induction ws as [|w ws IH]; intros lg db; cbn [runWindows]; [constructor|].
  unfold bind, callFetcher.
  assert (Hfetch : Forall (fun e => e <> IoGetBlockNumber)
                     (snd (getLogsWithRetry p (fst w) (snd w) None))).
  { unfold getLogsWithRetry. cbn [default].
    destruct (retryLoop_bounds p (fst w) (snd w) 6 (Z.to_nat 6) 0 750
                ltac:(lia)) as (_ & _ & _ & H).
    eapply Forall_impl; [exact H|]. intros [] He; try easy. }
  destruct (getLogsWithRetry p (fst w) (snd w) None) as [[logs|err] t1];
    cbn [fst snd] in *.
  - assert (Hc : Forall (fun e => e <> IoGetBlockNumber)
                   (snd (commitWindow cfg now p key logs db))).
    { destruct (fst (resolveBlockTimestamps p logs)) as [m|e] eqn:E.
      - rewrite (commitWindow_resolved cfg now p key logs m db E). cbn [snd].
        repeat apply Forall_app_2.
        + apply Forall_forall. intros e He.
          apply list_elem_of_In, in_map_iff in He.
          now destruct He as (bn & <- & _).
        + destruct (bool_decide _); repeat constructor; discriminate.
        + destruct (0 <? FLR_PAUSE_MS cfg); repeat constructor; discriminate.
      - rewrite (commitWindow_rejected cfg now p key logs e db E). cbn [snd].
        apply Forall_forall. intros e' He.
        apply list_elem_of_In, in_map_iff in He.
        now destruct He as (bn & <- & _). }
    destruct (commitWindow cfg now p key logs db) as [[[[]| |] db2] t2];
      cbn [fst snd] in *.
    + specialize (IH (snd w) db2).
      destruct (runWindows cfg now p key ws (snd w) db2) as [[o db3] t3].
      cbn [fst snd] in *. now repeat apply Forall_app_2.
    + now apply Forall_app_2.
    + now apply Forall_app_2.
  - unfold ret. cbn [fst snd]. now rewrite app_nil_r.
Qed.

End Requests.

(** X7. Whatever the provider answers to the requests and the lookups, a run
    of the transfer scan asks the head block first and once, then requests
    the windows of its schedule in order without skipping one, stopping
    anywhere; every call for logs, retries included, is for a window of the
    schedule, so for blocks from the resume block to the head; and it makes
    at most six calls for each window it requests. *)
Theorem scan_requests_follow_the_schedule
    (cfg : config) (now : Z) (p : provider) (key : string) (fuel : nat)
    (default_start_block : Z) (db : database) (cursor : cursorRow)
    (latestBlock : Z) (ws : list window)
    (Hsize : 0 <= FLR_SCAN_BLOCKS cfg)
    (Hcursor : scan_cursors
                 (ensureCursor now (cursorKeyOf key) default_start_block db)
               !! cursorKeyOf key = Some cursor)
    (Hhead : getBlockNumber p = Resolved latestBlock)
    (Hws : scheduleWindows fuel (FLR_SCAN_BLOCKS cfg) latestBlock
             (resumeBlock cfg (start_block cursor) (last_scanned_block cursor))
           = Some ws) :
  let fromBlock :=
    resumeBlock cfg (start_block cursor) (last_scanned_block cursor) in
  let tr :=
    snd (scanLoanNftTransfers cfg now p key fuel default_start_block db) in
  (exists rest, tr = IoGetBlockNumber :: rest
                /\ Forall (fun e => e <> IoGetBlockNumber) rest)
  /\ requestedWindows tr `prefix_of` ws
  /\ callsWithin ws tr
  /\ Forall (fun e => match e with
                      | IoGetLogs b t _ =>
                          fromBlock <= b <= t /\ t <= latestBlock
                          /\ t - b <= FLR_SCAN_BLOCKS cfg
                      | _ => True
                      end) tr
  /\ (getLogsCalls tr <= 6 * length (requestedWindows tr))%nat.
Proof.
  intros fromBlock tr.
  pose proof (scheduleWindows_tiling _ _ fuel fromBlock ws Hws) as Ht.
  assert (Hrange : forall tr', callsWithin ws tr' ->
            Forall (fun e => match e with
                      | IoGetLogs b t _ =>
                          fromBlock <= b <= t /\ t <= latestBlock
                          /\ t - b <= FLR_SCAN_BLOCKS cfg
                      | _ => True
                      end) tr').
  { intros tr' Hall. eapply Forall_impl; [exact Hall|].
    intros [] H; try exact I.
    destruct H as [Hin _]. apply list_elem_of_lookup in Hin as [i Hi].
    destruct (tiling_lookup _ _ fromBlock ws Hsize Ht i _ Hi)
      as (Hf & Hs & Hfs & Hl). cbn [fst snd] in *. nia. }
  assert (Hall : exists rest,
            tr = IoGetBlockNumber :: rest
            /\ requestedWindows rest `prefix_of` ws
            /\ callsWithin ws rest
            /\ (getLogsCalls rest <= 6 * length (requestedWindows rest))%nat
            /\ Forall (fun e => e <> IoGetBlockNumber) rest).
  { subst tr.
    cbv beta iota zeta delta [scanLoanNftTransfers bind modify getDb await].
    cbn [fst snd]. rewrite Hcursor, Hhead. cbn [fst snd]. fold fromBlock.
    destruct (latestBlock <? fromBlock).
    { exists []. cbn. repeat split; try constructor. apply prefix_nil. }
    rewrite (windowLoop_runWindows cfg now p key latestBlock fuel fromBlock ws
               _ _ Hws).
    pose proof (runWindows_requests cfg now p key ws (fromBlock - 1)
                  (ensureCursor now (cursorKeyOf key) default_start_block db))
      as Hrun.
    cbn zeta in Hrun.
    pose proof (runWindows_no_head cfg now p key ws (fromBlock - 1)
                  (ensureCursor now (cursorKeyOf key) default_start_block db))
      as Hnohead.
    destruct (runWindows cfg now p key ws (fromBlock - 1) _) as [[o db2] t2].
    cbn [fst snd] in Hrun, Hnohead. destruct Hrun as (Hpre & Hcalls & Hcount).
    destruct o as [lg| |]; cbn [fst snd].
    - destruct (fromBlock <=? lg); cbn [fst snd].
      + exists t2. rewrite ?app_nil_r. split; [reflexivity | auto 10].
      + exists t2. unfold ret. cbn [fst snd]. rewrite ?app_nil_r.
        split; [reflexivity | auto 10].
    - exists t2. split; [reflexivity | auto 10].
    - exists t2. split; [reflexivity | auto 10]. }
  destruct Hall as (rest & -> & Hpre & Hcalls & Hcount & Hnohead).
  cbn [requestedWindows]. split; [eauto|]. split; [exact Hpre|].
  split; [constructor; [exact I | exact Hcalls]|].
  split; [apply Hrange; constructor; [exact I | exact Hcalls]|].
  unfold getLogsCalls in *. rewrite filter_cons, decide_False by discriminate.
  exact Hcount.
Qed.

(** A run whose first timestamp lookup is rejected: one window requested of
    the three of the schedule, with one call. *)
Lemma scan_requests_follow_the_schedule_witness :
  let tr :=
    snd (scanLoanNftTransfers (mkConfig 9 0 5) 8 Examples.lookupRejected "k" 30
           0 Examples.emptyStore) in
  requestedWindows tr = [(0, 9)]
  /\ requestedWindows tr `prefix_of` [(0, 9); (10, 19); (20, 20)]
  /\ (getLogsCalls tr <= 6 * length (requestedWindows tr))%nat.
Proof.
  destruct (scan_requests_follow_the_schedule
              (mkConfig 9 0 5) 8 Examples.lookupRejected "k" 30 0
              Examples.emptyStore (mkCursor 0 0 8) 20
              [(0, 9); (10, 19); (20, 20)])
    as (_ & Hpre & _ & _ & Hcount).
  - cbn; lia.
  - vm_compute; reflexivity.
  - reflexivity.
  - vm_compute; reflexivity.
  - split; [vm_compute; reflexivity|]. split; [exact Hpre | exact Hcount].
Defined.

(** ** A run against a provider that serves a chain *)

Section Chain.

Variable cfg : config.
Variable now : Z.
Variable p : provider.
Variable key : string.
Variable chain : list rawlog.
Hypothesis Hserves : serves chain p.

Lemma getLogsWithRetry_serves (w : window) :
  getLogsWithRetry p (fst w) (snd w) None
  = (FetchOk (filter (fun lg => inWindow w lg = true) chain),
     [IoGetLogs (fst w) (snd w) 1]).
Proof.
  unfold getLogsWithRetry. cbn [default].
  change (Z.to_nat 6) with 6%nat. cbn [retryLoop]. change (0 + 1) with 1.
  destruct Hserves as [Hlogs _]. rewrite Hlogs. now destruct w.
Qed.

Lemma logsOf_serves (w : window) :
  logsOf p w = filter (fun lg => inWindow w lg = true) chain.
Proof. unfold logsOf. now rewrite getLogsWithRetry_serves. Qed.

Lemma windowOk_serves (w : window) : windowOk p w.
Proof.
  split.
  - eexists. now rewrite getLogsWithRetry_serves.
  - intros bn _. apply Hserves.
Qed.

Lemma decodeTransfers_elem (m : gmap Z Z) (logs : list rawlog) (e : transferEvent) :
  e ∈ decodeTransfers m logs
  <-> exists lg, lg ∈ logs /\ decodeTransfer m lg = Some e.
Proof.
  induction logs as [|lg logs IH]; cbn [decodeTransfers].
  - split; [intros H; inversion H | intros (lg & H & _); inversion H].
  - destruct (decodeTransfer m lg) as [e0|] eqn:E.
    + rewrite elem_of_cons, IH. split.
      * intros [->|(lg' & Hin & Hd)];
          [exists lg; split; [left | exact E] | exists lg'; split; [now right | exact Hd]].
      * intros (lg' & Hin & Hd). apply elem_of_cons in Hin as [->|Hin].
        -- left. congruence.
        -- right. eauto.
    + rewrite IH. split.
      * intros (lg' & Hin & Hd). exists lg'. split; [now right | exact Hd].
      * intros (lg' & Hin & Hd). apply elem_of_cons in Hin as [->|Hin];
          [congruence | eauto].
Qed.

Lemma decodeTransfer_block (m : gmap Z Z) (lg : rawlog) (e : transferEvent) :
  decodeTransfer m lg = Some e -> ev_blockNumber e = lg_blockNumber lg.
Proof.
  unfold decodeTransfer.
  destruct (lg_topics lg) as [topics|]; [|discriminate].
  destruct (Z.of_nat (length topics) <? 4); [discriminate|].
  destruct (getStableLogIndex lg); [|discriminate].
  destruct (lg_transactionHash lg) as [[|ch s]|]; try discriminate.
  now intros [= <-].
Qed.

(** The events of a window are those of the well-formed logs of the chain
    in it. *)
Lemma eventsOf_serves (w : window) (e : transferEvent) :
  e ∈ eventsOf p w
  <-> exists lg, lg ∈ chain /\ inWindow w lg = true
                 /\ decodeTransfer (timestampsOf p (logsOf p w)) lg = Some e.
Proof.
  unfold eventsOf. rewrite decodeTransfers_elem. rewrite logsOf_serves.
  split; intros (lg & Hin & Hd).
  - apply list_elem_of_filter in Hin as [Hw Hin]. eauto.
  - destruct Hd as [Hw Hd]. exists lg. split; [|exact Hd].
    apply list_elem_of_filter. split; assumption.
Qed.

Lemma commitWindows_keeps_keys (ws : list window) :
  forall db k,
    k ∈ map rowKey (loan_nft_transfers db) ->
    k ∈ map rowKey (loan_nft_transfers (commitWindows now p key ws db)).
Proof.
  induction ws as [|w ws IH]; intros db k Hk; [exact Hk|].
  change (commitWindows now p key (w :: ws) db)
    with (commitWindows now p key ws (insertAll now key (eventsOf p w) db)).
  apply IH. now apply insertAll_keeps_keys.
Qed.

Lemma commitWindows_stored (ws : list window) :
  forall db w e, w ∈ ws -> e ∈ eventsOf p w ->
    eventKey key e ∈ map rowKey (loan_nft_transfers (commitWindows now p key ws db)).
Proof.
  induction ws as [|w0 ws IH]; intros db w e Hw He; [inversion Hw|].
  change (commitWindows now p key (w0 :: ws) db)
    with (commitWindows now p key ws (insertAll now key (eventsOf p w0) db)).
  apply elem_of_cons in Hw as [->|Hw].
  - apply commitWindows_keeps_keys. now apply insertAll_stored.
  - now apply (IH _ w).
Qed.

Lemma commitWindows_new_rows (ws : list window) :
  forall db row,
    row ∈ loan_nft_transfers (commitWindows now p key ws db) ->
    row ∈ loan_nft_transfers db
    \/ exists w e, w ∈ ws /\ e ∈ eventsOf p w
         /\ rowKey row = eventKey key e
         /\ block_number row = ev_blockNumber e
         /\ block_timestamp row = ev_blockTimestamp e.
Proof.
  induction ws as [|w0 ws IH]; intros db row Hrow; [now left|].
  change (commitWindows now p key (w0 :: ws) db)
    with (commitWindows now p key ws (insertAll now key (eventsOf p w0) db))
    in Hrow.
  destruct (IH _ row Hrow) as [Hold|(w & e & Hw & He & Hk)].
  - apply insertAll_new_rows in Hold as [Hold|(e & He & Hk)]; [now left|].
    right. exists w0, e. split; [left | split; assumption].
  - right. exists w, e. split; [now right | split; assumption].
Qed.

(** Windows whose events are all stored add no row. *)
Lemma commitWindows_noop (ws : list window) :
  forall db,
    (forall w e, w ∈ ws -> e ∈ eventsOf p w ->
       eventKey key e ∈ map rowKey (loan_nft_transfers db)) ->
    loan_nft_transfers (commitWindows now p key ws db) = loan_nft_transfers db.
Proof.
  induction ws as [|w ws IH]; intros db Hall; [reflexivity|].
  change (commitWindows now p key (w :: ws) db)
    with (commitWindows now p key ws (insertAll now key (eventsOf p w) db)).
  destruct (insertAll_conflicts key now (eventsOf p w) db) as [Hrows _].
  { intros e He. apply (Hall w e); [left | exact He]. }
  rewrite IH; [exact Hrows|].
  intros w' e Hw He. rewrite Hrows. apply (Hall w' e); [now right | exact He].
Qed.

(** The row ids given out are never given back. *)
Lemma commitWindows_seq (ws : list window) :
  forall db, transfers_seq db <= transfers_seq (commitWindows now p key ws db).
Proof.
  induction ws as [|w ws IH]; intros db; [cbn; lia|].
  change (commitWindows now p key (w :: ws) db)
    with (commitWindows now p key ws (insertAll now key (eventsOf p w) db)).
  pose proof (insertAll_seq key now (eventsOf p w) db).
  specialize (IH (insertAll now key (eventsOf p w) db)). lia.
Qed.

Lemma windowTraces_calls (ws : list window) :
  getLogsCalls (flat_map (windowTrace cfg p) ws) = length ws.
Proof.
  induction ws as [|w ws IH]; [reflexivity|].
  cbn [flat_map length]. rewrite getLogsCalls_app, IH.
  enough (Hone : getLogsCalls (windowTrace cfg p w) = 1%nat) by now rewrite Hone.
  unfold windowTrace. rewrite getLogsWithRetry_serves. cbn [snd].
  rewrite getLogsCalls_app.
  rewrite (getLogsCalls_none (_ ++ _)); [reflexivity|].
  repeat apply Forall_app_2.
  - apply Forall_forall. intros e He. apply list_elem_of_In, in_map_iff in He.
    now destruct He as (bn & <- & _).
  - destruct (bool_decide _); repeat constructor.
  - destruct (0 <? FLR_PAUSE_MS cfg); repeat constructor.
Qed.

End Chain.

Lemma lastBlockOf_complete (scanBlocks latestBlock b x : Z) (ws : list window) :
  tiling scanBlocks latestBlock b ws -> ws <> [] ->
  lastBlockOf ws x = latestBlock.
Proof.
  intros Ht Hne. destruct ws as [|w ws _] using rev_ind; [congruence|].
  rewrite lastBlockOf_snoc. exact (tiling_last _ _ _ _ Ht ws w eq_refl).
Qed.

(** A run with enough rounds against a provider that serves a chain goes
    through every window of its schedule. *)
Lemma scan_serves
    (cfg : config) (now : Z) (p : provider) (key : string) (fuel : nat)
    (default_start_block : Z) (db : database) (cursor : cursorRow)
    (latestBlock : Z) (chain : list rawlog) :
  let db1 := ensureCursor now (cursorKeyOf key) default_start_block db in
  let fromBlock :=
    resumeBlock cfg (start_block cursor) (last_scanned_block cursor) in
  serves chain p ->
  getBlockNumber p = Resolved latestBlock ->
  0 <= FLR_SCAN_BLOCKS cfg ->
  scan_cursors db1 !! cursorKeyOf key = Some cursor ->
  fromBlock <= latestBlock ->
  (enoughFuel latestBlock fromBlock <= fuel)%nat ->
  exists ws,
    tiling (FLR_SCAN_BLOCKS cfg) latestBlock fromBlock ws
    /\ scanLoanNftTransfers cfg now p key fuel default_start_block db
       = (Returned tt,
          updateCursor now (cursorKeyOf key) latestBlock
            (commitWindows now p key ws db1),
          (IoGetBlockNumber :: flat_map (windowTrace cfg p) ws)%list).
Proof.
  intros db1 fromBlock Hserves Hhead Hsize Hcursor Hfrom Hfuel.
  destruct (scheduleWindows_enough (FLR_SCAN_BLOCKS cfg) latestBlock fuel Hsize
              fromBlock Hfuel) as [ws Hws].
  pose proof (scheduleWindows_tiling _ _ _ _ _ Hws) as Ht.
  assert (Hne : ws <> []) by exact (tiling_nonempty _ _ _ _ Hfrom Ht).
  exists ws. split; [exact Ht|].
  rewrite (scan_run cfg now p key fuel default_start_block db cursor
             latestBlock ws []); try assumption.
  - fold db1. fold fromBlock. rewrite decide_False by exact Hne.
    rewrite (lastBlockOf_complete _ _ _ (fromBlock - 1) _ Ht Hne).
    now rewrite app_nil_r.
  - now rewrite app_nil_r.
  - apply Forall_forall. intros w _. now apply (windowOk_serves p chain).
  - now left.
Qed.

(** X8. Against a provider that answers every first request with the logs
    of a chain in the requested range and resolves the block lookups, a run
    with enough rounds returns, makes exactly one call per window of the
    count, and leaves the cursor at the head block; afterwards every
    well-formed log of the chain between the resume block and the head has
    a row under its key, and every row is an old row or the row of such a
    log, with its block number and under the key of the target. *)
Theorem complete_run_stores_the_chain
    (cfg : config) (now : Z) (p : provider) (key : string) (fuel : nat)
    (default_start_block : Z) (db : database) (cursor : cursorRow)
    (latestBlock : Z) (chain : list rawlog)
    (Hserves : serves chain p)
    (Hhead : getBlockNumber p = Resolved latestBlock)
    (Hsize : 0 <= FLR_SCAN_BLOCKS cfg)
    (Hcursor : scan_cursors
                 (ensureCursor now (cursorKeyOf key) default_start_block db)
               !! cursorKeyOf key = Some cursor)
    (Hfrom : resumeBlock cfg (start_block cursor) (last_scanned_block cursor)
             <= latestBlock)
    (Hfuel : (enoughFuel latestBlock
                (resumeBlock cfg (start_block cursor) (last_scanned_block cursor))
              <= fuel)%nat) :
  let fromBlock :=
    resumeBlock cfg (start_block cursor) (last_scanned_block cursor) in
  let r := scanLoanNftTransfers cfg now p key fuel default_start_block db in
  let db' := snd (fst r) in
  fst (fst r) = Returned tt
  /\ Z.of_nat (getLogsCalls (snd r))
     = scanWindowCount fromBlock latestBlock (FLR_SCAN_BLOCKS cfg)
  /\ scan_cursors db' !! cursorKeyOf key
     = Some (mkCursor (start_block cursor) latestBlock now)
  /\ (forall lg, lg ∈ chain ->
        fromBlock <= lg_blockNumber lg <= latestBlock ->
        malformed lg = false ->
        exists txHash li,
          lg_transactionHash lg = Some txHash
          /\ getStableLogIndex lg = Some li
          /\ (key, txHash, li) ∈ map rowKey (loan_nft_transfers db'))
  /\ (forall row, row ∈ loan_nft_transfers db' ->
        row ∈ loan_nft_transfers db
        \/ exists lg, lg ∈ chain
             /\ fromBlock <= lg_blockNumber lg <= latestBlock
             /\ malformed lg = false
             /\ contract_key row = key
             /\ block_number row = lg_blockNumber lg
             /\ lg_transactionHash lg = Some (tx_hash row)
             /\ getStableLogIndex lg = Some (log_index row)).
Proof.
  intros fromBlock r db'.
  destruct (scan_serves cfg now p key fuel default_start_block db cursor
              latestBlock chain Hserves Hhead Hsize Hcursor Hfrom Hfuel)
    as (ws & Ht & Hr).
  fold r in Hr.
  set (db1 := ensureCursor now (cursorKeyOf key) default_start_block db) in *.
  assert (Hrows : loan_nft_transfers db'
                  = loan_nft_transfers (commitWindows now p key ws db1)).
  { subst db'. rewrite Hr. cbn [fst snd]. apply updateCursor_rows. }
  split; [now rewrite Hr|]. split; [|split; [|split]].
  - rewrite Hr. cbn [snd]. unfold getLogsCalls at 1.
    rewrite filter_cons, decide_False by discriminate.
    fold (getLogsCalls (flat_map (windowTrace cfg p) ws)).
    rewrite (windowTraces_calls cfg p chain Hserves).
    apply (tiling_length _ _ Hsize _ _ Ht). unfold fromBlock in *. lia.
  - subst db'. rewrite Hr. cbn [fst snd]. apply lastScanned_updateCursor.
    now rewrite commitWindows_cursors.
  - intros lg Hlg Hrange Hwell. rewrite Hrows.
    destruct (proj1 (tiling_cover _ _ fromBlock ws Hsize Ht (lg_blockNumber lg))
                Hrange) as (w & Hw & Hin).
    destruct (decodeTransfer (timestampsOf p (logsOf p w)) lg) as [e|] eqn:Hd;
      [|apply decodeTransfer_None in Hd; congruence].
    destruct (decodeTransfer_key _ _ _ Hd) as [Htx Hli].
    exists (ev_txHash e), (ev_logIndex e). split; [exact Htx|]. split; [exact Hli|].
    apply (commitWindows_stored now p key ws db1 w e Hw).
    apply (eventsOf_serves p chain Hserves). exists lg. split; [exact Hlg|].
    split; [|exact Hd]. unfold inWindow.
    apply andb_true_intro. split; apply Z.leb_le; lia.
  - intros row Hrow. rewrite Hrows in Hrow.
    apply commitWindows_new_rows in Hrow as [Hold|(w & e & Hw & He & Hk & Hb & _)].
    { left. unfold db1 in Hold. now rewrite ensureCursor_rows in Hold. }
    right. apply (eventsOf_serves p chain Hserves) in He as (lg & Hlg & Hin & Hd).
    destruct (decodeTransfer_key _ _ _ Hd) as [Htx Hli].
    unfold rowKey, eventKey in Hk. injection Hk as Hck Hrtx Hrli.
    apply list_elem_of_lookup in Hw as [i Hi].
    destruct (tiling_lookup _ _ fromBlock ws Hsize Ht i w Hi) as (Hf & _ & _ & Hl).
    unfold inWindow in Hin. apply andb_prop in Hin as [H1 H2].
    apply Z.leb_le in H1, H2.
    exists lg. split; [exact Hlg|]. split; [nia|].
    split; [|split; [exact Hck|split; [|split]]].
    + destruct (malformed lg) eqn:Hm; [|reflexivity].
      apply decodeTransfer_None with (m := timestampsOf p (logsOf p w)) in Hm.
      congruence.
    + rewrite Hb. now apply decodeTransfer_block in Hd.
    + now rewrite Hrtx.
    + now rewrite Hrli.
Qed.

(** The ten logs of the example batch, scanned from block 9 to the head at
    14 in windows of two blocks. *)
Lemma complete_run_stores_the_chain_witness :
  let r := scanLoanNftTransfers (mkConfig 1 0 5) 8
             (MoreExamples.serving 14 Examples.batchOfTen) "k" 10 9
             Examples.emptyStore in
  fst (fst r) = Returned tt
  /\ Z.of_nat (getLogsCalls (snd r)) = 3
  /\ scan_cursors (snd (fst r)) !! cursorKeyOf "k" = Some (mkCursor 9 14 8).
Proof.
  destruct (complete_run_stores_the_chain (mkConfig 1 0 5) 8
              (MoreExamples.serving 14 Examples.batchOfTen) "k" 10 9
              Examples.emptyStore (mkCursor 9 0 8) 14 Examples.batchOfTen)
    as (Hret & Hcalls & Hcur & _).
  - split; [reflexivity | intros bn; eexists; reflexivity].
  - reflexivity.
  - cbn; lia.
  - vm_compute; reflexivity.
  - vm_compute; discriminate.
  - vm_compute; lia.
  - split; [exact Hret|]. split; [exact Hcalls | exact Hcur].
Defined.

(** X9. When a complete run against a provider that serves a chain is
    followed by a second run against the same chain and head, with an
    overlap that is not negative, the second run returns and adds no row,
    although it fetches the overlap again and its ignored inserts use up row
    ids, so that the sequence does not go back; it leaves the cursor at the
    head, and the configured start block of the second run plays no part. *)
Theorem second_run_adds_no_row
    (cfg : config) (now1 now2 : Z) (p : provider) (key : string) (fuel : nat)
    (start1 start2 : Z) (db : database) (cursor : cursorRow)
    (latestBlock : Z) (chain : list rawlog)
    (Hserves : serves chain p)
    (Hhead : getBlockNumber p = Resolved latestBlock)
    (Hsize : 0 <= FLR_SCAN_BLOCKS cfg)
    (Hoverlap : 0 <= OVERLAP_BLOCKS cfg)
    (Hcursor : scan_cursors (ensureCursor now1 (cursorKeyOf key) start1 db)
               !! cursorKeyOf key = Some cursor)
    (Hlast : last_scanned_block cursor <= latestBlock)
    (Hfrom : resumeBlock cfg (start_block cursor) (last_scanned_block cursor)
             <= latestBlock)
    (Hfuel : (enoughFuel latestBlock
                (resumeBlock cfg (start_block cursor) (last_scanned_block cursor))
              <= fuel)%nat) :
  let db1 := snd (fst (scanLoanNftTransfers cfg now1 p key fuel start1 db)) in
  let r2 := scanLoanNftTransfers cfg now2 p key fuel start2 db1 in
  fst (fst r2) = Returned tt
  /\ loan_nft_transfers (snd (fst r2)) = loan_nft_transfers db1
  /\ transfers_seq db1 <= transfers_seq (snd (fst r2))
  /\ scan_cursors (snd (fst r2)) !! cursorKeyOf key
     = Some (mkCursor (start_block cursor) latestBlock now2)
  /\ (exists w rest, requestedWindows (snd r2) = w :: rest
        /\ fst w = resumeBlock cfg (start_block cursor) latestBlock).
Proof.
  intros db1 r2.
  set (ck := cursorKeyOf key) in *.
  set (from1 := resumeBlock cfg (start_block cursor) (last_scanned_block cursor))
    in *.
  destruct (scan_serves cfg now1 p key fuel start1 db cursor latestBlock chain
              Hserves Hhead Hsize Hcursor Hfrom Hfuel) as (ws1 & Ht1 & Hr1).
  fold ck in Hr1.
  set (dbe := ensureCursor now1 ck start1 db) in *.
  assert (Hdb1 : db1 = updateCursor now1 ck latestBlock
                         (commitWindows now1 p key ws1 dbe)).
  { subst db1. now rewrite Hr1. }
  assert (Hcur1 : scan_cursors db1 !! ck
                  = Some (mkCursor (start_block cursor) latestBlock now1)).
  { rewrite Hdb1. apply lastScanned_updateCursor.
    now rewrite commitWindows_cursors. }
  assert (Hens : ensureCursor now2 ck start2 db1 = db1)
    by exact (ensureCursor_present now2 db1 ck start2 _ Hcur1).
  set (cursor2 := mkCursor (start_block cursor) latestBlock now1) in *.
  set (from2 := resumeBlock cfg (start_block cursor) latestBlock).
  assert (Hstart : start_block cursor <= from1).
  { unfold from1, resumeBlock. destruct (0 <? _); lia. }
  assert (Hfrom2 : from1 <= from2 <= latestBlock).
  { unfold from1, from2, resumeBlock in *.
    destruct (Z.ltb_spec 0 (last_scanned_block cursor));
      destruct (Z.ltb_spec 0 latestBlock); lia. }
  destruct (scan_serves cfg now2 p key fuel start2 db1 cursor2 latestBlock chain
              Hserves Hhead Hsize) as (ws2 & Ht2 & Hr2).
  { fold ck. now rewrite Hens. }
  { exact (proj2 Hfrom2). }
  { cbn [start_block last_scanned_block cursor2]. fold from2.
    unfold enoughFuel in *. lia. }
  cbn [start_block last_scanned_block cursor2] in Ht2. fold from2 in Ht2.
  fold ck in Hr2. rewrite Hens in Hr2. fold r2 in Hr2.
  assert (Hnoop : loan_nft_transfers (commitWindows now2 p key ws2 db1)
                  = loan_nft_transfers db1).
  { apply (commitWindows_noop now2 p key ws2 db1). intros w e Hw He.
    apply (eventsOf_serves p chain Hserves) in He as (lg & Hlg & Hin & Hd).
    apply list_elem_of_lookup in Hw as [i Hi].
    destruct (tiling_lookup _ _ from2 ws2 Hsize Ht2 i w Hi) as (Hf & _ & _ & Hl).
    unfold inWindow in Hin. apply andb_prop in Hin as [H1 H2].
    apply Z.leb_le in H1, H2.
    assert (Hrange : from1 <= lg_blockNumber lg <= latestBlock) by nia.
    destruct (proj1 (tiling_cover _ _ from1 ws1 Hsize Ht1 (lg_blockNumber lg))
                Hrange) as (w1 & Hw1 & Hin1).
    destruct (decodeTransfer (timestampsOf p (logsOf p w1)) lg) as [e1|] eqn:Hd1.
    2:{ apply decodeTransfer_None in Hd1.
        apply decodeTransfer_None with (m := timestampsOf p (logsOf p w)) in Hd1.
        congruence. }
    destruct (decodeTransfer_key _ _ _ Hd) as [Htx Hli].
    destruct (decodeTransfer_key _ _ _ Hd1) as [Htx1 Hli1].
    assert (Hsame : eventKey key e = eventKey key e1)
      by (unfold eventKey; congruence).
    rewrite Hsame, Hdb1, updateCursor_rows.
    apply (commitWindows_stored now1 p key ws1 dbe w1 e1 Hw1).
    apply (eventsOf_serves p chain Hserves). exists lg. split; [exact Hlg|].
    split; [|exact Hd1]. unfold inWindow.
    apply andb_true_intro. split; apply Z.leb_le; lia. }
  rewrite Hr2. cbn [fst snd].
  split; [reflexivity|]. split; [now rewrite updateCursor_rows|].
  split; [|split].
  - pose proof (commitWindows_seq now2 p key ws2 db1) as Hseq.
    unfold updateCursor.
    now destruct (scan_cursors (commitWindows now2 p key ws2 db1) !! ck).
  - rewrite (lastScanned_updateCursor now2 _ ck latestBlock cursor2);
      [reflexivity | now rewrite commitWindows_cursors].
  - cbn [requestedWindows]. rewrite windowTraces_requests.
    inversion Ht2 as [b Hpast|b ws Hin Hrest]; subst; [lia|].
    eexists _, _. split; reflexivity.
Qed.

(** The example batch scanned twice: the second run starts again at block 9
    and stores nothing new. *)
Lemma second_run_adds_no_row_witness :
  let db1 := snd (fst (scanLoanNftTransfers (mkConfig 1 0 5) 8
                         (MoreExamples.serving 14 Examples.batchOfTen) "k" 10 9
                         Examples.emptyStore)) in
  let r2 := scanLoanNftTransfers (mkConfig 1 0 5) 9
              (MoreExamples.serving 14 Examples.batchOfTen) "k" 10 0 db1 in
  length (loan_nft_transfers db1) = 5%nat
  /\ loan_nft_transfers (snd (fst r2)) = loan_nft_transfers db1
  /\ transfers_seq db1 = 8
  /\ transfers_seq (snd (fst r2)) = 16
  /\ scan_cursors (snd (fst r2)) !! cursorKeyOf "k" = Some (mkCursor 9 14 9).
Proof.
  destruct (second_run_adds_no_row (mkConfig 1 0 5) 8 9
              (MoreExamples.serving 14 Examples.batchOfTen) "k" 10 9 0
              Examples.emptyStore (mkCursor 9 0 8) 14 Examples.batchOfTen)
    as (_ & Hrows & _ & Hcur & _).
  - split; [reflexivity | intros bn; eexists; reflexivity].
  - reflexivity.
  - cbn; lia.
  - cbn; lia.
  - vm_compute; reflexivity.
  - cbn; lia.
  - vm_compute; discriminate.
  - vm_compute; lia.
  - split; [vm_compute; reflexivity|]. split; [exact Hrows|].
    split; [vm_compute; reflexivity|]. split; [vm_compute; reflexivity|].
    exact Hcur.
Defined.

(** ** The transfer scans of a pass *)

Lemma cursor_keys_apart (k k' : string) : cursorKeyOf k <> troveCursorKeyOf k'.
Proof.
  unfold cursorKeyOf, troveCursorKeyOf.
  change ("loan_nft:" ++ k ++ ":transfer")%string
    with (String "l" ("oan_nft:" ++ k ++ ":transfer")).
  change ("trove_manager:" ++ k' ++ ":events")%string
    with (String "t" ("rove_manager:" ++ k' ++ ":events")).
  discriminate.
Qed.

(** X10. However the loop of [main] over the contracts ends, it changes no
    cursor other than those of the contracts it scans; in particular no
    cursor of the trove-event scan, which are kept in the same table.  The
    transfer table only grows at the end, by rows of the scanned contracts,
    and unique keys stay unique. *)
Theorem transfer_pass_keeps_to_its_contracts
    (items : list (contract * run)) (db : database) :
  let db' := snd (fst (scanTransfersOf items db)) in
  (forall ck',
     (forall c, c ∈ map fst items -> ck' <> cursorKeyOf (ct_key c)) ->
     scan_cursors db' !! ck' = scan_cursors db !! ck')
  /\ (forall k, scan_cursors db' !! troveCursorKeyOf k
               = scan_cursors db !! troveCursorKeyOf k)
  /\ (exists more,
        loan_nft_transfers db' = (loan_nft_transfers db ++ more)%list
        /\ Forall (fun r => exists c, c ∈ map fst items
                                      /\ contract_key r = ct_key c) more)
  /\ (uniqueKeys db -> uniqueKeys db').
Proof.
  cbn zeta.
  enough (H : (forall ck',
                 (forall c, c ∈ map fst items -> ck' <> cursorKeyOf (ct_key c)) ->
                 scan_cursors (snd (fst (scanTransfersOf items db))) !! ck'
                 = scan_cursors db !! ck')
              /\ (exists more,
                    loan_nft_transfers (snd (fst (scanTransfersOf items db)))
                    = (loan_nft_transfers db ++ more)%list
                    /\ Forall (fun r => exists c, c ∈ map fst items
                                          /\ contract_key r = ct_key c) more)
              /\ (uniqueKeys db -> uniqueKeys (snd (fst (scanTransfersOf items db))))).
  { destruct H as (Hc & Hr & Hu). split; [exact Hc|]. split; [|split; assumption].
    intros k. apply Hc. intros c _ Heq. symmetry in Heq.
    now apply cursor_keys_apart in Heq. }
  revert db. induction items as [|[c r] items IH]; intros db.
  - cbn. split; [reflexivity|]. split; [|auto].
    exists []. now rewrite app_nil_r.
  - cbn [scanTransfersOf]. unfold bind.
    pose proof (scan_other_cursors (run_cfg r) (run_now r) (run_provider r)
                  (ct_key c) (run_fuel r) (ct_default_start_block c) db) as Hc1.
    pose proof (scan_adds (run_cfg r) (run_now r) (run_provider r)
                  (ct_key c) (run_fuel r) (ct_default_start_block c) db) as Ha1.
    cbn zeta in Ha1.
    destruct (scanLoanNftTransfers _ _ _ _ _ _ db) as [[o db1] t1].
    cbn [fst snd] in Hc1, Ha1. destruct Ha1 as [(m1 & Em1 & Fm1) Hu1].
    assert (Hfirst :
      (forall ck',
         (forall c0, c0 ∈ map fst ((c, r) :: items) ->
                     ck' <> cursorKeyOf (ct_key c0)) ->
         scan_cursors db1 !! ck' = scan_cursors db !! ck')
      /\ (exists more,
            loan_nft_transfers db1 = (loan_nft_transfers db ++ more)%list
            /\ Forall (fun r0 => exists c0, c0 ∈ map fst ((c, r) :: items)
                                   /\ contract_key r0 = ct_key c0) more)
      /\ (uniqueKeys db -> uniqueKeys db1)).
    { split; [|split; [|exact Hu1]].
      - intros ck' Hne. apply Hc1. apply Hne. left.
      - exists m1. split; [exact Em1|].
        eapply Forall_impl; [exact Fm1|]. intros r0 Hr0.
        exists c. split; [left | exact Hr0]. }
    destruct o as [[]| |]; try exact Hfirst.
    specialize (IH db1).
    destruct (scanTransfersOf items db1) as [[o2 db2] t2].
    cbn [fst snd] in *. destruct IH as (Hc2 & (m2 & Em2 & Fm2) & Hu2).
    split; [|split; [|auto]].
    + intros ck' Hne. rewrite Hc2.
      * apply Hc1. apply Hne. left.
      * intros c0 Hc0. apply Hne. now right.
    + exists (m1 ++ m2)%list. split; [now rewrite Em2, Em1, app_assoc|].
      apply Forall_app_2.
      * eapply Forall_impl; [exact Fm1|]. intros r0 Hr0.
        exists c. split; [left | exact Hr0].
      * eapply Forall_impl; [exact Fm2|]. intros r0 (c0 & Hc0 & Hr0).
        exists c0. split; [now right | exact Hr0].
Qed.

(** ** The lock files *)

Section LockFacts.

Import Lock.

Variable lockDir : string.

Lemma lockPathOf_inj (name name' : string) :
  lockPathOf lockDir name = lockPathOf lockDir name' -> name = name'.
Proof.
  unfold lockPathOf. intros H.
  apply (String.app_inj lockDir) in H.
  apply (String.app_inj "/") in H.
  now apply string_app_inv_tail in H.
Qed.

Lemma lockPathOf_nonempty (name : string) : lockPathOf lockDir name <> EmptyString.
Proof.
  unfold lockPathOf. intros H. apply (f_equal String.length) in H.
  rewrite !string_length_app in H. cbn [String.length] in H. lia.
Qed.

(** A lock that exists is not acquired, and nothing happens. *)
Lemma acquireLock_held (f : faults) (name : string) (fs : files) :
  lockPathOf lockDir name ∈ fs -> acquireLock lockDir f name fs = (None, fs).
Proof.
  intros Hin. unfold acquireLock. destruct (mkdirFails f); [reflexivity|].
  now rewrite bool_decide_eq_true_2.
Qed.

(** What a call of [acquireLock] comes to. *)
Lemma acquireLock_cases (f : faults) (name : string) (fs : files) :
  let path := lockPathOf lockDir name in
  acquireLock lockDir f name fs = (None, fs)
  \/ ((path ∉ fs) /\ acquireLock lockDir f name fs = (None, {[ path ]} ∪ fs))
  \/ ((path ∉ fs) /\ acquireLock lockDir f name fs = (Some path, {[ path ]} ∪ fs)).
Proof.
  cbn zeta. unfold acquireLock.
  destruct (mkdirFails f); [now left|].
  destruct (decide (lockPathOf lockDir name ∈ fs)) as [Hin|Hout].
  { rewrite bool_decide_eq_true_2 by exact Hin. now left. }
  rewrite bool_decide_eq_false_2 by exact Hout.
  destruct (openFails f); [now left|].
  destruct (writeFails f); [right; left; auto|].
  destruct (closeFails f); [right; left; auto|].
  right. right. auto.
Qed.

End LockFacts.

(** X11. A call of [acquireLock] for a plain name adds at most the lock
    file of its name and removes nothing.  When it returns a path, this is
    the lock file of the name, it did not exist before and exists now, and
    every further call for the name returns null and changes nothing.  A
    lock file that exists makes the call return null without any change.
    Different plain names have different lock files, and the lock of one
    does not decide the call for another. *)
Theorem lock_is_exclusive
    (lockDir : string) (f : Lock.faults) (name : string) (fs : Lock.files)
    (Hplain : Lock.plainName name) :
  let path := Lock.lockPathOf lockDir name in
  let r := Lock.acquireLock lockDir f name fs in
  (forall x, x ∈ fs -> x ∈ snd r)
  /\ (forall x, x ∈ snd r -> x = path \/ x ∈ fs)
  /\ (forall got, fst r = Some got ->
        got = path /\ got <> EmptyString /\ (path ∉ fs) /\ path ∈ snd r
        /\ forall f2, Lock.acquireLock lockDir f2 name (snd r) = (None, snd r))
  /\ (path ∈ fs -> r = (None, fs))
  /\ (forall name', Lock.plainName name' -> name' <> name ->
        Lock.lockPathOf lockDir name' <> path
        /\ forall f2,
             fst (Lock.acquireLock lockDir f2 name' (snd r))
             = fst (Lock.acquireLock lockDir f2 name' fs)).
Proof.
  intros path r.
  assert (Hin : path ∈ {[path]} ∪ fs)
    by (apply elem_of_union; left; now apply elem_of_singleton).
  assert (Hgrow : forall x, x ∈ snd r <-> (x ∈ fs \/ (x = path /\ snd r <> fs))).
  { intros x. subst r.
    destruct (acquireLock_cases lockDir f name fs)
      as [->|[(Hout & ->)|(Hout & ->)]]; cbn [snd];
      try fold path in Hout; fold path.
    - tauto.
    - rewrite elem_of_union, elem_of_singleton. split; [|tauto].
      intros [->|H]; [|tauto]. right. split; [reflexivity|].
      intros Heq. apply Hout. now rewrite <- Heq.
    - rewrite elem_of_union, elem_of_singleton. split; [|tauto].
      intros [->|H]; [|tauto]. right. split; [reflexivity|].
      intros Heq. apply Hout. now rewrite <- Heq. }
  split; [intros x Hx; apply Hgrow; now left|].
  split; [intros x Hx; apply Hgrow in Hx; tauto|].
  split; [|split].
  - intros got Hgot. subst r.
    destruct (acquireLock_cases lockDir f name fs)
      as [E|[(Hout & E)|(Hout & E)]];
      try fold path in Hout; fold path in E;
      rewrite E in Hgot |- *; cbn [fst snd] in *;
      try discriminate; injection Hgot as <-.
    repeat split; try assumption.
    + apply lockPathOf_nonempty.
    + intros f2. now apply acquireLock_held.
  - intros Hheld. now apply acquireLock_held.
  - intros name' _ Hne.
    assert (Hpath : Lock.lockPathOf lockDir name' <> path).
    { intros Heq. apply Hne. now apply (lockPathOf_inj lockDir). }
    split; [exact Hpath|]. intros f2.
    assert (Hsame : bool_decide (Lock.lockPathOf lockDir name' ∈ snd r)
                    = bool_decide (Lock.lockPathOf lockDir name' ∈ fs)).
    { apply bool_decide_ext. rewrite Hgrow. tauto. }
    unfold Lock.acquireLock.
    destruct (Lock.mkdirFails f2); [reflexivity|].
    rewrite Hsame.
    destruct (bool_decide (Lock.lockPathOf lockDir name' ∈ fs)); [reflexivity|].
    destruct (Lock.openFails f2); [reflexivity|].
    destruct (Lock.writeFails f2); [reflexivity|].
    now destruct (Lock.closeFails f2).
Qed.

(** The two locks of the scripts: taking the first leaves the second free,
    and the first cannot be taken twice. *)
Lemma lock_is_exclusive_witness :
  let r := Lock.acquireLock "/app/locks" Lock.noFaults "scan-redemptions" ∅ in
  fst r = Some "/app/locks/scan-redemptions.lock"
  /\ Lock.acquireLock "/app/locks" Lock.noFaults "scan-redemptions" (snd r)
     = (None, snd r)
  /\ fst (Lock.acquireLock "/app/locks" Lock.noFaults "scan-stability-pool"
            (snd r))
     = fst (Lock.acquireLock "/app/locks" Lock.noFaults "scan-stability-pool" ∅).
Proof.
  destruct (lock_is_exclusive "/app/locks" Lock.noFaults "scan-redemptions" ∅
              eq_refl) as (_ & _ & Hgot & _ & Hother).
  split; [reflexivity|]. split.
  - now apply (Hgot "/app/locks/scan-redemptions.lock" eq_refl).
  - apply (Hother "scan-stability-pool" eq_refl); discriminate.
Defined.

(** X12. Releasing the path that [acquireLock] returned removes the lock
    file and nothing else, so that the files are as before the lock was
    taken and the lock can be taken again; releasing it once more, or
    releasing null or the empty path, changes nothing, and neither does a
    release whose unlink fails. *)
Theorem release_gives_the_lock_back
    (lockDir : string) (f f2 : Lock.faults) (name : string)
    (fs fs' : Lock.files) (path : string)
    (Hacquired : Lock.acquireLock lockDir f name fs = (Some path, fs'))
    (Hunlink : Lock.unlinkFails f2 = false) :
  Lock.releaseLock f2 (Some path) fs' = fs
  /\ Lock.acquireLock lockDir Lock.noFaults name
       (Lock.releaseLock f2 (Some path) fs') = (Some path, fs')
  /\ (forall f3, Lock.releaseLock f3 (Some path) fs = fs)
  /\ (forall f3, Lock.releaseLock f3 None fs' = fs'
                 /\ Lock.releaseLock f3 (Some EmptyString) fs' = fs')
  /\ (forall f3, Lock.unlinkFails f3 = true ->
                 Lock.releaseLock f3 (Some path) fs' = fs')
  /\ (forall f3 x, x ∈ fs' -> x <> path ->
                   x ∈ Lock.releaseLock f3 (Some path) fs').
Proof.
  destruct (acquireLock_cases lockDir f name fs)
    as [E|[(Hout & E)|(Hout & E)]];
    rewrite E in Hacquired; try discriminate.
  injection Hacquired as <- <-.
  set (path := Lock.lockPathOf lockDir name) in *.
  assert (Hin : path ∈ {[path]} ∪ fs)
    by (apply elem_of_union; left; now apply elem_of_singleton).
  assert (Hpath : exists c s, path = String c s).
  { pose proof (lockPathOf_nonempty lockDir name) as Hne. fold path in Hne.
    destruct path as [|c s]; [congruence | eauto]. }
  destruct Hpath as (c & s & Hcs).
  assert (Hback : ({[path]} ∪ fs) ∖ {[path]} = fs).
  { apply set_eq. intros x.
    rewrite elem_of_difference, elem_of_union, elem_of_singleton.
    split; [tauto|]. intros Hx. split; [now right|].
    intros ->. now apply Hout. }
  assert (Hrel : Lock.releaseLock f2 (Some path) ({[path]} ∪ fs) = fs).
  { unfold Lock.releaseLock. rewrite Hcs. rewrite <- Hcs.
    rewrite Hunlink, bool_decide_eq_true_2 by exact Hin. exact Hback. }
  split; [exact Hrel|]. split; [|split; [|split; [|split]]].
  - rewrite Hrel. unfold Lock.acquireLock. cbn [Lock.noFaults Lock.mkdirFails
      Lock.openFails Lock.writeFails Lock.closeFails]. fold path.
    now rewrite bool_decide_eq_false_2 by exact Hout.
  - intros f3. unfold Lock.releaseLock. rewrite Hcs. rewrite <- Hcs.
    rewrite bool_decide_eq_false_2 by exact Hout.
    now rewrite orb_true_r.
  - intros f3. split; reflexivity.
  - intros f3 Hf3. unfold Lock.releaseLock. rewrite Hcs. now rewrite Hf3.
  - intros f3 x Hx Hne. unfold Lock.releaseLock. rewrite Hcs. rewrite <- Hcs.
    destruct (_ || _); [exact Hx|].
    apply elem_of_difference. split; [exact Hx|].
    now rewrite elem_of_singleton.
Qed.

Lemma release_gives_the_lock_back_witness :
  Lock.acquireLock "/app/locks" Lock.noFaults "scan-redemptions" ∅
  = (Some "/app/locks/scan-redemptions.lock",
     {[ "/app/locks/scan-redemptions.lock" ]} ∪ ∅)
  /\ Lock.releaseLock Lock.noFaults (Some "/app/locks/scan-redemptions.lock")
       ({[ "/app/locks/scan-redemptions.lock" ]} ∪ ∅) = ∅.
Proof.
  assert (Hacq : Lock.acquireLock "/app/locks" Lock.noFaults "scan-redemptions" ∅
                 = (Some "/app/locks/scan-redemptions.lock",
                    {[ "/app/locks/scan-redemptions.lock" ]} ∪ ∅))
    by reflexivity.
  split; [exact Hacq|].
  apply (release_gives_the_lock_back "/app/locks" Lock.noFaults Lock.noFaults
           "scan-redemptions" ∅ _ _ Hacq).
  reflexivity.
Defined.

(** X13. When the lock file is created but writing or closing it fails,
    [acquireLock] returns null and leaves the file behind: every later call
    for the name returns null, whatever else happens, and so does every
    call after a release of the null that was returned. *)
Theorem failed_write_leaves_the_lock_behind
    (lockDir : string) (f : Lock.faults) (name : string) (fs : Lock.files)
    (Hmkdir : Lock.mkdirFails f = false)
    (Hopen : Lock.openFails f = false)
    (Hfree : Lock.lockPathOf lockDir name ∉ fs)
    (Hfails : Lock.writeFails f || Lock.closeFails f = true) :
  let r := Lock.acquireLock lockDir f name fs in
  fst r = None
  /\ Lock.lockPathOf lockDir name ∈ snd r
  /\ (forall f2, Lock.acquireLock lockDir f2 name (snd r) = (None, snd r))
  /\ (forall f2 f3,
        Lock.acquireLock lockDir f3 name (Lock.releaseLock f2 (fst r) (snd r))
        = (None, snd r)).
Proof.
  intros r.
  set (path := Lock.lockPathOf lockDir name) in *.
  assert (Hin : path ∈ {[path]} ∪ fs)
    by (apply elem_of_union; left; now apply elem_of_singleton).
  assert (Hr : r = (None, {[path]} ∪ fs)).
  { subst r. unfold Lock.acquireLock. fold path.
    rewrite Hmkdir, Hopen, bool_decide_eq_false_2 by exact Hfree.
    destruct (Lock.writeFails f); [reflexivity|].
    cbn [orb] in Hfails. now rewrite Hfails. }
  rewrite Hr. cbn [fst snd Lock.releaseLock].
  split; [reflexivity|]. split; [exact Hin|].
  split; intros; now apply acquireLock_held.
Qed.

Lemma failed_write_leaves_the_lock_behind_witness :
  Lock.acquireLock "/app/locks" (Lock.mkFaults false false true false false)
    "scan-stability-pool" ∅
  = (None, {[ "/app/locks/scan-stability-pool.lock" ]} ∪ ∅)
  /\ Lock.acquireLock "/app/locks" Lock.noFaults "scan-stability-pool"
       ({[ "/app/locks/scan-stability-pool.lock" ]} ∪ ∅)
     = (None, {[ "/app/locks/scan-stability-pool.lock" ]} ∪ ∅).
Proof.
  split; [reflexivity|].
  refine (proj1 (proj2 (proj2 (failed_write_leaves_the_lock_behind "/app/locks"
            (Lock.mkFaults false false true false false) "scan-stability-pool" ∅
            _ _ _ _))) Lock.noFaults); try reflexivity.
  apply not_elem_of_empty.
Defined.

(** ** The CSV writer *)

Section CsvFacts.

Import Js Csv.

Lemma app_cons (c : ascii) (a b : string) :
  (String c a ++ b)%string = String c (a ++ b).
Proof. reflexivity. Qed.

Lemma app_empty (b : string) : (EmptyString ++ b)%string = b.
Proof. reflexivity. Qed.

Lemma string_app_assoc (a b c : string) :
  ((a ++ b) ++ c)%string = (a ++ (b ++ c))%string.
Proof.
  induction a as [|x a IH]; [reflexivity|].
  rewrite !app_cons. now rewrite IH.
Qed.

Lemma code_inj (a b : ascii) : code a = code b -> a = b.
Proof.
  unfold code. intros H. apply N2Z.inj in H.
  rewrite <- (ascii_N_embedding a), <- (ascii_N_embedding b). now rewrite H.
Qed.

Lemma code_eqb_eq (a b : ascii) : (code a =? code b) = true <-> a = b.
Proof.
  rewrite Z.eqb_eq. split; [apply code_inj | now intros ->].
Qed.

Lemma code_eqb_neq (a b : ascii) : (code a =? code b) = false <-> a <> b.
Proof.
  rewrite Z.eqb_neq. split; [intros H ->; now apply H|].
  intros H Hc. apply H. now apply code_inj.
Qed.

Lemma free_cons (c d : ascii) (s : string) :
  free c (String d s) <-> c <> d /\ free c s.
Proof.
  unfold free, str. cbn [includes startsWith].
  destruct s; rewrite andb_true_r, orb_false_iff, code_eqb_neq; reflexivity.
Qed.

Lemma replaceQuotes_free (s : string) : free quote s -> replaceQuotes s = s.
Proof.
  induction s as [|c s IH]; [reflexivity|].
  intros [Hc Hs]%free_cons. cbn [replaceQuotes].
  replace (code c =? code quote) with false
    by (symmetry; apply code_eqb_neq; congruence).
  now rewrite IH.
Qed.

Lemma raw_split (a : string) :
  forall b t1 t2,
    free comma a -> free newline a -> free comma b -> free newline b ->
    endsCell t1 -> endsCell t2 ->
    (a ++ t1)%string = (b ++ t2)%string -> a = b /\ t1 = t2.
Proof.
  induction a as [|c a IH]; intros b t1 t2 Ha1 Ha2 Hb1 Hb2 Ht1 Ht2 Heq.
  - destruct b as [|d b]; [now split|].
    rewrite app_empty, app_cons in Heq. subst t1.
    apply free_cons in Hb1 as [Hb1 _]. apply free_cons in Hb2 as [Hb2 _].
    cbn in Ht1. destruct Ht1; congruence.
  - apply free_cons in Ha1 as [Hc1 Ha1]. apply free_cons in Ha2 as [Hc2 Ha2].
    destruct b as [|d b].
    + rewrite app_empty, app_cons in Heq. subst t2.
      cbn in Ht2. destruct Ht2; congruence.
    + apply free_cons in Hb1 as [_ Hb1]. apply free_cons in Hb2 as [_ Hb2].
      rewrite !app_cons in Heq. injection Heq as -> Heq.
      destruct (IH b t1 t2 Ha1 Ha2 Hb1 Hb2 Ht1 Ht2 Heq) as [-> ->]. now split.
Qed.

Lemma endsCell_notQuote (t : string) : endsCell t -> notQuote t.
Proof. destruct t as [|c t]; [easy|]. intros [->| ->]; discriminate. Qed.

Lemma quoted_split (a : string) :
  forall b t1 t2,
    notQuote t1 -> notQuote t2 ->
    (replaceQuotes a ++ String quote t1)%string
    = (replaceQuotes b ++ String quote t2)%string ->
    a = b /\ t1 = t2.
Proof.
  induction a as [|c a IH]; intros b t1 t2 Ht1 Ht2 Heq.
  - destruct b as [|d b]; cbn [replaceQuotes] in Heq.
    + rewrite !app_empty in Heq. injection Heq as ->. now split.
    + rewrite app_empty in Heq.
      destruct (code d =? code quote) eqn:Hd; rewrite !app_cons in Heq.
      * injection Heq as ->. now cbn in Ht1.
      * apply code_eqb_neq in Hd. injection Heq as Hq _. congruence.
  - cbn [replaceQuotes] in Heq.
    destruct (code c =? code quote) eqn:Hc; rewrite !app_cons in Heq.
    + destruct b as [|d b]; cbn [replaceQuotes] in Heq.
      * rewrite app_empty in Heq. injection Heq as <-. now cbn in Ht2.
      * apply code_eqb_eq in Hc. subst c.
        destruct (code d =? code quote) eqn:Hd; rewrite !app_cons in Heq.
        -- apply code_eqb_eq in Hd. subst d. injection Heq as Heq.
           destruct (IH b t1 t2 Ht1 Ht2 Heq) as [-> ->]. now split.
        -- apply code_eqb_neq in Hd. injection Heq as Hq _. congruence.
    + apply code_eqb_neq in Hc.
      destruct b as [|d b]; cbn [replaceQuotes] in Heq.
      * rewrite app_empty in Heq. injection Heq as Hq _. congruence.
      * destruct (code d =? code quote) eqn:Hd; rewrite !app_cons in Heq.
        -- injection Heq as Hq _. congruence.
        -- injection Heq as -> Heq.
           destruct (IH b t1 t2 Ht1 Ht2 Heq) as [-> ->]. now split.
Qed.

(** The cell of a string: quoted when it has a quote, a comma or a line
    feed, and as it is otherwise. *)
Lemma csvEscape_cases (s : string) :
  (csvEscape (Some s) = s
   /\ free quote s /\ free comma s /\ free newline s)
  \/ csvEscape (Some s) = String quote (replaceQuotes s ++ str quote).
Proof.
  unfold csvEscape.
  destruct (includes (str quote) s) eqn:Hq; [now right|].
  destruct (includes (str comma) s) eqn:Hc;
    [right; cbn [orb]; now rewrite replaceQuotes_free|].
  destruct (includes (str newline) s) eqn:Hn;
    [right; cbn [orb]; now rewrite replaceQuotes_free|].
  left. cbn [orb]. now repeat split.
Qed.

Lemma cell_split (a b t1 t2 : string) :
  endsCell t1 -> endsCell t2 ->
  (csvEscape (Some a) ++ t1)%string = (csvEscape (Some b) ++ t2)%string ->
  a = b /\ t1 = t2.
Proof.
  intros Ht1 Ht2 Heq.
  assert (Hmixed : forall r q t t',
            free quote r -> endsCell t ->
            (r ++ t)%string = (String quote (replaceQuotes q ++ str quote) ++ t')%string
            -> False).
  { intros r q t t' Hr Ht H. rewrite app_cons in H. destruct r as [|c r].
    - rewrite app_empty in H. subst t. cbn in Ht. destruct Ht; discriminate.
    - apply free_cons in Hr as [Hc _]. rewrite app_cons in H.
      injection H as -> _. congruence. }
  destruct (csvEscape_cases a) as [(Ea & Qa & Ca & Na)|Ea];
    destruct (csvEscape_cases b) as [(Eb & Qb & Cb & Nb)|Eb];
    rewrite Ea, Eb in Heq.
  - now apply raw_split.
  - exfalso. exact (Hmixed a b t1 t2 Qa Ht1 Heq).
  - exfalso. symmetry in Heq. exact (Hmixed b a t2 t1 Qb Ht2 Heq).
  - rewrite !app_cons, !string_app_assoc in Heq. unfold str in Heq.
    rewrite !app_cons, !app_empty in Heq. injection Heq as Heq.
    apply (quoted_split a b t1 t2); auto using endsCell_notQuote.
Qed.

Lemma lineOf_cons (a b : string) (row : list string) :
  lineOf (a :: b :: row)
  = (csvEscape (Some a) ++ String comma (lineOf (b :: row)))%string.
Proof. reflexivity. Qed.

Lemma row_split (r1 : list string) :
  forall r2 t1 t2,
    length r1 = length r2 -> endsRow t1 -> endsRow t2 ->
    (lineOf r1 ++ t1)%string = (lineOf r2 ++ t2)%string ->
    r1 = r2 /\ t1 = t2.
Proof.
  assert (Hrow : forall t, endsRow t -> endsCell t).
  { intros [|c t]; [easy|]. cbn. auto. }
  induction r1 as [|a r1 IH]; intros r2 t1 t2 Hlen Ht1 Ht2 Heq.
  - destruct r2; [|discriminate]. now split.
  - destruct r2 as [|b r2]; [discriminate|]. injection Hlen as Hlen.
    destruct r1 as [|a' r1]; destruct r2 as [|b' r2]; try discriminate.
    + change (lineOf [a]) with (csvEscape (Some a)) in Heq.
      change (lineOf [b]) with (csvEscape (Some b)) in Heq.
      destruct (cell_split a b t1 t2 (Hrow _ Ht1) (Hrow _ Ht2) Heq) as [-> ->].
      now split.
    + rewrite !lineOf_cons, !string_app_assoc, !app_cons in Heq.
      assert (Hcomma : forall t, endsCell (String comma t)) by (intros t; now left).
      destruct (cell_split a b _ _ (Hcomma _) (Hcomma _) Heq) as [-> Hrest].
      injection Hrest as Hrest.
      destruct (IH (b' :: r2) t1 t2 Hlen Ht1 Ht2 Hrest) as [-> ->]. now split.
Qed.

Lemma toCsv_lines (headers : list string) (rows : list (list string)) :
  toCsv (map Some headers) (map (map Some) rows) = linesOf (headers :: rows).
Proof.
  unfold toCsv.
  change (map Some headers :: map (map Some) rows)
    with (map (map Some) (headers :: rows)).
  rewrite map_map.
  change (fun x : list string => join (str comma) (map csvEscape (map Some x)))
    with lineOf.
  revert headers. induction rows as [|row rows IH]; intros headers.
  - reflexivity.
  - specialize (IH row). cbn [map] in IH |- *. cbn [join linesOf].
    cbn [linesOf] in IH. rewrite <- IH.
    rewrite !string_app_assoc. reflexivity.
Qed.

Lemma lines_split (w : nat) (t1 : list (list string)) :
  forall t2,
    Forall (fun row => length row = w) t1 ->
    Forall (fun row => length row = w) t2 ->
    linesOf t1 = linesOf t2 -> t1 = t2.
Proof.
  induction t1 as [|r1 t1 IH]; intros t2 H1 H2 Heq.
  - destruct t2 as [|r2 t2]; [reflexivity|]. cbn [linesOf] in Heq.
    apply (f_equal String.length) in Heq.
    rewrite string_length_app in Heq. cbn [String.length] in Heq. lia.
  - destruct t2 as [|r2 t2]; cbn [linesOf] in Heq.
    + apply (f_equal String.length) in Heq.
      rewrite string_length_app in Heq. cbn [String.length] in Heq. lia.
    + apply Forall_cons in H1 as [L1 H1]. apply Forall_cons in H2 as [L2 H2].
      assert (Hnl : forall t, endsRow (String newline t)) by reflexivity.
      destruct (row_split r1 r2 _ _ (eq_trans L1 (eq_sym L2)) (Hnl _) (Hnl _) Heq)
        as [-> Hrest].
      injection Hrest as Hrest. now rewrite (IH t2 H1 H2 Hrest).
Qed.

End CsvFacts.

(** X14. The CSV text determines the table: two tables of strings with the
    same number of columns in every row, header included, that give the same
    text are the same table, whatever quotes, commas and line feeds their
    cells hold.  A null cell and an empty string are written alike. *)
Theorem csv_text_determines_the_table
    (w : nat) (headers headers' : list string) (rows rows' : list (list string))
    (Hwidth : Forall (fun row => length row = w) (headers :: rows))
    (Hwidth' : Forall (fun row => length row = w) (headers' :: rows'))
    (Htext : Csv.toCsv (map Some headers) (map (map Some) rows)
             = Csv.toCsv (map Some headers') (map (map Some) rows')) :
  headers = headers' /\ rows = rows'
  /\ Csv.csvEscape None = Csv.csvEscape (Some EmptyString).
Proof.
  rewrite !toCsv_lines in Htext.
  pose proof (lines_split w _ _ Hwidth Hwidth' Htext) as H.
  injection H as -> ->. now repeat split.
Qed.

(** A table of two columns with a comma and a quote in its cells. *)
Lemma csv_text_determines_the_table_witness :
  String.length
    (Csv.toCsv (map Some ["tx"; "note"])
       (map (map Some) [["0xaa"; "a,b"]; ["0xbb"; Csv.str Csv.quote]]))
  = 29%nat
  /\ ["tx"; "note"] = ["tx"; "note"]
  /\ [["0xaa"; "a,b"]; ["0xbb"; Csv.str Csv.quote]]
     = [["0xaa"; "a,b"]; ["0xbb"; Csv.str Csv.quote]].
Proof.
  split; [reflexivity|].
  destruct (csv_text_determines_the_table 2
              ["tx"; "note"] ["tx"; "note"]
              [["0xaa"; "a,b"]; ["0xbb"; Csv.str Csv.quote]]
              [["0xaa"; "a,b"]; ["0xbb"; Csv.str Csv.quote]])
    as (Hh & Hr & _).
  - repeat constructor.
  - repeat constructor.
  - reflexivity.
  - split; [exact Hh | exact Hr].
Defined.

(** ** A window size below zero *)

Section NegativeSize.

Variable cfg : config.
Variable now : Z.
Variable p : provider.
Variable key : string.
Variable latestBlock : Z.
Hypothesis Hsize : FLR_SCAN_BLOCKS cfg <= -1.
Hypothesis Hok : forall w, windowOk p w.

(** The loop does not get past the head block: every round is followed by
    another. *)
Lemma windowLoop_goes_on (fuel : nat) :
  forall b lastGoodBlock db, b <= latestBlock ->
    let r := windowLoop cfg now p key fuel latestBlock b lastGoodBlock db in
    fst (fst r) = Diverges
    /\ length (requestedWindows (snd r)) = fuel
    /\ Forall (fun w => snd w < fst w) (requestedWindows (snd r)).
Proof.
  induction fuel as [|fuel IH]; intros b lg db Hb; cbn zeta; cbn [windowLoop].
  - cbn. repeat split. constructor.
  - replace (b <=? latestBlock) with true by (symmetry; apply Z.leb_le; lia).
    unfold bind, callFetcher.
    set (toBlock := Z.min (b + FLR_SCAN_BLOCKS cfg) latestBlock).
    destruct (Hok (b, toBlock)) as [[logs Hlogs] Hlook].
    pose proof (getLogsWithRetry_requests p b toBlock) as Hreq.
    unfold logsOf in Hlook. cbn [fst snd] in Hlogs, Hlook.
    rewrite Hlogs in Hlook.
    destruct (getLogsWithRetry p b toBlock None) as [res t1].
    cbn [fst snd] in Hlogs, Hreq. subst res.
    rewrite (commitWindow_resolved cfg now p key logs _ db
               (lookupsResolve_resolved p logs Hlook)).
    specialize (IH (b + (FLR_SCAN_BLOCKS cfg + 1)) toBlock
                  (insertAll now key
                     (decodeTransfers (timestampsOf p logs) logs) db)
                  ltac:(lia)).
    cbn zeta in IH.
    destruct (windowLoop cfg now p key fuel latestBlock _ toBlock _)
      as [[o db3] t3].
    cbn [fst snd] in *. destruct IH as (-> & Hlen & Hall).
    split; [reflexivity|].
    rewrite requestedWindows_app, Hreq.
    rewrite (requestedWindows_app _ t3).
    rewrite (requestedWindows_none (_ ++ _ ++ _)).
    + cbn [app length]. split; [now rewrite Hlen|].
      constructor; [cbn [fst snd]; unfold toBlock; lia | exact Hall].
    + repeat apply Forall_app_2.
      * apply Forall_forall. intros e He. apply list_elem_of_In, in_map_iff in He.
        now destruct He as (bn & <- & _).
      * destruct (bool_decide _); repeat constructor.
      * destruct (0 <? FLR_PAUSE_MS cfg); repeat constructor.
Qed.

End NegativeSize.

(** X15. With a window size of -1 or less, a scan whose fetches and lookups
    all succeed never ends: however many rounds the loop is given, it is
    still going, each round requesting a range whose last block is before
    its first, and the cursor is never written. *)
Theorem negative_window_size_never_ends
    (cfg : config) (now : Z) (p : provider) (key : string) (fuel : nat)
    (default_start_block : Z) (db : database) (cursor : cursorRow)
    (latestBlock : Z)
    (Hsize : FLR_SCAN_BLOCKS cfg <= -1)
    (Hok : forall w, windowOk p w)
    (Hcursor : scan_cursors
                 (ensureCursor now (cursorKeyOf key) default_start_block db)
               !! cursorKeyOf key = Some cursor)
    (Hhead : getBlockNumber p = Resolved latestBlock)
    (Hfrom : resumeBlock cfg (start_block cursor) (last_scanned_block cursor)
             <= latestBlock) :
  let r := scanLoanNftTransfers cfg now p key fuel default_start_block db in
  fst (fst r) = Diverges
  /\ length (requestedWindows (snd r)) = fuel
  /\ Forall (fun w => snd w < fst w) (requestedWindows (snd r))
  /\ scan_cursors (snd (fst r))
     = scan_cursors (ensureCursor now (cursorKeyOf key) default_start_block db).
Proof.
  intros r.
  assert (Hcur : scan_cursors (snd (fst r))
                 = scan_cursors
                     (ensureCursor now (cursorKeyOf key) default_start_block db)
                 \/ fst (fst r) = Returned tt).
  { destruct (fst (fst r)) as [[]| |] eqn:Ho; [now right| |];
      left; apply (scan_cursor_shape cfg now p key fuel default_start_block db
                     cursor Hcursor); fold r; rewrite Ho; discriminate. }
  assert (Hrun : fst (fst r) = Diverges
                 /\ length (requestedWindows (snd r)) = fuel
                 /\ Forall (fun w => snd w < fst w) (requestedWindows (snd r))).
  { subst r.
    cbv beta iota zeta delta [scanLoanNftTransfers bind modify getDb await].
    cbn [fst snd]. rewrite Hcursor, Hhead. cbn [fst snd].
    replace (latestBlock <? _) with false by (symmetry; apply Z.ltb_ge; lia).
    pose proof (windowLoop_goes_on cfg now p key latestBlock Hsize Hok fuel
                  (resumeBlock cfg (start_block cursor) (last_scanned_block cursor))
                  (resumeBlock cfg (start_block cursor) (last_scanned_block cursor) - 1)
                  (ensureCursor now (cursorKeyOf key) default_start_block db)
                  Hfrom) as Hloop.
    cbn zeta in Hloop.
    destruct (windowLoop cfg now p key fuel latestBlock _ _ _) as [[o db2] t2].
    cbn [fst snd] in Hloop. destruct Hloop as (-> & Hlen & Hall).
    cbn [fst snd app requestedWindows]. auto. }
  destruct Hrun as (Ho & Hlen & Hall).
  split; [exact Ho|]. split; [exact Hlen|]. split; [exact Hall|].
  destruct Hcur as [Hcur|Hret]; [exact Hcur | congruence].
Qed.

(** A quiet provider with windows of size -1: after twenty rounds the scan
    is still asking for the range from 995 to 994. *)
Lemma negative_window_size_never_ends_witness :
  let r := scanLoanNftTransfers (mkConfig (-1) 0 5) 8 (Examples.quiet 2000) "k"
             20 0 Examples.storeAt1000 in
  fst (fst r) = Diverges
  /\ requestedWindows (snd r) = repeat (995, 994) 20.
Proof.
  destruct (negative_window_size_never_ends (mkConfig (-1) 0 5) 8
              (Examples.quiet 2000) "k" 20 0 Examples.storeAt1000
              (mkCursor 0 1000 7) 2000) as (Ho & _).
  - cbn; lia.
  - intros w. split; [eexists; reflexivity | intros bn _; eexists; reflexivity].
  - vm_compute; reflexivity.
  - reflexivity.
  - vm_compute; discriminate.
  - split; [exact Ho | vm_compute; reflexivity].
Defined.

(** ** Where the cursor is written *)

Section CursorWrite.

Variable cfg : config.
Variable now : Z.
Variable p : provider.
Variable key : string.

(** The block the loop returns is the one it started with or the last block
    of a window it requested, which is not beyond the head. *)
Lemma windowLoop_written (latestBlock : Z) (fuel : nat) :
  forall b lastGoodBlock db lg,
    let r := windowLoop cfg now p key fuel latestBlock b lastGoodBlock db in
    fst (fst r) = Returned lg ->
    lg = lastGoodBlock
    \/ (lg <= latestBlock
        /\ exists b', (b', lg) ∈ requestedWindows (snd r)).
Proof.
  induction fuel as [|fuel IH]; intros b lgb db lg; cbn zeta; cbn [windowLoop];
    [discriminate|].
  destruct (b <=? latestBlock); [|intros [= <-]; now left].
  unfold bind, callFetcher.
  set (toBlock := Z.min (b + FLR_SCAN_BLOCKS cfg) latestBlock).
  pose proof (getLogsWithRetry_requests p b toBlock) as Hreq.
  destruct (getLogsWithRetry p b toBlock None) as [[logs|err] t1];
    [|intros [= <-]; now left].
  cbn [snd] in Hreq.
  destruct (commitWindow cfg now p key logs db) as [[[[]| |] db2] t2];
    try discriminate.
  specialize (IH (b + (FLR_SCAN_BLOCKS cfg + 1)) toBlock db2 lg).
  cbn zeta in IH.
  destruct (windowLoop cfg now p key fuel latestBlock _ toBlock db2)
    as [[o db3] t3].
  cbn [fst snd] in *. intros Ho. right.
  rewrite !requestedWindows_app, Hreq.
  destruct (IH Ho) as [->|(Hle & b' & Hin)].
  - split; [unfold toBlock; lia|]. exists b.
    apply elem_of_app. left. apply list_elem_of_here.
  - split; [exact Hle|]. exists b'.
    apply elem_of_app. right. apply elem_of_app. now right.
Qed.

End CursorWrite.

(** X16. Whatever the provider answers and however the run ends, the cursor
    row of a scan is afterwards the row that [ensureCursor] left, or it has
    been written once, at the normal end of the run, with the last block of
    a window that the run requested: a block from the resume block, which is
    not before the start block, to the head block.  So a cursor that has
    been written is never before its start block. *)
Theorem cursor_is_written_within_the_scanned_range
    (cfg : config) (now : Z) (p : provider) (key : string) (fuel : nat)
    (default_start_block : Z) (db : database) (cursor : cursorRow)
    (Hcursor : scan_cursors
                 (ensureCursor now (cursorKeyOf key) default_start_block db)
               !! cursorKeyOf key = Some cursor) :
  let fromBlock :=
    resumeBlock cfg (start_block cursor) (last_scanned_block cursor) in
  let r := scanLoanNftTransfers cfg now p key fuel default_start_block db in
  scan_cursors (snd (fst r)) !! cursorKeyOf key = Some cursor
  \/ exists lg,
       scan_cursors (snd (fst r)) !! cursorKeyOf key
       = Some (mkCursor (start_block cursor) lg now)
       /\ fst (fst r) = Returned tt
       /\ start_block cursor <= fromBlock <= lg
       /\ (exists head, getBlockNumber p = Resolved head /\ lg <= head)
       /\ exists b, (b, lg) ∈ requestedWindows (snd r).
Proof.
  intros fromBlock r.
  assert (Hstart : start_block cursor <= fromBlock).
  { unfold fromBlock, resumeBlock. destruct (0 <? _); lia. }
  set (db1 := ensureCursor now (cursorKeyOf key) default_start_block db) in *.
  subst r.
  cbv beta iota zeta delta [scanLoanNftTransfers bind modify getDb await].
  fold db1. cbn [fst snd]. rewrite Hcursor.
  destruct (getBlockNumber p) as [head|e]; cbn [fst snd]; [|now left].
  fold fromBlock.
  destruct (head <? fromBlock); [now left|].
  pose proof (windowLoop_cursors cfg now p key head fuel fromBlock
                (fromBlock - 1) db1) as Hsame.
  pose proof (windowLoop_written cfg now p key head fuel fromBlock
                (fromBlock - 1) db1) as Hwritten.
  cbn zeta in Hwritten.
  destruct (windowLoop cfg now p key fuel head _ _ db1) as [[[lg| |] db2] t2];
    cbn [fst snd] in *; try (left; now rewrite Hsame).
  destruct (Z.leb_spec fromBlock lg) as [Hle|Hgt]; cbn [fst snd modify ret];
    [|left; now rewrite Hsame].
  right. exists lg.
  destruct (Hwritten lg eq_refl) as [->|(Hhead & b & Hin)]; [lia|].
  split.
  { apply lastScanned_updateCursor. now rewrite Hsame. }
  split; [reflexivity|]. split; [lia|]. split; [eauto|].
  exists b. cbn [app requestedWindows]. rewrite requestedWindows_app.
  apply elem_of_app. left. exact Hin.
Qed.

(** The run whose second fetch fails: the cursor is written with 997, the
    last block of its first window. *)
Lemma cursor_is_written_within_the_scanned_range_witness :
  let r := scanLoanNftTransfers (mkConfig 2 0 5) 8 (Examples.failingAt 1003 998)
             "k" 20 0 Examples.storeAt1000 in
  exists lg,
    scan_cursors (snd (fst r)) !! cursorKeyOf "k" = Some (mkCursor 0 lg 8)
    /\ (exists b, (b, lg) ∈ requestedWindows (snd r))
    /\ lg = 997.
Proof.
  destruct (cursor_is_written_within_the_scanned_range (mkConfig 2 0 5) 8
              (Examples.failingAt 1003 998) "k" 20 0 Examples.storeAt1000
              (mkCursor 0 1000 7))
    as [Hsame|(lg & Hc & _ & _ & _ & Hb)].
  - vm_compute; reflexivity.
  - vm_compute in Hsame. discriminate.
  - exists lg. split; [exact Hc|]. split; [exact Hb|].
    vm_compute in Hc. now injection Hc as <-.
Defined.
